(** * Lockdown: the vault encryption core and the session state machine

    A shallow embedding of [class LockdownBackground] of [background.js]
    (the Argon2id revision, together with the [encryptData] of the earlier
    revision that wrote the legacy envelopes), and the properties of the
    design document that concern it.

    Conventions of the embedding.
    - A JavaScript string is a [string]; its bytes are read as the UTF-8
      encoding, so [TextEncoder.encode] is [list_byte_of_string] and
      [TextDecoder.decode] its inverse.  [String.prototype.toLowerCase],
      which follows the Unicode case mapping, is a field of [Platform].
    - A JavaScript number that is whole is a [Z].  Numbers are IEEE doubles:
      where the script computes with them ([getRemainingTime]), the result
      of each operation is rounded as a double rounds it.
    - [message.masterPassword] reaches the handlers unchecked; it is a
      string, [null], [undefined] or some other value ([Passphrase]).
    - A [Uint8Array] is a [list byte]; a plain array of numbers, as the
      stored envelope holds, is a [list Z].
    - An object with a fixed set of fields is a record; a field that may be
      absent ([undefined]) has an [option] type.
    - [this] and the outside world (storage, random source, clock, timers)
      are threaded through a state-and-exception monad.  A handler is run
      to completion before the next one starts.
    - WebCrypto, the Argon2 library, [JSON], [URL] and the case mapping of
      strings are not code of this repository: they are the fields of the
      class [Platform]. *)

From Stdlib Require Import ZArith String Ascii List Bool Lia Permutation.
From Stdlib.Strings Require Import Byte.
From stdpp Require Import base option list gmap strings pretty.

Local Open Scope string_scope.
Local Open Scope list_scope.
Local Open Scope Z_scope.

(** ** Results of fallible calls *)

(** A call returns a value or throws an [Error] with a message. *)
Inductive result (A : Type) : Type :=
| Ok (a : A)
| Throw (message : string).
Arguments Ok {A} a.
Arguments Throw {A} message.

Definition result_bind {A B} (r : result A) (k : A → result B) : result B :=
  match r with
  | Ok a => k a
  | Throw e => Throw e
  end.

Notation "'let?' x ':=' r 'in' k" := (result_bind r (fun x => k))
  (at level 10, x pattern, r at level 100, k at level 200).

Definition is_Ok {A} (r : result A) : bool :=
  match r with Ok _ => true | Throw _ => false end.

(** ** Bytes and strings *)

Definition bytes := list byte.

Definition byte_of_Z (z : Z) : byte :=
  default x00 (Byte.of_N (Z.to_N (z mod 256))).

(** [Array.from(new Uint8Array(buf))]: the bytes as numbers. *)
Definition Array_from (u : bytes) : list Z :=
  map (fun b => Z.of_N (Byte.to_N b)) u.

(** [new Uint8Array(arr)]: every number is reduced modulo 256. *)
Definition Uint8Array_of (a : list Z) : bytes := map byte_of_Z a.

Definition TextEncoder_encode (s : string) : bytes := list_byte_of_string s.
Definition TextDecoder_decode (b : bytes) : string := string_of_list_byte b.

(** [s.includes(sub)] *)
Fixpoint includes (s sub : string) : bool :=
  String.prefix sub s ||
  match s with
  | EmptyString => false
  | String _ s' => includes s' sub
  end.

(** Truthiness of a string field and of a number field that may be absent:
    [undefined], the empty string and [0] are falsy. *)
Definition truthy_str (o : option string) : bool :=
  match o with
  | Some s => negb (String.eqb s "")
  | None => false
  end.

Definition truthy_num (o : option Z) : bool :=
  match o with
  | Some z => negb (z =? 0)
  | None => false
  end.

(** ** Master passwords *)

(** What [masterPassword] holds when it is not [null]: a string, nothing
    ([undefined], as when the message has no such field), or another value
    (a number, a boolean, an array or an object), of which the script only
    ever uses the text [String(value)].  A master password is an
    [option Passphrase], [None] standing for [null]. *)
Inductive Passphrase :=
| Text (s : string)
| Undefined
| Other (text : string).

(** The text of which [TextEncoder.encode(password)] gives the bytes: the
    parameter of [encode] defaults to the empty text, which is what
    [undefined] selects; every other value is converted with [String],
    which makes ['null'] of [null]. *)
Definition encoded_text (password : option Passphrase) : string :=
  match password with
  | Some (Text s) => s
  | Some Undefined => ""
  | Some (Other text) => text
  | None => "null"
  end.

(** ** Numbers *)

(** [n / d] rounded to the nearest whole number, a tie going to the even
    one; [d] is positive. *)
Definition round_half_even (n d : Z) : Z :=
  let q := n / d in
  let r := n mod d in
  if 2 * r <? d then q
  else if d <? 2 * r then q + 1
  else if Z.even q then q
  else q + 1.

(** The double nearest to the whole number [z]: [z] itself up to [2^53];
    beyond, [z] is rounded to 53 significant bits. *)
Definition double (z : Z) : Z :=
  let a := Z.abs z in
  if a <? 2 ^ 53 then z
  else
    let e := Z.log2 a - 52 in
    Z.sgn z * (round_half_even a (2 ^ e) * 2 ^ e).

(** [a - b] on whole doubles. *)
Definition Number_sub (a b : Z) : Z := double (a - b).

(** [Math.floor(a / b)] for whole [a] and [b] with [0 ≤ a] and [0 < b]: the
    quotient is rounded to a double, 53 significant bits with a binary
    exponent, before the floor is taken.  A quotient below 1 rounds up
    to 1 from [1 - 2^-54] on. *)
Definition Math_floor_div (a b : Z) : Z :=
  let q := a / b in
  if q =? 0 then (if (b - a) * 2 ^ 54 <=? b then 1 else 0)
  else
    let e := Z.log2 q - 52 in
    if 0 <=? e then round_half_even a (b * 2 ^ e) * 2 ^ e
    else round_half_even (a * 2 ^ (- e)) b / 2 ^ (- e).

(** The whole numbers on which the arithmetic of doubles is exact. *)
Definition safe_integer (z : Z) : Prop := - 2 ^ 53 ≤ z ≤ 2 ^ 53.

(** ** Data model *)

Record Credential := {
  cred_id : option string;
  cred_name : option string;
  cred_domain : option string;
  cred_username : option string;
  cred_password : option string;
  cred_url : option string;
  cred_email : option string;
  cred_created : option Z;
  cred_modified : option Z
}.

Record Vault := {
  credentials : list Credential;
  created : Z;
  version : string;
  security : string
}.

(** [kdfParams]: [{iterations}] for PBKDF2, [{time, memory, parallelism,
    hashLen}] for Argon2id. *)
Record KdfParams := {
  kp_iterations : option Z;
  kp_time : option Z;
  kp_memory : option Z;
  kp_parallelism : option Z;
  kp_hashLen : option Z
}.

(** The stored envelope.  [encryptionTime], a duration measured with
    [performance.now()] and never read back, is left out. *)
Record Envelope := {
  encrypted : list Z;
  salt : list Z;
  iv : list Z;
  env_version : string;
  kdf : option string;
  kdfParams : option KdfParams
}.

Record Argon2Params := {
  a2_time : Z;
  a2_mem : Z;
  a2_hashLen : Z;
  a2_parallelism : Z;
  a2_type : Z
}.

(** The fields of [this]. [autoLockDelay] is a number or [null]; [NaN],
    which [parseInt] may produce and which is falsy like [null], is
    modelled as [None] too. *)
Record Session := {
  vault : option Vault;
  isUnlocked : bool;
  masterPassword : option Passphrase;
  autoLockTimer : option positive;
  autoLockDelay : option Z;
  unlockTime : option Z;
  argon2Loaded : bool;
  argon2Params : Argon2Params
}.

(** [chrome.storage.local]: the keys the background script writes. *)
Record Storage := {
  st_vault : option Envelope;
  st_setupCompleted : bool;
  st_autoLockDelay : option (option Z)
}.

(** The world outside [this].  The random source, the clock and
    [Math.random] are tapes read from a position that advances with every
    read; [storage_fault], when set, is the message with which a storage
    write is rejected; [timers] holds the pending [setTimeout] calls (all of
    them run [lockVault]) with their delays. *)
Record World := {
  storage : Storage;
  storage_fault : option string;
  rand_tape : nat → byte;
  rand_pos : nat;
  clock_tape : nat → Z;
  clock_pos : nat;
  mathrandom_tape : nat → string;
  mathrandom_pos : nat;
  timers : gmap positive Z;
  next_timer : positive;
  notifications : list string
}.

Record Machine := {
  this : Session;
  world : World
}.

(** ** The platform *)

Inductive HashAlg := SHA_1 | SHA_256 | SHA_384 | SHA_512.

(** The library calls of the script.
    - [pbkdf2_deriveKey h pw salt n]: [importKey('raw', pw, 'PBKDF2')]
      followed by [deriveKey] with hash [h] and [n] iterations, for a 256-bit
      AES-GCM key; the key is represented by its bytes.  A parameter read
      from a stored envelope may be [undefined], hence the [option].
    - [argon2_hash pass salt time mem parallelism hashLen]: the Argon2id
      call, whichever of [argon2.hash] and [argon2.argon2id] the library
      offers; [Throw] when neither exists or the library fails.  The
      library is handed the master password as it is, string or not.
    - [aes_gcm_encrypt key iv data] and [aes_gcm_decrypt key iv data]:
      [importKey('raw', key, 'AES-GCM')] where the key is given as bytes,
      followed by [crypto.subtle.encrypt] and [decrypt].
    - [URL_hostname u]: [new URL(u).hostname].
    - [toLowerCase s]: [s.toLowerCase()].
    - [password_text length symbols w]: the text [generatePassword] builds
      from [Math.random] and a shuffle that depends on the engine's sort. *)
Class Platform := {
  pbkdf2_deriveKey : HashAlg → bytes → bytes → option Z → result bytes;
  argon2_hash :
    option Passphrase → bytes → option Z → option Z → option Z → option Z →
    result bytes;
  aes_gcm_encrypt : bytes → bytes → bytes → result bytes;
  aes_gcm_decrypt : bytes → bytes → bytes → result bytes;
  JSON_stringify : Vault → string;
  JSON_parse : string → result Vault;
  URL_hostname : string → result string;
  toLowerCase : string → string;
  password_text : Z → bool → World → string
}.

(** ** The state-and-exception monad of the handlers *)

Definition M (A : Type) : Type := Machine → result A * Machine.

Definition ret {A} (a : A) : M A := fun m => (Ok a, m).

Definition throw {A} (message : string) : M A := fun m => (Throw message, m).

Definition bind {A B} (c : M A) (k : A → M B) : M B :=
  fun m =>
    match c m with
    | (Ok a, m') => k a m'
    | (Throw e, m') => (Throw e, m')
    end.

(** [try { c } catch (error) { h error.message }]: what [c] did to the state
    before it threw stays done. *)
Definition try_catch {A} (c : M A) (h : string → M A) : M A :=
  fun m =>
    match c m with
    | (Ok a, m') => (Ok a, m')
    | (Throw e, m') => h e m'
    end.

Definition lift {A} (r : result A) : M A := fun m => (r, m).

Definition get_this : M Session := fun m => (Ok (this m), m).

Definition get_world : M World := fun m => (Ok (world m), m).

Definition put_this (s : Session) : M unit :=
  fun m => (Ok tt, {| this := s; world := world m |}).

Definition put_world (w : World) : M unit :=
  fun m => (Ok tt, {| this := this m; world := w |}).

Notation "'let*' x ':=' c 'in' k" := (bind c (fun x => k))
  (at level 10, x pattern, c at level 100, k at level 200).
Notation "c ';;;' k" := (bind c (fun _ => k))
  (at level 100, k at level 200, right associativity).

(** ** Field updates *)

Definition set_vault (v : option Vault) (s : Session) : Session :=
  {| vault := v; isUnlocked := isUnlocked s;
     masterPassword := masterPassword s; autoLockTimer := autoLockTimer s;
     autoLockDelay := autoLockDelay s; unlockTime := unlockTime s;
     argon2Loaded := argon2Loaded s; argon2Params := argon2Params s |}.

Definition set_isUnlocked (b : bool) (s : Session) : Session :=
  {| vault := vault s; isUnlocked := b;
     masterPassword := masterPassword s; autoLockTimer := autoLockTimer s;
     autoLockDelay := autoLockDelay s; unlockTime := unlockTime s;
     argon2Loaded := argon2Loaded s; argon2Params := argon2Params s |}.

Definition set_masterPassword (p : option Passphrase) (s : Session)
  : Session :=
  {| vault := vault s; isUnlocked := isUnlocked s;
     masterPassword := p; autoLockTimer := autoLockTimer s;
     autoLockDelay := autoLockDelay s; unlockTime := unlockTime s;
     argon2Loaded := argon2Loaded s; argon2Params := argon2Params s |}.

Definition set_autoLockTimer (t : option positive) (s : Session) : Session :=
  {| vault := vault s; isUnlocked := isUnlocked s;
     masterPassword := masterPassword s; autoLockTimer := t;
     autoLockDelay := autoLockDelay s; unlockTime := unlockTime s;
     argon2Loaded := argon2Loaded s; argon2Params := argon2Params s |}.

Definition set_autoLockDelay (d : option Z) (s : Session) : Session :=
  {| vault := vault s; isUnlocked := isUnlocked s;
     masterPassword := masterPassword s; autoLockTimer := autoLockTimer s;
     autoLockDelay := d; unlockTime := unlockTime s;
     argon2Loaded := argon2Loaded s; argon2Params := argon2Params s |}.

Definition set_unlockTime (t : option Z) (s : Session) : Session :=
  {| vault := vault s; isUnlocked := isUnlocked s;
     masterPassword := masterPassword s; autoLockTimer := autoLockTimer s;
     autoLockDelay := autoLockDelay s; unlockTime := t;
     argon2Loaded := argon2Loaded s; argon2Params := argon2Params s |}.

Definition set_storage (st : Storage) (w : World) : World :=
  {| storage := st; storage_fault := storage_fault w;
     rand_tape := rand_tape w; rand_pos := rand_pos w;
     clock_tape := clock_tape w; clock_pos := clock_pos w;
     mathrandom_tape := mathrandom_tape w; mathrandom_pos := mathrandom_pos w;
     timers := timers w; next_timer := next_timer w;
     notifications := notifications w |}.

Definition set_rand_pos (n : nat) (w : World) : World :=
  {| storage := storage w; storage_fault := storage_fault w;
     rand_tape := rand_tape w; rand_pos := n;
     clock_tape := clock_tape w; clock_pos := clock_pos w;
     mathrandom_tape := mathrandom_tape w; mathrandom_pos := mathrandom_pos w;
     timers := timers w; next_timer := next_timer w;
     notifications := notifications w |}.

Definition set_clock_pos (n : nat) (w : World) : World :=
  {| storage := storage w; storage_fault := storage_fault w;
     rand_tape := rand_tape w; rand_pos := rand_pos w;
     clock_tape := clock_tape w; clock_pos := n;
     mathrandom_tape := mathrandom_tape w; mathrandom_pos := mathrandom_pos w;
     timers := timers w; next_timer := next_timer w;
     notifications := notifications w |}.

Definition set_mathrandom_pos (n : nat) (w : World) : World :=
  {| storage := storage w; storage_fault := storage_fault w;
     rand_tape := rand_tape w; rand_pos := rand_pos w;
     clock_tape := clock_tape w; clock_pos := clock_pos w;
     mathrandom_tape := mathrandom_tape w; mathrandom_pos := n;
     timers := timers w; next_timer := next_timer w;
     notifications := notifications w |}.

Definition set_timers (t : gmap positive Z) (next : positive) (w : World)
  : World :=
  {| storage := storage w; storage_fault := storage_fault w;
     rand_tape := rand_tape w; rand_pos := rand_pos w;
     clock_tape := clock_tape w; clock_pos := clock_pos w;
     mathrandom_tape := mathrandom_tape w; mathrandom_pos := mathrandom_pos w;
     timers := t; next_timer := next;
     notifications := notifications w |}.

Definition set_notifications (l : list string) (w : World) : World :=
  {| storage := storage w; storage_fault := storage_fault w;
     rand_tape := rand_tape w; rand_pos := rand_pos w;
     clock_tape := clock_tape w; clock_pos := clock_pos w;
     mathrandom_tape := mathrandom_tape w; mathrandom_pos := mathrandom_pos w;
     timers := timers w; next_timer := next_timer w;
     notifications := l |}.

Definition modify_this (f : Session → Session) : M unit :=
  fun m => (Ok tt, {| this := f (this m); world := world m |}).

Definition modify_world (f : World → World) : M unit :=
  fun m => (Ok tt, {| this := this m; world := f (world m) |}).

(** ** The world's services *)

(** The [n] bytes of the tape from position [p]. *)
Definition tape_window (tape : nat → byte) (p n : nat) : bytes :=
  map tape (seq p n).

(** [crypto.getRandomValues(new Uint8Array(n))] *)
Definition getRandomValues (n : nat) : M bytes :=
  fun m =>
    let w := world m in
    (Ok (tape_window (rand_tape w) (rand_pos w) n),
     {| this := this m; world := set_rand_pos (rand_pos w + n)%nat w |}).

(** [Date.now()] *)
Definition Date_now : M Z :=
  fun m =>
    let w := world m in
    (Ok (clock_tape w (clock_pos w)),
     {| this := this m; world := set_clock_pos (S (clock_pos w)) w |}).

(** [Math.random().toString(36).substr(2, 9)] *)
Definition Math_random_suffix : M string :=
  fun m =>
    let w := world m in
    (Ok (mathrandom_tape w (mathrandom_pos w)),
     {| this := this m;
        world := set_mathrandom_pos (S (mathrandom_pos w)) w |}).

(** [chrome.storage.local.set(items)], [items] given by its effect on the
    stored keys. *)
Definition storage_local_set (items : Storage → Storage) : M unit :=
  fun m =>
    match storage_fault (world m) with
    | Some e => (Throw e, m)
    | None =>
        (Ok tt,
         {| this := this m;
            world := set_storage (items (storage (world m))) (world m) |})
    end.

Definition put_vault_item (e : Envelope) (st : Storage) : Storage :=
  {| st_vault := Some e; st_setupCompleted := st_setupCompleted st;
     st_autoLockDelay := st_autoLockDelay st |}.

Definition put_setup_items (e : Envelope) (st : Storage) : Storage :=
  {| st_vault := Some e; st_setupCompleted := true;
     st_autoLockDelay := st_autoLockDelay st |}.

Definition put_autoLockDelay_item (d : option Z) (st : Storage) : Storage :=
  {| st_vault := st_vault st; st_setupCompleted := st_setupCompleted st;
     st_autoLockDelay := Some d |}.

(** [setTimeout(() => this.lockVault(), delay)] *)
Definition setTimeout (delay : Z) : M positive :=
  fun m =>
    let w := world m in
    (Ok (next_timer w),
     {| this := this m;
        world := set_timers (<[next_timer w := delay]> (timers w))
                            (Pos.succ (next_timer w)) w |}).

Definition clearTimeout (id : positive) : M unit :=
  modify_world (fun w => set_timers (delete id (timers w)) (next_timer w) w).

(** [notifyContentScripts(message)]: not awaited, and it catches its own
    errors; the messages sent are recorded. *)
Definition notifyContentScripts (message : string) : M unit :=
  modify_world (fun w => set_notifications (notifications w ++ [message]) w).

(** ** Encryption and decryption *)

Section Crypto.
Context {P : Platform}.

(** [encryptDataWithEnhancedPBKDF2(data, password)].  [importKey] for PBKDF2
    is part of [pbkdf2_deriveKey]. *)
Definition encryptDataWithEnhancedPBKDF2 (data : Vault)
    (password : option Passphrase) : M Envelope :=
  let dataString := JSON_stringify data in
  let* salt := getRandomValues 32 in
  let iterations := 250000 in
  let* key :=
    lift (pbkdf2_deriveKey SHA_256
            (TextEncoder_encode (encoded_text password)) salt
            (Some iterations)) in
  let* iv := getRandomValues 12 in
  let dataBuffer := TextEncoder_encode dataString in
  let* encrypted := lift (aes_gcm_encrypt key iv dataBuffer) in
  ret {| encrypted := Array_from encrypted;
         salt := Array_from salt;
         iv := Array_from iv;
         env_version := "2.0";
         kdf := Some "enhanced-pbkdf2";
         kdfParams := Some {| kp_iterations := Some iterations;
                              kp_time := None; kp_memory := None;
                              kp_parallelism := None; kp_hashLen := None |} |}.

(** [encryptDataWithArgon2(data, password)]: any failure inside the [try]
    falls back to the PBKDF2 encryptor, which draws its own salt and IV. *)
Definition encryptDataWithArgon2 (data : Vault)
    (password : option Passphrase) : M Envelope :=
  try_catch
    (let dataString := JSON_stringify data in
     let* salt := getRandomValues 32 in
     let* s := get_this in
     let params := argon2Params s in
     let* argon2Key :=
       lift (argon2_hash password salt (Some (a2_time params))
               (Some (a2_mem params)) (Some (a2_parallelism params))
               (Some (a2_hashLen params))) in
     let* iv := getRandomValues 12 in
     let dataBuffer := TextEncoder_encode dataString in
     let* encrypted := lift (aes_gcm_encrypt argon2Key iv dataBuffer) in
     ret {| encrypted := Array_from encrypted;
            salt := Array_from salt;
            iv := Array_from iv;
            env_version := "2.0";
            kdf := Some "argon2id";
            kdfParams := Some {| kp_iterations := None;
                                 kp_time := Some (a2_time params);
                                 kp_memory := Some (a2_mem params);
                                 kp_parallelism := Some (a2_parallelism params);
                                 kp_hashLen := Some (a2_hashLen params) |} |})
    (fun _ => encryptDataWithEnhancedPBKDF2 data password).

(** [encryptData(data, password)] *)
Definition encryptData (data : Vault) (password : option Passphrase)
  : M Envelope :=
  let* s := get_this in
  if argon2Loaded s then encryptDataWithArgon2 data password
  else encryptDataWithEnhancedPBKDF2 data password.

(** Reading a property of [kdfParams] when the envelope has none throws a
    [TypeError]. *)
Definition params_of (encryptedObj : Envelope) : result KdfParams :=
  match kdfParams encryptedObj with
  | Some p => Ok p
  | None => Throw "Cannot read properties of undefined"
  end.

(** [decryptDataWithArgon2(encryptedObj, password)] *)
Definition decryptDataWithArgon2 (s : Session) (encryptedObj : Envelope)
    (password : option Passphrase) : result Vault :=
  if negb (argon2Loaded s) then
    Throw "Argon2 library not available for decryption"
  else
    match
      (let salt := Uint8Array_of (salt encryptedObj) in
       let? params := params_of encryptedObj in
       let? argon2Key :=
         argon2_hash password salt (kp_time params) (kp_memory params)
           (kp_parallelism params) (kp_hashLen params) in
       let? decrypted :=
         aes_gcm_decrypt argon2Key (Uint8Array_of (iv encryptedObj))
           (Uint8Array_of (encrypted encryptedObj)) in
       JSON_parse (TextDecoder_decode decrypted))
    with
    | Ok v => Ok v
    | Throw _ => Throw "Decryption failed: Invalid password or corrupted data"
    end.

(** [decryptDataWithEnhancedPBKDF2(encryptedObj, password)] *)
Definition decryptDataWithEnhancedPBKDF2 (encryptedObj : Envelope)
    (password : option Passphrase) : result Vault :=
  let? params := params_of encryptedObj in
  let? key :=
    pbkdf2_deriveKey SHA_256 (TextEncoder_encode (encoded_text password))
      (Uint8Array_of (salt encryptedObj)) (kp_iterations params) in
  let? decrypted :=
    aes_gcm_decrypt key (Uint8Array_of (iv encryptedObj))
      (Uint8Array_of (encrypted encryptedObj)) in
  JSON_parse (TextDecoder_decode decrypted).

(** [decryptDataLegacy(encryptedObj, password)] *)
Definition decryptDataLegacy (encryptedObj : Envelope)
    (password : option Passphrase) : result Vault :=
  let? key :=
    pbkdf2_deriveKey SHA_256 (TextEncoder_encode (encoded_text password))
      (Uint8Array_of (salt encryptedObj)) (Some 100000) in
  let? decrypted :=
    aes_gcm_decrypt key (Uint8Array_of (iv encryptedObj))
      (Uint8Array_of (encrypted encryptedObj)) in
  JSON_parse (TextDecoder_decode decrypted).

(** [decryptVault(encryptedObj, password)] *)
Definition decryptVault (s : Session) (encryptedObj : Envelope)
    (password : option Passphrase) : result Vault :=
  if bool_decide (kdf encryptedObj = Some "argon2id") then
    decryptDataWithArgon2 s encryptedObj password
  else if bool_decide (kdf encryptedObj = Some "enhanced-pbkdf2") then
    decryptDataWithEnhancedPBKDF2 encryptedObj password
  else
    decryptDataLegacy encryptedObj password.

(** [encryptData(data, password)] of the earlier revision of the class, the
    writer of the envelopes without a [kdf] field. *)
Definition legacy_encryptData (data : Vault)
    (password : option Passphrase) : M Envelope :=
  let* salt := getRandomValues 16 in
  let* key :=
    lift (pbkdf2_deriveKey SHA_256
            (TextEncoder_encode (encoded_text password)) salt
            (Some 100000)) in
  let* iv := getRandomValues 12 in
  let dataBuffer := TextEncoder_encode (JSON_stringify data) in
  let* encrypted := lift (aes_gcm_encrypt key iv dataBuffer) in
  ret {| encrypted := Array_from encrypted;
         salt := Array_from salt;
         iv := Array_from iv;
         env_version := "1.1";
         kdf := None;
         kdfParams := None |}.

End Crypto.

(** ** Messages and responses *)

(** [delay] of [UPDATE_AUTO_LOCK]: the text ['never'], or a value of which
    [parseInt] makes a number ([None] for [NaN]). *)
Inductive AutoLockArg :=
| Never
| Delay (parsed : option Z).

(** A message, by its [type].  [handleMessage] passes the fields on as they
    come; [masterPassword] in particular may be [null] or missing. *)
Inductive Message :=
| SETUP_VAULT (masterPassword : option Passphrase)
| UNLOCK_VAULT (masterPassword : option Passphrase)
| LOCK_VAULT
| GET_STATUS
| SAVE_CREDENTIAL (credential : Credential)
| GET_CREDENTIALS (domain : string)
| DELETE_CREDENTIAL (credentialId : string)
| UPDATE_CREDENTIAL (credential : Credential)
| GENERATE_PASSWORD (length : option Z) (symbols : option bool)
| UPDATE_AUTO_LOCK (delay : AutoLockArg)
| GET_REMAINING_TIME
| OPEN_POPUP
| GET_ALL_CREDENTIALS
| SEARCH_CREDENTIALS (query : string)
| GET_SECURITY_STATUS
| OTHER (type : string).

Inductive Response :=
| RError (error : string)
| RSuccess
| RSetup (security : string)
| RUnlocked (vault : Vault)
| RSaved (credential : Credential) (security : string)
| RCredentials (credentials : list Credential)
| RStatus (isUnlocked hasVault : bool) (unlockTime autoLockDelay : option Z)
    (credentialCount : nat) (securityLevel : string) (argon2Available : bool)
| RSecurityStatus (argon2Available : bool) (currentSecurity : string)
    (isUnlocked hasVault : bool) (credentialCount : nat)
| RPassword (password : string)
| RRemainingNull
| RRemaining (remaining remainingMinutes remainingSeconds totalSeconds : Z).

(** ** Credential store helpers *)

(** [arr.findIndex(p)], [None] for [-1]. *)
Fixpoint findIndex {A} (p : A → bool) (l : list A) : option nat :=
  match l with
  | [] => None
  | x :: l' => if p x then Some 0%nat else S <$> findIndex p l'
  end.

(** [b.modified || b.created] *)
Definition recency (c : Credential) : option Z :=
  if truthy_num (cred_modified c) then cred_modified c else cred_created c.

(** The comparator [(a, b) => (b.modified || b.created) - (a.modified ||
    a.created)]; a difference with [undefined] is [NaN], which a sort treats
    as [0]. *)
Definition by_recency (a b : Credential) : Z :=
  match recency b, recency a with
  | Some kb, Some ka => kb - ka
  | _, _ => 0
  end.

Fixpoint sort_insert {A} (cmp : A → A → Z) (x : A) (l : list A) : list A :=
  match l with
  | [] => [x]
  | y :: l' => if 0 <? cmp x y then y :: sort_insert cmp x l' else x :: l
  end.

(** [arr.sort(cmp)], as a stable insertion sort (all stable sorts agree when
    the comparator is consistent). *)
Definition sort {A} (cmp : A → A → Z) (l : list A) : list A :=
  foldr (sort_insert cmp) [] l.

Definition set_credentials (l : list Credential) (v : Vault) : Vault :=
  {| credentials := l; created := created v; version := version v;
     security := security v |}.

Definition set_cred_modified (t : option Z) (c : Credential) : Credential :=
  {| cred_id := cred_id c; cred_name := cred_name c;
     cred_domain := cred_domain c; cred_username := cred_username c;
     cred_password := cred_password c; cred_url := cred_url c;
     cred_email := cred_email c; cred_created := cred_created c;
     cred_modified := t |}.

Definition set_cred_domain (d : option string) (c : Credential) : Credential :=
  {| cred_id := cred_id c; cred_name := cred_name c;
     cred_domain := d; cred_username := cred_username c;
     cred_password := cred_password c; cred_url := cred_url c;
     cred_email := cred_email c; cred_created := cred_created c;
     cred_modified := cred_modified c |}.

Definition stamp (id : string) (created modified : Z) (c : Credential)
  : Credential :=
  {| cred_id := Some id; cred_name := cred_name c;
     cred_domain := cred_domain c; cred_username := cred_username c;
     cred_password := cred_password c; cred_url := cred_url c;
     cred_email := cred_email c; cred_created := Some created;
     cred_modified := Some modified |}.

Section Filters.
Context {P : Platform}.

(** The filter of [getCredentials]. *)
Definition matches_domain (domain : string) (cred : Credential) : bool :=
  bool_decide (cred_domain cred = Some domain)
  || (truthy_str (cred_url cred)
      && includes (default "" (cred_url cred)) domain)
  || (truthy_str (cred_name cred)
      && includes (toLowerCase (default "" (cred_name cred)))
                  (toLowerCase domain)).

Definition field_matches (searchTerm : string) (f : option string) : bool :=
  truthy_str f && includes (toLowerCase (default "" f)) searchTerm.

(** The filter of [searchCredentials]. *)
Definition matches_search (searchTerm : string) (cred : Credential) : bool :=
  field_matches searchTerm (cred_name cred)
  || field_matches searchTerm (cred_domain cred)
  || field_matches searchTerm (cred_username cred)
  || field_matches searchTerm (cred_email cred).

End Filters.

(** [!this.isUnlocked || !this.vault] *)
Definition locked_guard (s : Session) : bool :=
  negb (isUnlocked s) || negb (bool_decide (is_Some (vault s))).

Definition security_name (s : Session) : string :=
  if argon2Loaded s then "argon2id" else "enhanced-pbkdf2".

Definition credential_count (s : Session) : nat :=
  match vault s with
  | Some v => List.length (credentials v)
  | None => 0%nat
  end.

(** ** The handlers *)

Section Handlers.
Context {P : Platform}.

(** [lockVault()] *)
Definition lockVault : M Response :=
  modify_this (set_vault None) ;;;
  modify_this (set_masterPassword None) ;;;
  modify_this (set_isUnlocked false) ;;;
  modify_this (set_unlockTime None) ;;;
  let* s := get_this in
  match autoLockTimer s with
  | Some id => clearTimeout id ;;; modify_this (set_autoLockTimer None)
  | None => ret tt
  end ;;;
  notifyContentScripts "VAULT_LOCKED" ;;;
  ret RSuccess.

(** [startAutoLockTimer()] *)
Definition startAutoLockTimer : M unit :=
  let* s := get_this in
  match autoLockTimer s with
  | Some id => clearTimeout id ;;; modify_this (set_autoLockTimer None)
  | None => ret tt
  end ;;;
  let* s := get_this in
  if negb (truthy_num (autoLockDelay s)) then ret tt
  else
    let* now := Date_now in
    modify_this (set_unlockTime (Some now)) ;;;
    let* id := setTimeout (default 0 (autoLockDelay s)) in
    modify_this (set_autoLockTimer (Some id)).

(** [setupVault(masterPassword)] *)
Definition setupVault (masterPassword : option Passphrase) : M Response :=
  try_catch
    (let* now := Date_now in
     let* s := get_this in
     let vaultData :=
       {| credentials := []; created := now; version := "2.0";
          security := security_name s |} in
     let* encrypted := encryptData vaultData masterPassword in
     storage_local_set (put_setup_items encrypted) ;;;
     modify_this (set_vault (Some vaultData)) ;;;
     modify_this (set_masterPassword masterPassword) ;;;
     modify_this (set_isUnlocked true) ;;;
     startAutoLockTimer ;;;
     notifyContentScripts "VAULT_UNLOCKED" ;;;
     ret (RSetup (security vaultData)))
    (fun message => ret (RError message)).

(** [unlockVault(masterPassword)] *)
Definition unlockVault (masterPassword : option Passphrase) : M Response :=
  try_catch
    (let* w := get_world in
     match st_vault (storage w) with
     | None => ret (RError "No vault found")
     | Some stored =>
         let* s := get_this in
         let* vaultData := lift (decryptVault s stored masterPassword) in
         modify_this (set_vault (Some vaultData)) ;;;
         modify_this (set_masterPassword masterPassword) ;;;
         modify_this (set_isUnlocked true) ;;;
         startAutoLockTimer ;;;
         notifyContentScripts "VAULT_UNLOCKED" ;;;
         ret (RUnlocked vaultData)
     end)
    (fun _ => ret (RError "Invalid password")).

(** The body shared by the three mutating handlers once the vault has been
    changed in memory: [encryptData(this.vault, this.masterPassword)] and
    [chrome.storage.local.set({ vault: encrypted })]. *)
Definition persist : M Envelope :=
  let* s := get_this in
  match vault s with
  | None => throw "Cannot read properties of null"
  | Some v =>
      let* encrypted := encryptData v (masterPassword s) in
      storage_local_set (put_vault_item encrypted) ;;;
      ret encrypted
  end.

(** [this.vault.credentials = f(this.vault.credentials)], for the in-place
    [push], [splice] and indexed assignment. *)
Definition update_credentials (f : list Credential → list Credential)
  : M unit :=
  modify_this
    (fun s =>
       match vault s with
       | Some v => set_vault (Some (set_credentials (f (credentials v)) v)) s
       | None => s
       end).

(** [saveCredential(credential)] *)
Definition saveCredential (credential : Credential) : M Response :=
  let* s := get_this in
  if locked_guard s then ret (RError "Vault is locked")
  else
    try_catch
      (let* t := Date_now in
       let* r := Math_random_suffix in
       let id := pretty t +:+ r in
       let* created := Date_now in
       let* modified := Date_now in
       let credential := stamp id created modified credential in
       let credential :=
         if negb (truthy_str (cred_domain credential))
            && truthy_str (cred_url credential)
         then
           match URL_hostname (default "" (cred_url credential)) with
           | Ok host => set_cred_domain (Some host) credential
           | Throw _ => credential
           end
         else credential in
       update_credentials (fun l => l ++ [credential]) ;;;
       let* encrypted := persist in
       let securityMethod :=
         if truthy_str (kdf encrypted) then default "" (kdf encrypted)
         else "legacy" in
       ret (RSaved credential securityMethod))
      (fun message => ret (RError message)).

(** [deleteCredential(credentialId)] *)
Definition deleteCredential (credentialId : string) : M Response :=
  let* s := get_this in
  if locked_guard s then ret (RError "Vault is locked")
  else
    try_catch
      (let* s := get_this in
       let creds := default [] (credentials <$> vault s) in
       match
         findIndex (fun cred => bool_decide (cred_id cred = Some credentialId))
           creds
       with
       | None => ret (RError "Credential not found")
       | Some index =>
           update_credentials (delete index) ;;;
           persist ;;;
           ret RSuccess
       end)
      (fun message => ret (RError message)).

(** [updateCredential(credential)] *)
Definition updateCredential (credential : Credential) : M Response :=
  let* s := get_this in
  if locked_guard s then ret (RError "Vault is locked")
  else
    try_catch
      (let* s := get_this in
       let creds := default [] (credentials <$> vault s) in
       match
         findIndex
           (fun cred => bool_decide (cred_id cred = cred_id credential)) creds
       with
       | None => ret (RError "Credential not found")
       | Some index =>
           let* now := Date_now in
           let credential := set_cred_modified (Some now) credential in
           update_credentials (<[index := credential]>) ;;;
           persist ;;;
           ret RSuccess
       end)
      (fun message => ret (RError message)).

(** [getSecurityStatus()] *)
Definition getSecurityStatus : M Response :=
  let* s := get_this in
  ret (RSecurityStatus (argon2Loaded s) (security_name s) (isUnlocked s)
         (bool_decide (is_Some (vault s))) (credential_count s)).

(** [getStatus()] *)
Definition getStatus : M Response :=
  let* s := get_this in
  ret (RStatus (isUnlocked s) (bool_decide (is_Some (vault s)))
         (unlockTime s) (autoLockDelay s) (credential_count s)
         (security_name s) (argon2Loaded s)).

(** [getCredentials(domain)] *)
Definition getCredentials (domain : string) : M Response :=
  let* s := get_this in
  if locked_guard s then ret (RCredentials [])
  else
    let all := default [] (credentials <$> vault s) in
    let credentials := List.filter (matches_domain domain) all in
    ret (RCredentials (sort by_recency credentials)).

(** [getAllCredentials()] *)
Definition getAllCredentials : M Response :=
  let* s := get_this in
  if locked_guard s then ret (RCredentials [])
  else
    let credentials := default [] (credentials <$> vault s) in
    ret (RCredentials (sort by_recency credentials)).

(** [searchCredentials(query)] *)
Definition searchCredentials (query : string) : M Response :=
  let* s := get_this in
  if locked_guard s || String.eqb query "" then ret (RCredentials [])
  else
    let searchTerm := toLowerCase query in
    let all := default [] (credentials <$> vault s) in
    let credentials := List.filter (matches_search searchTerm) all in
    ret (RCredentials (sort by_recency credentials)).

(** [generatePassword(length, includeSymbols)]: touches neither [this] nor
    the storage. *)
Definition generatePassword (length : Z) (includeSymbols : bool) : M Response :=
  let* w := get_world in
  ret (RPassword (password_text length includeSymbols w)).

(** [updateAutoLock(delay)] *)
Definition updateAutoLock (delay : AutoLockArg) : M Response :=
  modify_this
    (set_autoLockDelay
       match delay with
       | Never => None
       | Delay parsed => parsed
       end) ;;;
  let* s := get_this in
  storage_local_set (put_autoLockDelay_item (autoLockDelay s)) ;;;
  let* s := get_this in
  (if isUnlocked s then startAutoLockTimer else ret tt) ;;;
  ret RSuccess.

(** [getRemainingTime()]: the subtractions and the divisions are those of
    doubles ([%] is exact on them). *)
Definition getRemainingTime : M Response :=
  let* s := get_this in
  if negb (isUnlocked s) || negb (truthy_num (unlockTime s))
     || negb (truthy_num (autoLockDelay s))
  then ret RRemainingNull
  else
    let* now := Date_now in
    let elapsed := Number_sub now (default 0 (unlockTime s)) in
    let remaining :=
      Z.max 0 (Number_sub (default 0 (autoLockDelay s)) elapsed) in
    let totalSeconds := Math_floor_div remaining 1000 in
    let remainingMinutes := Math_floor_div totalSeconds 60 in
    let remainingSeconds := Z.rem totalSeconds 60 in
    ret (RRemaining remaining remainingMinutes remainingSeconds totalSeconds).

(** [openPopup()]: opens the popup or, failing that, a tab. *)
Definition openPopup : M Response := ret RSuccess.

(** [handleMessage(message)] *)
Definition handleMessage (message : Message) : M Response :=
  match message with
  | SETUP_VAULT masterPassword => setupVault masterPassword
  | UNLOCK_VAULT masterPassword => unlockVault masterPassword
  | LOCK_VAULT => lockVault
  | GET_STATUS => getStatus
  | SAVE_CREDENTIAL credential => saveCredential credential
  | GET_CREDENTIALS domain => getCredentials domain
  | DELETE_CREDENTIAL credentialId => deleteCredential credentialId
  | UPDATE_CREDENTIAL credential => updateCredential credential
  | GENERATE_PASSWORD length symbols =>
      generatePassword
        (if truthy_num length then default 0 length else 32)
        (negb (bool_decide (symbols = Some false)))
  | UPDATE_AUTO_LOCK delay => updateAutoLock delay
  | GET_REMAINING_TIME => getRemainingTime
  | OPEN_POPUP => openPopup
  | GET_ALL_CREDENTIALS => getAllCredentials
  | SEARCH_CREDENTIALS query => searchCredentials query
  | GET_SECURITY_STATUS => getSecurityStatus
  | OTHER type => throw ("Unknown message type: " +:+ type)
  end.

(** The listener installed by [init()]: the response sent for a message, and
    the machine afterwards. *)
Definition on_message (message : Message) (m : Machine) : Response * Machine :=
  match handleMessage message m with
  | (Ok response, m') => (response, m')
  | (Throw e, m') => (RError e, m')
  end.

(** A pending timer expires: it leaves the pending set and its callback
    runs [lockVault]. *)
Definition timer_fires (id : positive) (m : Machine) : Machine :=
  match timers (world m) !! id with
  | None => m
  | Some _ =>
      snd (lockVault
             {| this := this m;
                world := set_timers (delete id (timers (world m)))
                           (next_timer (world m)) (world m) |})
  end.

(** The session after [new LockdownBackground()] and [init()]:
    [argon2_ok] is the outcome of [loadArgon2Library()], and
    [loadSettings()] reads the stored delay. *)
Definition initial (argon2_ok : bool) (w : World) : Machine :=
  {| this :=
       {| vault := None;
          isUnlocked := false;
          masterPassword := None;
          autoLockTimer := None;
          autoLockDelay :=
            (let stored := default None (st_autoLockDelay (storage w)) in
             if truthy_num stored then stored else Some (5 * 60 * 1000));
          unlockTime := None;
          argon2Loaded := argon2_ok;
          argon2Params :=
            {| a2_time := 2; a2_mem := 32 * 1024; a2_hashLen := 32;
               a2_parallelism := 1; a2_type := 2 |} |};
     world := w |}.

Inductive Event :=
| Receive (message : Message)
| Fire (id : positive).

Definition step (e : Event) (m : Machine) : Machine :=
  match e with
  | Receive message => snd (on_message message m)
  | Fire id => timer_fires id m
  end.

(** The machine after the events of a list, in order. *)
Definition run (events : list Event) (m : Machine) : Machine :=
  foldl (fun m e => step e m) m events.

End Handlers.

(** ** Properties asked of the platform *)

Section PlatformProperties.
Context {P : Platform}.

(** Decrypting with the key and IV of the encryption gives the data back. *)
Definition aes_gcm_correct : Prop :=
  ∀ key iv data ct,
    aes_gcm_encrypt key iv data = Ok ct → aes_gcm_decrypt key iv ct = Ok data.

(** The tag check rejects every key but the one that encrypted. *)
Definition aes_gcm_authentic : Prop :=
  ∀ k1 k2 iv data ct,
    aes_gcm_encrypt k1 iv data = Ok ct → k2 ≠ k1 →
    is_Ok (aes_gcm_decrypt k2 iv ct) = false.

(** Two encryptions of the same data under different IVs differ. *)
Definition aes_gcm_nonce_binding : Prop :=
  ∀ k1 k2 iv1 iv2 data c1 c2,
    aes_gcm_encrypt k1 iv1 data = Ok c1 →
    aes_gcm_encrypt k2 iv2 data = Ok c2 →
    iv1 ≠ iv2 → c1 ≠ c2.

(** Different passphrases derive different keys (same salt, same cost). *)
Definition pbkdf2_separates : Prop :=
  ∀ h pw1 pw2 salt n k1 k2,
    pw1 ≠ pw2 →
    pbkdf2_deriveKey h pw1 salt n = Ok k1 →
    pbkdf2_deriveKey h pw2 salt n = Ok k2 →
    k1 ≠ k2.

Definition argon2_separates : Prop :=
  ∀ (pw1 pw2 : string) salt t m p l k1 k2,
    pw1 ≠ pw2 →
    argon2_hash (Some (Text pw1)) salt t m p l = Ok k1 →
    argon2_hash (Some (Text pw2)) salt t m p l = Ok k2 →
    k1 ≠ k2.

(** The lower-case form of a text is empty only when the text is. *)
Definition toLowerCase_keeps_text : Prop :=
  ∀ s, toLowerCase s = "" ↔ s = "".

(** [JSON.parse(JSON.stringify(v))] is [v] again. *)
Definition JSON_serializable (v : Vault) : Prop :=
  JSON_parse (JSON_stringify v) = Ok v.

End PlatformProperties.

(** ** Session phases *)

(** The session holds a decrypted vault and says so. *)
Definition unlocked (s : Session) : Prop :=
  isUnlocked s = true ∧ is_Some (vault s).

(** Nothing decrypted is held. *)
Definition locked (s : Session) : Prop :=
  isUnlocked s = false ∧ vault s = None ∧ masterPassword s = None.

(** Coherence as the design document states it: [isUnlocked] holds exactly
    when both the vault and the master password are held. *)
Definition doc_coherent (s : Session) : Prop :=
  isUnlocked s = true ↔ is_Some (vault s) ∧ is_Some (masterPassword s).

(** The session is locked, or it is unlocked on a vault and its master
    password is of the kind [Q]. *)
Definition settled_with (Q : option Passphrase → Prop) (s : Session) : Prop :=
  locked s
  ∨ (isUnlocked s = true ∧ is_Some (vault s) ∧ Q (masterPassword s)).

(** How a handler may move the three fields: it keeps the flag and the
    password and keeps a vault where there was one; or it ends unlocked on a
    vault with a master password of the kind [Q]; or it ends locked. *)
Definition secrets_step (Q : option Passphrase → Prop) (s s' : Session)
  : Prop :=
  (isUnlocked s' = isUnlocked s
   ∧ masterPassword s' = masterPassword s
   ∧ (is_Some (vault s') ↔ is_Some (vault s)))
  ∨ (isUnlocked s' = true ∧ is_Some (vault s') ∧ Q (masterPassword s'))
  ∨ locked s'.

(** The master password that a message carries, if its type is one that
    carries any, is of the kind [Q]. *)
Definition carries (Q : option Passphrase → Prop) (message : Message) : Prop :=
  match message with
  | SETUP_VAULT masterPassword | UNLOCK_VAULT masterPassword =>
      Q masterPassword
  | _ => True
  end.

Definition event_carries (Q : option Passphrase → Prop) (e : Event) : Prop :=
  match e with
  | Receive message => carries Q message
  | Fire _ => True
  end.

(** The master password is a string. *)
Definition is_text (password : option Passphrase) : Prop :=
  ∃ s, password = Some (Text s).

(** ** What the design document asks, in its own words *)

(** The domain test of [findByDomain] as the document words it: equal
    domain, or url containing the domain, or name containing it without
    regard to case. *)
Definition doc_matches_domain {P : Platform} (domain : string)
    (cred : Credential) : Prop :=
  cred_domain cred = Some domain
  ∨ (∃ u, cred_url cred = Some u ∧ includes u domain = true)
  ∨ (∃ n, cred_name cred = Some n
          ∧ includes (toLowerCase n) (toLowerCase domain) = true).

(** [update] as the document words it: the supplied fields are merged into
    the existing credential, [modified] becomes the current time, and [id],
    [created] and the fields not supplied stay. *)
Definition doc_merge (old fields : Credential) (now : Z) : Credential :=
  {| cred_id := cred_id old;
     cred_name := from_option Some (cred_name old) (cred_name fields);
     cred_domain := from_option Some (cred_domain old) (cred_domain fields);
     cred_username :=
       from_option Some (cred_username old) (cred_username fields);
     cred_password :=
       from_option Some (cred_password old) (cred_password fields);
     cred_url := from_option Some (cred_url old) (cred_url fields);
     cred_email := from_option Some (cred_email old) (cred_email fields);
     cred_created := cred_created old;
     cred_modified := Some now |}.

(** ** A small platform on which everything computes

    Keys are the passphrase followed by the salt; a ciphertext is the key,
    framed by its length in unary, then the IV, then the data, and opening
    it checks that header. *)

Module Small.

#[local] Instance byte_eq_dec : EqDecision byte := Byte.byte_eq_dec.

(** Serialization: a vault is flattened into a list of texts, its own
    fields first and then nine per credential; a text is written with a
    ["1"] before each of its characters and a ["0"] at its end. *)

Fixpoint pos_bits (p : positive) : string :=
  match p with
  | xH => EmptyString
  | xO p => String "0" (pos_bits p)
  | xI p => String "1" (pos_bits p)
  end.

Fixpoint bits_pos (s : string) : positive :=
  match s with
  | EmptyString => xH
  | String c s' =>
      if Ascii.eqb c "0" then xO (bits_pos s') else xI (bits_pos s')
  end.

Definition Z_text (z : Z) : string :=
  match z with
  | Z0 => "0"
  | Zpos p => String "+" (pos_bits p)
  | Zneg p => String "-" (pos_bits p)
  end.

Definition text_Z (s : string) : Z :=
  match s with
  | EmptyString => 0
  | String c s' =>
      if Ascii.eqb c "+" then Zpos (bits_pos s')
      else if Ascii.eqb c "-" then Zneg (bits_pos s')
      else 0
  end.

Definition opt_text (o : option string) : string :=
  match o with
  | Some s => String "S" s
  | None => "N"
  end.

Definition text_opt (s : string) : option string :=
  match s with
  | EmptyString => None
  | String c s' => if Ascii.eqb c "S" then Some s' else None
  end.

Definition cred_texts (c : Credential) : list string :=
  [opt_text (cred_id c); opt_text (cred_name c); opt_text (cred_domain c);
   opt_text (cred_username c); opt_text (cred_password c);
   opt_text (cred_url c); opt_text (cred_email c);
   opt_text (Z_text <$> cred_created c);
   opt_text (Z_text <$> cred_modified c)].

Fixpoint texts_creds (l : list string) : option (list Credential) :=
  match l with
  | [] => Some []
  | i :: n :: d :: u :: p :: r :: e :: c :: m :: l' =>
      cons {| cred_id := text_opt i; cred_name := text_opt n;
              cred_domain := text_opt d; cred_username := text_opt u;
              cred_password := text_opt p; cred_url := text_opt r;
              cred_email := text_opt e;
              cred_created := text_Z <$> text_opt c;
              cred_modified := text_Z <$> text_opt m |}
        <$> texts_creds l'
  | _ => None
  end.

Definition vault_texts (v : Vault) : list string :=
  Z_text (created v) :: version v :: security v
  :: concat (map cred_texts (credentials v)).

Definition texts_vault (l : list string) : option Vault :=
  match l with
  | t :: v :: s :: l' =>
      (fun c => {| credentials := c; created := text_Z t; version := v;
                   security := s |}) <$> texts_creds l'
  | _ => None
  end.

Fixpoint write_text (a rest : string) : string :=
  match a with
  | EmptyString => String "0" rest
  | String c a' => String "1" (String c (write_text a' rest))
  end.

Fixpoint read_texts (s : string) : list string :=
  match s with
  | EmptyString => []
  | String k s1 =>
      if Ascii.eqb k "0" then EmptyString :: read_texts s1
      else
        match s1 with
        | EmptyString => []
        | String c s2 =>
            match read_texts s2 with
            | a :: l => String c a :: l
            | [] => []
            end
        end
  end.

Definition stringify (v : Vault) : string :=
  foldr write_text EmptyString (vault_texts v).

Definition parse (s : string) : result Vault :=
  match texts_vault (read_texts s) with
  | Some v => Ok v
  | None => Throw "Unexpected token"
  end.

Definition derive (pw salt : bytes) (n : option Z) : result bytes :=
  match n with
  | Some n => if 0 <? n then Ok (pw ++ salt) else Throw "OperationError"
  | None => Throw "TypeError"
  end.

Definition frame (key : bytes) : bytes :=
  repeat x01 (List.length key) ++ x00 :: key.

Definition seal (key iv data : bytes) : result bytes :=
  Ok (frame key ++ iv ++ data).

Definition unseal (key iv ct : bytes) : result bytes :=
  let header := frame key ++ iv in
  if bool_decide (take (List.length header) ct = header)
  then Ok (drop (List.length header) ct)
  else Throw "OperationError".

Definition lower_ascii (c : ascii) : ascii :=
  let n := nat_of_ascii c in
  if (Nat.leb 65 n && Nat.leb n 90)%bool then ascii_of_nat (n + 32) else c.

(** The second byte of an accented capital of Latin-1 ([À] to [Þ], but
    not [×]), whose first byte in UTF-8 is [C3]. *)
Definition latin1_capital (d : ascii) : bool :=
  let n := nat_of_ascii d in
  (Nat.leb 128 n && Nat.leb n 158 && negb (Nat.eqb n 151))%bool.

(** Lower case on the letters [A] to [Z] and on the accented capitals of
    Latin-1, in UTF-8. *)
Fixpoint lower (s : string) : string :=
  match s with
  | EmptyString => EmptyString
  | String c s' =>
      match s' with
      | String d s'' =>
          if (Nat.eqb (nat_of_ascii c) 195 && latin1_capital d)%bool
          then String c (String (ascii_of_nat (nat_of_ascii d + 32))
                           (lower s''))
          else String (lower_ascii c) (lower s')
      | EmptyString => String (lower_ascii c) EmptyString
      end
  end.

(** Argon2 for strings only, as a library that wants a string would have
    it. *)
Definition hash (pass : option Passphrase) (salt : bytes) : result bytes :=
  match pass with
  | Some (Text s) => Ok (TextEncoder_encode s ++ salt)
  | _ => Throw "TypeError"
  end.

Definition hostname (u : string) : result string :=
  if String.prefix "https://" u
  then Ok (String.substring 8 (String.length u - 8) u)
  else Throw "Invalid URL".

Definition platform : Platform :=
  {| pbkdf2_deriveKey := fun _ pw salt n => derive pw salt n;
     argon2_hash := fun pass salt _ _ _ _ => hash pass salt;
     aes_gcm_encrypt := seal;
     aes_gcm_decrypt := unseal;
     JSON_stringify := stringify;
     JSON_parse := parse;
     URL_hostname := hostname;
     toLowerCase := lower;
     password_text := fun _ _ _ => "" |}.

(** Sample inputs. *)

Definition empty_storage : Storage :=
  {| st_vault := None; st_setupCompleted := false; st_autoLockDelay := None |}.

(** A world whose random source gives the byte [b] at every position and
    whose clock reads 1000, 1001, ... *)
Definition sample_world (b : byte) : World :=
  {| storage := empty_storage;
     storage_fault := None;
     rand_tape := fun _ => b;
     rand_pos := 0;
     clock_tape := fun n => 1000 + Z.of_nat n;
     clock_pos := 0;
     mathrandom_tape := fun _ => "k3j9x0q2a";
     mathrandom_pos := 0;
     timers := ∅;
     next_timer := 1%positive;
     notifications := [] |}.

Definition gmail : Credential :=
  {| cred_id := Some "1";
     cred_name := Some "Gmail";
     cred_domain := Some "gmail.com";
     cred_username := Some "a@b.com";
     cred_password := Some "x";
     cred_url := Some "https://gmail.com";
     cred_email := None;
     cred_created := Some 100;
     cred_modified := Some 100 |}.

Definition sample_vault : Vault :=
  {| credentials := [gmail]; created := 50; version := "2.0";
     security := "enhanced-pbkdf2" |}.

(** The machine after start-up, over [sample_world b]. *)
Definition fresh (argon2_ok : bool) (b : byte) : Machine :=
  initial argon2_ok (sample_world b).

(** The machine once [setupVault "Secret123!"] has run. *)
Definition after_setup (argon2_ok : bool) (b : byte) : Machine :=
  snd (on_message (P := platform) (SETUP_VAULT (Some (Text "Secret123!")))
         (fresh argon2_ok b)).

(** ... and once a credential has been saved. *)
Definition with_gmail (argon2_ok : bool) (b : byte) : Machine :=
  snd (on_message (P := platform) (SAVE_CREDENTIAL gmail)
         (after_setup argon2_ok b)).

(** ... and once the vault has been locked again. *)
Definition relocked (argon2_ok : bool) (b : byte) : Machine :=
  snd (on_message (P := platform) LOCK_VAULT (with_gmail argon2_ok b)).

(** The credential of [with_gmail] as it is stored. *)
Definition gmail_saved : Credential := stamp "1002k3j9x0q2a" 1003 1004 gmail.

(** An update that supplies the id and a new password, nothing else. *)
Definition password_change : Credential :=
  {| cred_id := Some "1002k3j9x0q2a";
     cred_name := None;
     cred_domain := None;
     cred_username := None;
     cred_password := Some "y";
     cred_url := None;
     cred_email := None;
     cred_created := None;
     cred_modified := None |}.

(** A credential whose name and url are the empty text, and the machine in
    which it has been saved. *)
Definition blank : Credential :=
  {| cred_id := None;
     cred_name := Some "";
     cred_domain := Some "example.com";
     cred_username := Some "u";
     cred_password := Some "p";
     cred_url := Some "";
     cred_email := None;
     cred_created := None;
     cred_modified := None |}.

Definition blank_saved : Credential := stamp "1002k3j9x0q2a" 1003 1004 blank.

(** A credential with an accented capital in its name, and the machine in
    which it has been saved. *)
Definition ecole : Credential :=
  {| cred_id := None;
     cred_name := Some "École";
     cred_domain := Some "ent.example";
     cred_username := Some "u";
     cred_password := Some "p";
     cred_url := None;
     cred_email := None;
     cred_created := None;
     cred_modified := None |}.

Definition ecole_saved : Credential := stamp "1002k3j9x0q2a" 1003 1004 ecole.

Definition with_blank : Machine :=
  snd (on_message (P := platform) (SAVE_CREDENTIAL blank)
         (after_setup false "000")).

Definition with_ecole : Machine :=
  snd (on_message (P := platform) (SAVE_CREDENTIAL ecole)
         (after_setup false "000")).

(** The PBKDF2 encryptor run on the sample vault at start-up; the envelope
    it returns; and a locked machine whose storage holds an envelope. *)
Definition sealed_sample (b : byte) : result Envelope * Machine :=
  encryptDataWithEnhancedPBKDF2 (P := platform) sample_vault
    (Some (Text "Secret123!")) (fresh false b).

Definition no_envelope : Envelope :=
  {| encrypted := []; salt := []; iv := []; env_version := "";
     kdf := None; kdfParams := None |}.

Definition envelope_of (r : result Envelope * Machine) : Envelope :=
  match fst r with
  | Ok e => e
  | Throw _ => no_envelope
  end.

Definition sample_envelope : Envelope := envelope_of (sealed_sample "000").

Definition legacy_sample : result Envelope * Machine :=
  legacy_encryptData (P := platform) sample_vault
    (Some (Text "Secret123!")) (fresh false "000").

Definition locked_with (e : Envelope) : Machine :=
  {| this := this (fresh false "000");
     world := set_storage (put_setup_items e empty_storage)
                (sample_world "000") |}.

End Small.

(** ** Envelopes and their writers *)

Section Writers.
Context {P : Platform}.

(** [e] holds [data] encrypted under [key], with salt [salt0] and IV
    [iv0]. *)
Definition seals (key salt0 iv0 : bytes) (data : Vault) (e : Envelope) : Prop :=
  ∃ ct,
    aes_gcm_encrypt key iv0 (TextEncoder_encode (JSON_stringify data)) = Ok ct
    ∧ encrypted e = Array_from ct
    ∧ salt e = Array_from salt0
    ∧ iv e = Array_from iv0.

(** The three shapes of envelope the encryptors write. *)
Inductive written (data : Vault) (password : option Passphrase)
    (salt0 iv0 : bytes) (e : Envelope) : Prop :=
| written_pbkdf2 key :
    pbkdf2_deriveKey SHA_256 (TextEncoder_encode (encoded_text password))
      salt0 (Some 250000) = Ok key →
    seals key salt0 iv0 data e →
    kdf e = Some "enhanced-pbkdf2" →
    (∃ p, kdfParams e = Some p ∧ kp_iterations p = Some 250000) →
    written data password salt0 iv0 e
| written_argon2 key t m p l :
    argon2_hash password salt0 t m p l = Ok key →
    seals key salt0 iv0 data e →
    kdf e = Some "argon2id" →
    (∃ q, kdfParams e = Some q ∧ kp_time q = t ∧ kp_memory q = m
          ∧ kp_parallelism q = p ∧ kp_hashLen q = l) →
    written data password salt0 iv0 e
| written_legacy key :
    pbkdf2_deriveKey SHA_256 (TextEncoder_encode (encoded_text password))
      salt0 (Some 100000) = Ok key →
    seals key salt0 iv0 data e →
    kdf e = None →
    written data password salt0 iv0 e.

(** [e] is an envelope that one of the encryptors of the script, of this or
    of the earlier revision, returned for the passphrase [password]. *)
Definition produced_under (password : string) (e : Envelope) : Prop :=
  ∃ data m m',
    encryptData data (Some (Text password)) m = (Ok e, m')
    ∨ legacy_encryptData data (Some (Text password)) m = (Ok e, m').

(** The only change an encryptor makes to the machine is the position of
    the random source. *)
Definition only_draws (n : nat) (m m' : Machine) : Prop :=
  m' = {| this := this m;
          world := set_rand_pos (rand_pos (world m) + n) (world m) |}.

(** The last 32 + 12 random bytes read before the machine got to [m]. *)
Definition salt_drawn (m : Machine) : bytes :=
  tape_window (rand_tape (world m)) (rand_pos (world m) - 44) 32.

Definition iv_drawn (m : Machine) : bytes :=
  tape_window (rand_tape (world m)) (rand_pos (world m) - 12) 12.

End Writers.

(** ** Runs of the script, and what they keep *)

(** The session is locked, or it is unlocked and holds both the vault and
    a master password that is a string. *)
Definition settled (s : Session) : Prop := settled_with is_text s.

(** Every pending timer is the one the session holds. *)
Definition timers_held (m : Machine) : Prop :=
  ∀ id, is_Some (timers (world m) !! id) → autoLockTimer (this m) = Some id.

(** [m'] has the pending timers and the held timer of [m]. *)
Definition same_timers (m m' : Machine) : Prop :=
  timers (world m') = timers (world m)
  ∧ next_timer (world m') = next_timer (world m)
  ∧ autoLockTimer (this m') = autoLockTimer (this m).

(** The stored items of [st'] are those of [st], but for the vault. *)
Definition same_settings (st st' : Storage) : Prop :=
  st_setupCompleted st' = st_setupCompleted st
  ∧ st_autoLockDelay st' = st_autoLockDelay st.

(** The credential [saveCredential] stores for [credential] when the clock
    reads [t], [created], [modified] and [Math.random] gives [r]. *)
Definition saved_form {P : Platform} (t : Z) (r : string) (created modified : Z)
    (credential : Credential) : Credential :=
  let stamped := stamp (pretty t +:+ r) created modified credential in
  if negb (truthy_str (cred_domain stamped)) && truthy_str (cred_url stamped)
  then
    match URL_hostname (default "" (cred_url stamped)) with
    | Ok host => set_cred_domain (Some host) stamped
    | Throw _ => stamped
    end
  else stamped.

(** The messages that change the vault. *)
Definition is_mutation (message : Message) : bool :=
  match message with
  | SAVE_CREDENTIAL _ | UPDATE_CREDENTIAL _ | DELETE_CREDENTIAL _ => true
  | _ => false
  end.

(** The answers that report success of a mutation. *)
Definition is_success (r : Response) : bool :=
  match r with
  | RSuccess | RSaved _ _ => true
  | _ => false
  end.

(** The [kdfParams] the two encryptors record. *)
Definition pbkdf2_params (iterations : Z) : KdfParams :=
  {| kp_iterations := Some iterations; kp_time := None; kp_memory := None;
     kp_parallelism := None; kp_hashLen := None |}.

Definition argon2_params (a : Argon2Params) : KdfParams :=
  {| kp_iterations := None; kp_time := Some (a2_time a);
     kp_memory := Some (a2_mem a); kp_parallelism := Some (a2_parallelism a);
     kp_hashLen := Some (a2_hashLen a) |}.

(** More sample machines. *)
Module Scenario.

(** The vault held by [Small.with_gmail false "000"]. *)
Definition gmail_vault : Vault :=
  {| credentials := [Small.gmail_saved]; created := 1000; version := "2.0";
     security := "enhanced-pbkdf2" |}.

Definition unlocked_machine : Machine := Small.with_gmail false "000".

(** A world in which the storage rejects every write. *)
Definition set_storage_fault (e : option string) (w : World) : World :=
  {| storage := storage w; storage_fault := e;
     rand_tape := rand_tape w; rand_pos := rand_pos w;
     clock_tape := clock_tape w; clock_pos := clock_pos w;
     mathrandom_tape := mathrandom_tape w; mathrandom_pos := mathrandom_pos w;
     timers := timers w; next_timer := next_timer w;
     notifications := notifications w |}.

Definition quota_exceeded : Machine :=
  {| this := this unlocked_machine;
     world := set_storage_fault (Some "QUOTA_BYTES quota exceeded")
                (world unlocked_machine) |}.

(** An envelope as a later version might write it: PBKDF2 with 600000
    iterations. *)
Definition stronger_envelope : Envelope :=
  let salt0 := tape_window (fun _ => "007"%byte) 0 32 in
  let iv0 := tape_window (fun _ => "009"%byte) 0 12 in
  let key := TextEncoder_encode "Secret123!" ++ salt0 in
  {| encrypted :=
       Array_from
         (Small.frame key ++ iv0
          ++ TextEncoder_encode (Small.stringify Small.sample_vault));
     salt := Array_from salt0;
     iv := Array_from iv0;
     env_version := "3.0";
     kdf := Some "enhanced-pbkdf2";
     kdfParams := Some (pbkdf2_params 600000) |}.

(** A session unlocked one millisecond ago whose delay is [2^53 + 2]. *)
Definition long_delay : Machine :=
  let m :=
    snd (unlockVault (P := Small.platform) (Some (Text "Secret123!"))
           (Small.locked_with Small.sample_envelope)) in
  {| this := set_autoLockDelay (Some 9007199254740994) (this m);
     world := world m |}.

Definition github : Credential :=
  {| cred_id := None;
     cred_name := Some "GitHub";
     cred_domain := None;
     cred_username := Some "octo";
     cred_password := Some "pw";
     cred_url := Some "https://github.com";
     cred_email := None;
     cred_created := None;
     cred_modified := None |}.

End Scenario.

(** The session holds a timer only while it is unlocked, and no other timer
    is pending. *)
Definition timer_discipline (m : Machine) : Prop :=
  timers_held m
  ∧ (isUnlocked (this m) = false → autoLockTimer (this m) = None).

(** Nothing stored is lost from [st] to [st']: a stored vault stays stored
    (possibly replaced) and [setupCompleted] stays set. *)
Definition storage_kept (st st' : Storage) : Prop :=
  (is_Some (st_vault st) → is_Some (st_vault st'))
  ∧ (st_setupCompleted st = true → st_setupCompleted st' = true).

(** A number that fits a byte. *)
Definition is_byte (z : Z) : Prop := 0 ≤ z < 256.

(** The delay that [updateAutoLock] makes of its argument. *)
Definition delay_of (delay : AutoLockArg) : option Z :=
  match delay with
  | Never => None
  | Delay parsed => parsed
  end.

(** The time by which the listings are ordered, as a number. *)
Definition recency_Z (c : Credential) : Z := default 0 (recency c).

(** Each credential of the list is at least as recent as all that follow
    it. *)
Fixpoint most_recent_first (l : list Credential) : Prop :=
  match l with
  | [] => True
  | a :: l' =>
      Forall (fun b => recency_Z b ≤ recency_Z a) l' ∧ most_recent_first l'
  end.

(** The messages that only ask. *)
Definition is_query (message : Message) : bool :=
  match message with
  | GET_STATUS | GET_CREDENTIALS _ | GENERATE_PASSWORD _ _ | OPEN_POPUP
  | GET_ALL_CREDENTIALS | SEARCH_CREDENTIALS _ | GET_SECURITY_STATUS
  | OTHER _ => true
  | _ => false
  end.

(** ** [generatePassword] and the strength meter of the popup *)

Definition lowercase : string := "abcdefghijklmnopqrstuvwxyz".
Definition uppercase : string := "ABCDEFGHIJKLMNOPQRSTUVWXYZ".
Definition numbers : string := "0123456789".
Definition symbols : string := "!@#$%^&*".

Definition charset (includeSymbols : bool) : string :=
  "abcdefghijklmnopqrstuvwxyzABCDEFGHIJKLMNOPQRSTUVWXYZ0123456789"
  +:+ (if includeSymbols then "!@#$%^&*" else "").

(** [s.charAt(i)], the empty text when [i] is out of range. *)
Definition charAt (s : string) (i : nat) : string :=
  match String.get i s with
  | Some c => String c EmptyString
  | None => EmptyString
  end.

Definition in_range (lo hi : nat) (c : ascii) : bool :=
  (Nat.leb lo (nat_of_ascii c) && Nat.leb (nat_of_ascii c) hi)%bool.

(** [/[a-z]/], [/[A-Z]/] and [/\d/], on one character. *)
Definition is_lower (c : ascii) : bool := in_range 97 122 c.
Definition is_upper (c : ascii) : bool := in_range 65 90 c.
Definition is_digit (c : ascii) : bool := in_range 48 57 c.

(** [re.test(s)] for a class of characters. *)
Definition test (class : ascii → bool) (s : string) : bool :=
  existsb class (list_ascii_of_string s).

Section GeneratePassword.

(** [random_index k n] is [Math.floor(Math.random() * n)] at the [k]-th call
    of [Math.random]; [shuffle] is [split('')], the sort with the comparator
    [() => Math.random() - 0.5], and [join('')]. *)
Variable random_index : nat → nat → nat.
Variable shuffle : string → string.

(** The loop [for (let i = 0; i < remainingLength; i++)]. *)
Fixpoint fill (calls : nat) (charset : string) (count : nat)
    (password : string) : string :=
  match count with
  | O => password
  | S count' =>
      fill (S calls) charset count'
        (password
         +:+ charAt charset (random_index calls (String.length charset)))
  end.

(** The text that [generatePassword(length, includeSymbols)] returns, for a
    whole number [length]. *)
Definition generatePassword_text (length : Z) (includeSymbols : bool)
  : string :=
  let charset := charset includeSymbols in
  let password := EmptyString in
  let password :=
    password
    +:+ charAt lowercase (random_index 0 (String.length lowercase)) in
  let password :=
    password
    +:+ charAt uppercase (random_index 1 (String.length uppercase)) in
  let password :=
    password +:+ charAt numbers (random_index 2 (String.length numbers)) in
  let password :=
    if includeSymbols
    then password
         +:+ charAt symbols (random_index 3 (String.length symbols))
    else password in
  let calls := if includeSymbols then 4%nat else 3%nat in
  let remainingLength := length - Z.of_nat (String.length password) in
  let password := fill calls charset (Z.to_nat remainingLength) password in
  shuffle password.

End GeneratePassword.

(** [updatePasswordStrength(password)] of the popup: the class it gives the
    strength bar. *)
Definition updatePasswordStrength (password : string) : string :=
  if (Nat.leb 12 (String.length password) && test is_upper password
      && test is_lower password && test is_digit password)%bool
  then "strong"
  else if Nat.leb 8 (String.length password) then "medium"
  else "weak".

(** A random source that always gives index 0, and a sort that leaves the
    order as it is: the simplest instances of the two parameters of
    [generatePassword_text]. *)
Definition first_index : nat → nat → nat := λ _ _, 0%nat.
Definition keep_order : string → string := λ s, s.

(** ** Byte and string lemmas *)

Lemma byte_of_Z_to_N (b : byte) : byte_of_Z (Z.of_N (Byte.to_N b)) = b.
Proof.
  unfold byte_of_Z.
  pose proof (Byte.to_N_bounded b) as Hb.
  rewrite Z.mod_small by lia.
  rewrite N2Z.id, Byte.of_to_N. reflexivity.
Qed.

Lemma Uint8Array_of_Array_from (u : bytes) : Uint8Array_of (Array_from u) = u.
Proof.
  unfold Uint8Array_of, Array_from.
  induction u as [|b u IH]; simpl; [reflexivity|].
  rewrite byte_of_Z_to_N. f_equal. exact IH.
Qed.

Lemma Array_from_inj (u v : bytes) : Array_from u = Array_from v → u = v.
Proof.
  intros H. rewrite <- (Uint8Array_of_Array_from u), H.
  apply Uint8Array_of_Array_from.
Qed.

Lemma TextDecoder_TextEncoder (s : string) :
  TextDecoder_decode (TextEncoder_encode s) = s.
Proof. apply string_of_list_byte_of_string. Qed.

Lemma TextEncoder_encode_inj (s t : string) :
  TextEncoder_encode s = TextEncoder_encode t → s = t.
Proof.
  intros H. rewrite <- (TextDecoder_TextEncoder s), H.
  apply TextDecoder_TextEncoder.
Qed.

Lemma tape_window_length tape p n : List.length (tape_window tape p n) = n.
Proof. unfold tape_window. rewrite length_map, length_seq. reflexivity. Qed.

(** ** Arithmetic of doubles on whole numbers *)

Lemma double_safe (z : Z) : safe_integer z → double z = z.
Proof.
  unfold safe_integer, double. intros Hz.
  destruct (Z.abs z <? 2 ^ 53) eqn:Hlt; [reflexivity|].
  apply Z.ltb_ge in Hlt.
  assert (Hcase : z = 2 ^ 53 ∨ z = - 2 ^ 53) by lia.
  destruct Hcase as [-> | ->]; vm_compute; reflexivity.
Qed.

Lemma Number_sub_safe (a b : Z) :
  safe_integer (a - b) → Number_sub a b = a - b.
Proof. apply double_safe. Qed.

Lemma round_half_even_bounds (n d : Z) :
  0 < d → n / d ≤ round_half_even n d ≤ n / d + 1.
Proof.
  intros Hd. unfold round_half_even.
  destruct (2 * (n mod d) <? d); [lia|].
  destruct (d <? 2 * (n mod d)); [lia|].
  destruct (Z.even (n / d)); lia.
Qed.

Lemma round_half_even_up (n d : Z) :
  0 < d → round_half_even n d = n / d + 1 → d ≤ 2 * (n mod d).
Proof.
  intros Hd. unfold round_half_even.
  destruct (2 * (n mod d) <? d) eqn:H1; [lia|].
  apply Z.ltb_ge in H1. intros _. exact H1.
Qed.

Lemma round_half_even_exact (n d : Z) :
  0 < d → n mod d = 0 → round_half_even n d = n / d.
Proof.
  intros Hd Hr. unfold round_half_even. rewrite Hr.
  replace (2 * 0 <? d) with true by (symmetry; apply Z.ltb_lt; lia).
  reflexivity.
Qed.

(** On whole numbers up to [2^53], [Math.floor(a / b)] is the quotient of
    the division with remainder: rounding the quotient to a double never
    reaches the next whole number. *)
Lemma Math_floor_div_safe (a b : Z) :
  0 ≤ a ≤ 2 ^ 53 → 0 < b ≤ 2 ^ 53 → Math_floor_div a b = a / b.
Proof.
  intros Ha Hb. unfold Math_floor_div.
  assert (Hq0 : 0 ≤ a / b) by (apply Z.div_pos; lia).
  pose proof (Z.div_mod a b ltac:(lia)) as Hdm.
  pose proof (Z.mod_pos_bound a b ltac:(lia)) as Hmod.
  destruct (a / b =? 0) eqn:Hz.
  - apply Z.eqb_eq in Hz. rewrite Hz.
    replace ((b - a) * 2 ^ 54 <=? b) with false; [reflexivity|].
    symmetry. apply Z.leb_gt. nia.
  - apply Z.eqb_neq in Hz.
    set (q := a / b) in *. set (k := Z.log2 q).
    assert (Hq : 0 < q) by lia.
    destruct (Z.log2_spec q Hq) as [Hlo Hhi]. fold k in Hlo, Hhi.
    assert (Hk0 : 0 ≤ k) by apply Z.log2_nonneg.
    assert (Hqb : q * b ≤ 2 ^ 53) by nia.
    destruct (0 <=? k - 52) eqn:He.
    + (* the quotient has 53 bits or more: b is 1 or 2 *)
      apply Z.leb_le in He.
      assert (Hp : 2 ^ 52 * 2 ^ (k - 52) = 2 ^ k)
        by (rewrite <- Z.pow_add_r by lia; f_equal; lia).
      assert (Hpe : 0 < 2 ^ (k - 52)) by (apply Z.pow_pos_nonneg; lia).
      assert (Hsmall : b * 2 ^ (k - 52) ≤ 2) by nia.
      assert (Hb12 : b = 1 ∨ b = 2) by nia.
      assert (He01 : 2 ^ (k - 52) = 1 ∨ 2 ^ (k - 52) = 2) by nia.
      destruct Hb12 as [-> | ->].
      * destruct He01 as [He1|He2].
        -- rewrite He1. change (1 * 1) with 1.
           rewrite round_half_even_exact by (try lia; apply Z.mod_1_r).
           lia.
        -- rewrite He2. change (1 * 2) with 2.
           assert (Hk : 2 ^ k = 2 ^ 53) by nia.
           assert (Ha' : a = 2 ^ 53)
             by (unfold q in *; rewrite Z.div_1_r in *; nia).
           clear - Ha'. subst a. vm_compute. reflexivity.
      * assert (He1 : 2 ^ (k - 52) = 1) by nia.
        rewrite He1. change (2 * 1) with 2.
        assert (Ha' : a = 2 ^ 53) by nia.
        clear - Ha'. subst a. vm_compute. reflexivity.
    + (* the usual case: a scaling by s = 2^(52-k) makes the mantissa *)
      apply Z.leb_gt in He.
      replace (- (k - 52)) with (52 - k) by lia.
      set (s := 2 ^ (52 - k)).
      assert (Hs : 2 ≤ s).
      { unfold s. change 2 with (2 ^ 1) at 1.
        apply Z.pow_le_mono_r; lia. }
      assert (Hsk : s * 2 ^ k = 2 ^ 52)
        by (unfold s; rewrite <- Z.pow_add_r by lia; f_equal; lia).
      assert (Hbs : b ≤ 2 * s) by nia.
      set (N := a * s).
      pose proof (Z.div_mod N b ltac:(lia)) as HN.
      pose proof (Z.mod_pos_bound N b ltac:(lia)) as HNmod.
      pose proof (round_half_even_bounds N b ltac:(lia)) as [Hrlo Hrhi].
      pose proof (round_half_even_up N b ltac:(lia)) as Hup.
      set (m := round_half_even N b) in *.
      set (Q := N / b) in *. set (R := N mod b) in *.
      set (rho := a mod b) in *.
      assert (HQlo : q * s ≤ Q).
      { unfold Q. apply Z.div_le_lower_bound; [lia|]. unfold N. nia. }
      assert (HQhi : Q ≤ (q + 1) * s - 1).
      { assert (Q < (q + 1) * s); [|lia].
        unfold Q. apply Z.div_lt_upper_bound; [lia|]. unfold N. nia. }
      assert (Hm : q * s ≤ m < (q + 1) * s).
      { split; [lia|].
        destruct (Z.eq_dec m (Q + 1)) as [Hm1|Hm1]; [|lia].
        specialize (Hup Hm1).
        destruct (Z.eq_dec Q ((q + 1) * s - 1)) as [HQ|HQ]; [|lia].
        exfalso.
        (* then R ≤ b - s, so b ≥ 2 s, so b = 2 s, a = 2^53 and rho = 0 *)
        assert (HR : R ≤ b - s) by (unfold N in HN; nia).
        assert (Hb2 : b = 2 * s) by lia.
        assert (Hrho : rho = 0) by nia.
        assert (HR0 : R = b - s) by lia.
        unfold N in HN. nia. }
      symmetry. apply Z.div_unique with (r := m - q * s). 
      * lia.
      * lia.
Qed.

(** ** What the encryptors return *)

Section EncryptorLemmas.
Context {P : Platform}.

Lemma only_draws_this n m m' : only_draws n m m' → this m' = this m.
Proof. intros ->. reflexivity. Qed.

Lemma only_draws_storage n m m' :
  only_draws n m m' → storage (world m') = storage (world m).
Proof. intros ->. reflexivity. Qed.

Lemma only_draws_tape n m m' :
  only_draws n m m' →
  rand_tape (world m') = rand_tape (world m)
  ∧ rand_pos (world m') = (rand_pos (world m) + n)%nat.
Proof. intros ->. split; reflexivity. Qed.

Lemma only_draws_trans a b m1 m2 m3 :
  only_draws a m1 m2 → only_draws b m2 m3 → only_draws (a + b) m1 m3.
Proof.
  intros -> ->. unfold only_draws, set_rand_pos; simpl.
  do 2 f_equal. lia.
Qed.

Lemma encryptDataWithEnhancedPBKDF2_Ok data password m e m' :
  encryptDataWithEnhancedPBKDF2 data password m = (Ok e, m') →
  only_draws 44 m m'
  ∧ written data password
      (tape_window (rand_tape (world m)) (rand_pos (world m)) 32)
      (tape_window (rand_tape (world m)) (rand_pos (world m) + 32) 12) e.
Proof.
  unfold encryptDataWithEnhancedPBKDF2, bind, getRandomValues, lift, ret.
  simpl.
  destruct (pbkdf2_deriveKey _ _ _ _) as [key|] eqn:Hkey; [|discriminate].
  simpl.
  destruct (aes_gcm_encrypt _ _ _) as [ct|] eqn:Hct; [|discriminate].
  intros [= <- <-]. split.
  - unfold only_draws, set_rand_pos; simpl. do 2 f_equal. lia.
  - eapply written_pbkdf2;
      [exact Hkey | exists ct; auto | reflexivity
      | eexists; split; reflexivity].
Qed.

Lemma written_at_end data password m m' e :
  only_draws 44 m m' →
  written data password
    (tape_window (rand_tape (world m)) (rand_pos (world m)) 32)
    (tape_window (rand_tape (world m)) (rand_pos (world m) + 32) 12) e →
  written data password (salt_drawn m') (iv_drawn m') e.
Proof.
  intros Hd Hw. destruct (only_draws_tape _ _ _ Hd) as [Ht Hp].
  unfold salt_drawn, iv_drawn. rewrite Ht, Hp.
  replace (rand_pos (world m) + 44 - 44)%nat with (rand_pos (world m)) by lia.
  replace (rand_pos (world m) + 44 - 12)%nat
    with (rand_pos (world m) + 32)%nat by lia.
  exact Hw.
Qed.

Lemma encryptDataWithEnhancedPBKDF2_drawn data password m e m' :
  encryptDataWithEnhancedPBKDF2 data password m = (Ok e, m') →
  only_draws 44 m m' ∧ written data password (salt_drawn m') (iv_drawn m') e.
Proof.
  intros H. apply encryptDataWithEnhancedPBKDF2_Ok in H as [Hd Hw].
  split; [exact Hd|]. eapply written_at_end; eauto.
Qed.

(** On the Argon2 path the envelope is the Argon2id one, or, after a failure
    that has already used up random bytes, the PBKDF2 one. *)
Lemma encryptDataWithArgon2_Ok data password m e m' :
  encryptDataWithArgon2 data password m = (Ok e, m') →
  ∃ n, (44 ≤ n)%nat ∧ only_draws n m m'
       ∧ written data password (salt_drawn m') (iv_drawn m') e.
Proof.
  unfold encryptDataWithArgon2, try_catch.
  unfold bind at 1. unfold getRandomValues at 1. simpl.
  unfold bind at 1. unfold get_this at 1. simpl.
  unfold bind at 1. unfold lift at 1. simpl.
  destruct (argon2_hash _ _ _ _ _ _) as [key|] eqn:Hkey.
  - unfold bind at 1. unfold getRandomValues at 1. simpl.
    unfold bind at 1. unfold lift at 1. simpl.
    destruct (aes_gcm_encrypt _ _ _) as [ct|] eqn:Hct.
    + unfold ret. intros [= <- <-].
      set (m1 := {| this := _; world := _ |}).
      assert (Hd : only_draws 44 m m1).
      { unfold only_draws, m1, set_rand_pos; simpl. do 2 f_equal. lia. }
      exists 44%nat. split; [lia|]. split; [exact Hd|].
      eapply written_at_end; [exact Hd|].
      eapply written_argon2;
        [exact Hkey | exists ct; auto | reflexivity
        | eexists; repeat split; reflexivity].
    + intros H. apply encryptDataWithEnhancedPBKDF2_drawn in H as [Hd Hw].
      exists 88%nat. split; [lia|]. split; [|exact Hw].
      eapply (only_draws_trans 44 44); [|exact Hd].
      unfold only_draws, set_rand_pos; simpl. do 2 f_equal. lia.
  - intros H. apply encryptDataWithEnhancedPBKDF2_drawn in H as [Hd Hw].
    exists 76%nat. split; [lia|]. split; [|exact Hw].
    eapply (only_draws_trans 32 44); [|exact Hd].
    unfold only_draws, set_rand_pos; simpl. reflexivity.
Qed.

Lemma encryptData_Ok data password m e m' :
  encryptData data password m = (Ok e, m') →
  ∃ n, (44 ≤ n)%nat ∧ only_draws n m m'
       ∧ written data password (salt_drawn m') (iv_drawn m') e.
Proof.
  unfold encryptData, bind, get_this. simpl.
  destruct (argon2Loaded (this m)).
  - apply encryptDataWithArgon2_Ok.
  - intros H. exists 44%nat. split; [lia|].
    apply encryptDataWithEnhancedPBKDF2_drawn. destruct m; exact H.
Qed.

(** Whatever the outcome, an encryptor changes nothing but the position of
    the random source. *)
Lemma encryptDataWithEnhancedPBKDF2_draws data password m :
  ∃ n, only_draws n m (snd (encryptDataWithEnhancedPBKDF2 data password m)).
Proof.
  unfold encryptDataWithEnhancedPBKDF2, bind, getRandomValues, lift, ret.
  simpl.
  destruct (pbkdf2_deriveKey _ _ _ _) as [key|]; simpl.
  - destruct (aes_gcm_encrypt _ _ _); simpl; exists 44%nat;
      unfold only_draws, set_rand_pos; simpl; do 2 f_equal; lia.
  - exists 32%nat. reflexivity.
Qed.

Lemma encryptData_draws data password m :
  ∃ n, only_draws n m (snd (encryptData data password m)).
Proof.
  unfold encryptData, bind, get_this. simpl.
  destruct (argon2Loaded (this m)).
  - unfold encryptDataWithArgon2, try_catch.
    unfold bind at 1. unfold getRandomValues at 1. simpl.
    unfold bind at 1. unfold get_this at 1. simpl.
    unfold bind at 1. unfold lift at 1. simpl.
    set (m1 := {| this := this m; world := set_rand_pos _ _ |}).
    assert (H1 : only_draws 32 m m1) by reflexivity.
    destruct (argon2_hash _ _ _ _ _ _) as [key|].
    + unfold bind at 1. unfold getRandomValues at 1. simpl.
      unfold bind at 1. unfold lift at 1. simpl.
      set (m2 := {| this := this m;
                    world := set_rand_pos _ (set_rand_pos _ _) |}).
      assert (H2 : only_draws 44 m m2).
      { unfold only_draws, m2, set_rand_pos; simpl. do 2 f_equal. lia. }
      destruct (aes_gcm_encrypt _ _ _) as [ct|].
      * exists 44%nat. exact H2.
      * destruct (encryptDataWithEnhancedPBKDF2_draws data password m2)
          as [n Hn].
        exists (44 + n)%nat. eapply only_draws_trans; eauto.
    + destruct (encryptDataWithEnhancedPBKDF2_draws data password m1)
        as [n Hn].
      exists (32 + n)%nat. eapply only_draws_trans; eauto.
  - destruct m. apply encryptDataWithEnhancedPBKDF2_draws.
Qed.

(** When the key derivation and the encryption succeed on the salt and the
    IV that are next on the random source, the encryptors return the
    envelope made of them, and have read those 44 bytes and no more. *)
Lemma encryptDataWithEnhancedPBKDF2_succeeds data password m key ct :
  let salt0 := tape_window (rand_tape (world m)) (rand_pos (world m)) 32 in
  let iv0 :=
    tape_window (rand_tape (world m)) (rand_pos (world m) + 32) 12 in
  pbkdf2_deriveKey SHA_256 (TextEncoder_encode (encoded_text password))
    salt0 (Some 250000) = Ok key →
  aes_gcm_encrypt key iv0 (TextEncoder_encode (JSON_stringify data))
  = Ok ct →
  ∃ e m',
    encryptDataWithEnhancedPBKDF2 data password m = (Ok e, m')
    ∧ only_draws 44 m m'
    ∧ salt e = Array_from salt0
    ∧ iv e = Array_from iv0
    ∧ encrypted e = Array_from ct
    ∧ kdf e = Some "enhanced-pbkdf2".
Proof.
  intros salt0 iv0 Hkey Hct.
  unfold encryptDataWithEnhancedPBKDF2, bind, getRandomValues, lift, ret.
  simpl. fold salt0. rewrite Hkey. simpl. fold iv0. rewrite Hct.
  eexists _, _. split; [reflexivity|]. split; [|repeat split].
  unfold only_draws, set_rand_pos; simpl. do 2 f_equal. lia.
Qed.

Lemma encryptDataWithArgon2_succeeds data password m key ct :
  let salt0 := tape_window (rand_tape (world m)) (rand_pos (world m)) 32 in
  let iv0 :=
    tape_window (rand_tape (world m)) (rand_pos (world m) + 32) 12 in
  let params := argon2Params (this m) in
  argon2_hash password salt0 (Some (a2_time params)) (Some (a2_mem params))
    (Some (a2_parallelism params)) (Some (a2_hashLen params)) = Ok key →
  aes_gcm_encrypt key iv0 (TextEncoder_encode (JSON_stringify data))
  = Ok ct →
  ∃ e m',
    encryptDataWithArgon2 data password m = (Ok e, m')
    ∧ only_draws 44 m m'
    ∧ salt e = Array_from salt0
    ∧ iv e = Array_from iv0
    ∧ encrypted e = Array_from ct
    ∧ kdf e = Some "argon2id".
Proof.
  intros salt0 iv0 params Hkey Hct.
  unfold encryptDataWithArgon2, try_catch.
  unfold bind at 1. unfold getRandomValues at 1. simpl.
  unfold bind at 1. unfold get_this at 1. simpl.
  unfold bind at 1. unfold lift at 1. simpl.
  fold salt0 params. rewrite Hkey.
  unfold bind at 1. unfold getRandomValues at 1. simpl.
  unfold bind at 1. unfold lift at 1. simpl.
  fold iv0. rewrite Hct. unfold ret.
  eexists _, _. split; [reflexivity|]. split; [|repeat split].
  unfold only_draws, set_rand_pos; simpl. do 2 f_equal. lia.
Qed.

Lemma legacy_encryptData_Ok data password m e m' :
  legacy_encryptData data password m = (Ok e, m') →
  only_draws 28 m m'
  ∧ written data password
      (tape_window (rand_tape (world m)) (rand_pos (world m)) 16)
      (tape_window (rand_tape (world m)) (rand_pos (world m) + 16) 12) e.
Proof.
  unfold legacy_encryptData, bind, getRandomValues, lift, ret.
  simpl.
  destruct (pbkdf2_deriveKey _ _ _ _) as [key|] eqn:Hkey; [|discriminate].
  simpl.
  destruct (aes_gcm_encrypt _ _ _) as [ct|] eqn:Hct; [|discriminate].
  intros [= <- <-]. split.
  - unfold only_draws, set_rand_pos; simpl. do 2 f_equal. lia.
  - eapply written_legacy; [exact Hkey | exists ct; auto | reflexivity].
Qed.

End EncryptorLemmas.

(** ** What the decryptors make of a written envelope *)

Section DecryptorLemmas.
Context {P : Platform}.

Lemma decryptVault_written s data password salt0 iv0 e :
  aes_gcm_correct →
  JSON_serializable data →
  written data password salt0 iv0 e →
  (kdf e = Some "argon2id" → argon2Loaded s = true) →
  decryptVault s e password = Ok data.
Proof.
  intros Haes Hjson Hw Hlib. unfold decryptVault.
  destruct Hw as [key Hkey (ct & Hct & He & Hs & Hi) Hkdf (p & Hp & Hn)
                 |key t m p l Hkey (ct & Hct & He & Hs & Hi) Hkdf
                    (q & Hq & <- & <- & <- & <-)
                 |key Hkey (ct & Hct & He & Hs & Hi) Hkdf];
    rewrite Hkdf; simpl.
  - unfold decryptDataWithEnhancedPBKDF2, params_of. rewrite Hp. simpl.
    rewrite Hn, Hs, Hi, He, !Uint8Array_of_Array_from, Hkey. simpl.
    rewrite (Haes _ _ _ _ Hct). simpl.
    rewrite TextDecoder_TextEncoder. exact Hjson.
  - unfold decryptDataWithArgon2, params_of.
    rewrite (Hlib Hkdf), Hq. simpl.
    rewrite Hs, Hi, He, !Uint8Array_of_Array_from, Hkey. simpl.
    rewrite (Haes _ _ _ _ Hct). simpl.
    rewrite TextDecoder_TextEncoder, Hjson. reflexivity.
  - unfold decryptDataLegacy.
    rewrite Hs, Hi, He, !Uint8Array_of_Array_from, Hkey. simpl.
    rewrite (Haes _ _ _ _ Hct). simpl.
    rewrite TextDecoder_TextEncoder. exact Hjson.
Qed.

Lemma aes_gcm_decrypt_wrong_key k1 k2 iv0 data ct (k : bytes → result Vault) :
  aes_gcm_authentic →
  aes_gcm_encrypt k1 iv0 data = Ok ct →
  k2 ≠ k1 →
  is_Ok (let? d := aes_gcm_decrypt k2 iv0 ct in k d) = false.
Proof.
  intros Hauth Hct Hne. specialize (Hauth _ _ _ _ _ Hct Hne).
  destruct (aes_gcm_decrypt k2 iv0 ct); [discriminate|reflexivity].
Qed.

Lemma decryptVault_wrong_passphrase s data (p1 p2 : string) salt0 iv0 e :
  pbkdf2_separates → argon2_separates → aes_gcm_authentic →
  written data (Some (Text p1)) salt0 iv0 e →
  p2 ≠ p1 →
  is_Ok (decryptVault s e (Some (Text p2))) = false.
Proof.
  intros Hpb Har Hauth Hw Hne. unfold decryptVault.
  assert (Henc : TextEncoder_encode p2 ≠ TextEncoder_encode p1)
    by (intros H; apply Hne, TextEncoder_encode_inj, H).
  destruct Hw as [key Hkey (ct & Hct & He & Hs & Hi) Hkdf (p & Hp & Hn)
                 |key t m p l Hkey (ct & Hct & He & Hs & Hi) Hkdf
                    (q & Hq & <- & <- & <- & <-)
                 |key Hkey (ct & Hct & He & Hs & Hi) Hkdf];
    rewrite Hkdf; cbn [encoded_text] in Hkey; simpl.
  - unfold decryptDataWithEnhancedPBKDF2, params_of. rewrite Hp. simpl.
    rewrite Hn, Hs, Hi, He, !Uint8Array_of_Array_from.
    destruct (pbkdf2_deriveKey SHA_256 (TextEncoder_encode p2) _ _)
      as [k2|] eqn:Hk2; [|reflexivity].
    simpl. eapply aes_gcm_decrypt_wrong_key; eauto.
  - unfold decryptDataWithArgon2, params_of.
    destruct (argon2Loaded s); [|reflexivity]. simpl.
    rewrite Hq. simpl. rewrite Hs, Hi, He, !Uint8Array_of_Array_from.
    destruct (argon2_hash (Some (Text p2)) _ _ _ _ _) as [k2|] eqn:Hk2;
      [|reflexivity].
    simpl.
    assert (Hk : k2 ≠ key) by (eapply Har; eauto).
    pose proof (Hauth _ _ _ _ _ Hct Hk) as Hd.
    destruct (aes_gcm_decrypt k2 _ _); [discriminate|reflexivity].
  - unfold decryptDataLegacy. cbn [encoded_text].
    rewrite Hs, Hi, He, !Uint8Array_of_Array_from.
    destruct (pbkdf2_deriveKey SHA_256 (TextEncoder_encode p2) _ _)
      as [k2|] eqn:Hk2; [|reflexivity].
    simpl. eapply aes_gcm_decrypt_wrong_key; eauto.
Qed.

Lemma encryptDataWithEnhancedPBKDF2_kdf data password m e m' :
  encryptDataWithEnhancedPBKDF2 data password m = (Ok e, m') →
  kdf e = Some "enhanced-pbkdf2".
Proof.
  unfold encryptDataWithEnhancedPBKDF2, bind, getRandomValues, lift, ret.
  simpl.
  destruct (pbkdf2_deriveKey _ _ _ _) as [key|]; [|discriminate]. simpl.
  destruct (aes_gcm_encrypt _ _ _) as [ct|]; [|discriminate].
  intros [= <- _]. reflexivity.
Qed.

Lemma encryptData_argon2id_loaded data password m e m' :
  encryptData data password m = (Ok e, m') →
  kdf e = Some "argon2id" → argon2Loaded (this m) = true.
Proof.
  unfold encryptData, bind, get_this. simpl.
  destruct (argon2Loaded (this m)); [reflexivity|].
  intros H Hk. destruct m as [s w]. simpl in H.
  apply encryptDataWithEnhancedPBKDF2_kdf in H. congruence.
Qed.

End DecryptorLemmas.

(** ** The small platform has the properties asked of a platform *)

Module SmallFacts.
Import Small.

Lemma bits_pos_bits p : bits_pos (pos_bits p) = p.
Proof. induction p as [p IH|p IH|]; simpl; [rewrite IH..|]; reflexivity. Qed.

Lemma text_Z_text z : text_Z (Z_text z) = z.
Proof. destruct z; simpl; [|rewrite bits_pos_bits..]; reflexivity. Qed.

Lemma text_opt_text o : text_opt (opt_text o) = o.
Proof. destruct o; reflexivity. Qed.

Lemma text_opt_Z_text (o : option Z) :
  text_Z <$> text_opt (opt_text (Z_text <$> o)) = o.
Proof.
  rewrite text_opt_text. destruct o; simpl; [rewrite text_Z_text|];
    reflexivity.
Qed.

Lemma texts_creds_texts l :
  texts_creds (concat (map cred_texts l)) = Some l.
Proof.
  induction l as [|c l IH]; [reflexivity|].
  cbn [map concat cred_texts app texts_creds].
  rewrite IH, !text_opt_Z_text, !text_opt_text. destruct c; reflexivity.
Qed.

Lemma texts_vault_texts v : texts_vault (vault_texts v) = Some v.
Proof.
  unfold texts_vault, vault_texts.
  rewrite texts_creds_texts, text_Z_text. destruct v; reflexivity.
Qed.

Lemma read_write_text a rest :
  read_texts (write_text a rest) = a :: read_texts rest.
Proof.
  induction a as [|c a IH]; [reflexivity|].
  cbn [write_text read_texts]. rewrite IH. reflexivity.
Qed.

Lemma read_write_texts l : read_texts (foldr write_text EmptyString l) = l.
Proof.
  induction l as [|a l IH]; [reflexivity|].
  cbn [foldr]. rewrite read_write_text, IH. reflexivity.
Qed.

Lemma parse_stringify v : parse (stringify v) = Ok v.
Proof.
  unfold parse, stringify. rewrite read_write_texts, texts_vault_texts.
  reflexivity.
Qed.

Lemma serializable v : JSON_serializable (P := platform) v.
Proof. apply parse_stringify. Qed.

Lemma unary_prefix_inj n1 n2 (r1 r2 : bytes) :
  repeat x01 n1 ++ x00 :: r1 = repeat x01 n2 ++ x00 :: r2 →
  n1 = n2 ∧ r1 = r2.
Proof.
  revert n2. induction n1 as [|n1 IH]; intros [|n2]; simpl; intros H.
  - injection H as ->. auto.
  - discriminate.
  - discriminate.
  - injection H as H. destruct (IH _ H) as [-> ->]. auto.
Qed.

Lemma frame_inj k1 k2 (r1 r2 : bytes) :
  frame k1 ++ r1 = frame k2 ++ r2 → k1 = k2 ∧ r1 = r2.
Proof.
  unfold frame. rewrite <- !app_assoc. simpl. intros H.
  apply unary_prefix_inj in H as [Hlen H].
  apply app_inj_1 in H; [exact H|exact Hlen].
Qed.

Lemma correct : aes_gcm_correct (P := platform).
Proof.
  intros key iv0 data ct [= <-]. simpl. unfold unseal.
  rewrite (app_assoc (frame key) iv0 data).
  rewrite take_app_length, drop_app_length.
  rewrite bool_decide_true; reflexivity.
Qed.

Lemma authentic : aes_gcm_authentic (P := platform).
Proof.
  intros k1 k2 iv0 data ct [= <-] Hne. simpl. unfold unseal.
  case_bool_decide as Htake; [|reflexivity].
  exfalso. apply Hne.
  pose proof (take_drop (List.length (frame k2 ++ iv0))
                (frame k1 ++ iv0 ++ data)) as Hsplit.
  rewrite Htake, <- app_assoc in Hsplit.
  apply frame_inj in Hsplit as [-> _]. reflexivity.
Qed.

Lemma nonce_binding : aes_gcm_nonce_binding (P := platform).
Proof.
  intros k1 k2 iv1 iv2 data c1 c2 [= <-] [= <-] Hne Heq.
  apply frame_inj in Heq as [_ Heq].
  apply app_inv_tail in Heq. contradiction.
Qed.

Lemma pbkdf2_separating : pbkdf2_separates (P := platform).
Proof.
  intros h pw1 pw2 salt0 n k1 k2 Hne. simpl. unfold derive.
  destruct n as [n|]; [|discriminate].
  destruct (0 <? n); [|discriminate].
  intros [= <-] [= <-] Heq. apply app_inv_tail in Heq. contradiction.
Qed.

Lemma argon2_separating : argon2_separates (P := platform).
Proof.
  intros pw1 pw2 salt0 t m p l k1 k2 Hne. simpl.
  intros [= <-] [= <-] Heq. apply app_inv_tail in Heq.
  apply TextEncoder_encode_inj in Heq. contradiction.
Qed.

Lemma lower_keeps_text : toLowerCase_keeps_text (P := platform).
Proof.
  intros [|c [|d s]]; simpl; split; try reflexivity; try discriminate.
  all: destruct (_ && _); discriminate.
Qed.

End SmallFacts.

(** ** The encryption core *)

(** C1.  Round trip.  On a platform whose AES-GCM decrypts what it encrypted,
    for every vault [V] that [JSON] serializes faithfully and every
    passphrase: if [encryptDataWithEnhancedPBKDF2] returns an envelope, then
    [decryptDataWithEnhancedPBKDF2] on it with the same passphrase returns
    [V]; and if [encryptData] (whichever key derivation it selects) returns
    an envelope, then [decryptVault] of the same session returns [V].  The
    result is equal to [V], so the credentials carry the same ids and the
    same created and modified times. *)
Theorem encrypt_decrypt_roundtrip {P : Platform} (V : Vault)
    (passphrase : string) (m m' : Machine) (e : Envelope) :
  aes_gcm_correct →
  JSON_serializable V →
  (encryptDataWithEnhancedPBKDF2 V (Some (Text passphrase)) m = (Ok e, m') →
   decryptDataWithEnhancedPBKDF2 e (Some (Text passphrase)) = Ok V)
  ∧ (encryptData V (Some (Text passphrase)) m = (Ok e, m') →
     decryptVault (this m) e (Some (Text passphrase)) = Ok V).
Proof.
  intros Haes Hjson. split.
  - intros H.
    pose proof (encryptDataWithEnhancedPBKDF2_kdf _ _ _ _ _ H) as Hkdf.
    apply encryptDataWithEnhancedPBKDF2_Ok in H as [_ Hw].
    pose proof (decryptVault_written (this m) _ _ _ _ _ Haes Hjson Hw) as Hd.
    unfold decryptVault in Hd. rewrite Hkdf in Hd. simpl in Hd.
    apply Hd. discriminate.
  - intros H.
    pose proof (encryptData_argon2id_loaded _ _ _ _ _ H) as Hlib.
    apply encryptData_Ok in H as (n & _ & _ & Hw).
    eapply decryptVault_written; eauto.
Qed.

Lemma encrypt_decrypt_roundtrip_witness :
  decryptDataWithEnhancedPBKDF2 (P := Small.platform) Small.sample_envelope
    (Some (Text "Secret123!")) = Ok Small.sample_vault
  ∧ decryptVault (P := Small.platform) (this (Small.fresh true "000"))
      (Small.envelope_of
         (encryptData (P := Small.platform) Small.sample_vault
            (Some (Text "Secret123!")) (Small.fresh true "000")))
      (Some (Text "Secret123!")) = Ok Small.sample_vault.
Proof.
  assert (H1 : encryptDataWithEnhancedPBKDF2 (P := Small.platform)
                 Small.sample_vault (Some (Text "Secret123!"))
                 (Small.fresh false "000")
               = (Ok Small.sample_envelope, snd (Small.sealed_sample "000")))
    by (vm_compute; reflexivity).
  assert (H2 : encryptData (P := Small.platform) Small.sample_vault
                 (Some (Text "Secret123!")) (Small.fresh true "000")
               = (Ok (Small.envelope_of
                        (encryptData (P := Small.platform) Small.sample_vault
                           (Some (Text "Secret123!"))
                           (Small.fresh true "000"))),
                  snd (encryptData (P := Small.platform) Small.sample_vault
                         (Some (Text "Secret123!"))
                         (Small.fresh true "000"))))
    by (vm_compute; reflexivity).
  split.
  - exact (proj1 (encrypt_decrypt_roundtrip (P := Small.platform) _ _ _ _ _
                    SmallFacts.correct (SmallFacts.serializable _)) H1).
  - exact (proj2 (encrypt_decrypt_roundtrip (P := Small.platform) _ _ _ _ _
                    SmallFacts.correct (SmallFacts.serializable _)) H2).
Defined.

(** C2.  Wrong passphrase.  On a platform whose key derivations separate
    passphrases and whose AES-GCM rejects every key but the encrypting one:
    for every stored envelope that an encryptor of the script returned for
    [p1] and every [p2] different from [p1], [decryptVault] with [p2] throws,
    [unlockVault p2] answers [{error: 'Invalid password'}] and leaves the
    machine as it was; a locked session stays locked. *)
Theorem wrong_passphrase_rejected {P : Platform} (e : Envelope)
    (p1 p2 : string) (m : Machine) :
  pbkdf2_separates → argon2_separates → aes_gcm_authentic →
  produced_under p1 e →
  st_vault (storage (world m)) = Some e →
  p2 ≠ p1 →
  is_Ok (decryptVault (this m) e (Some (Text p2))) = false
  ∧ unlockVault (Some (Text p2)) m = (Ok (RError "Invalid password"), m)
  ∧ on_message (UNLOCK_VAULT (Some (Text p2))) m
    = (RError "Invalid password", m)
  ∧ (locked (this m) →
     locked (this (snd (on_message (UNLOCK_VAULT (Some (Text p2))) m)))).
Proof.
  intros Hpb Har Hauth (data & m0 & m0' & Hprod) Hst Hne.
  assert (Hdec : is_Ok (decryptVault (this m) e (Some (Text p2))) = false).
  { destruct Hprod as [H|H].
    - apply encryptData_Ok in H as (n & _ & _ & Hw).
      eapply decryptVault_wrong_passphrase; eauto.
    - apply legacy_encryptData_Ok in H as [_ Hw].
      eapply decryptVault_wrong_passphrase; eauto. }
  assert (Hun : unlockVault (Some (Text p2)) m
                = (Ok (RError "Invalid password"), m)).
  { unfold unlockVault, try_catch.
    unfold bind at 1. unfold get_world at 1. simpl. rewrite Hst.
    unfold bind at 1. unfold get_this at 1. simpl.
    unfold bind at 1. unfold lift at 1. simpl.
    destruct (decryptVault (this m) e (Some (Text p2))); [discriminate|].
    unfold ret. destruct m; reflexivity. }
  assert (Hon : on_message (UNLOCK_VAULT (Some (Text p2))) m
                = (RError "Invalid password", m)).
  { unfold on_message, handleMessage. rewrite Hun. reflexivity. }
  split; [exact Hdec|]. split; [exact Hun|]. split; [exact Hon|].
  rewrite Hon. simpl. auto.
Qed.

Lemma wrong_passphrase_rejected_witness :
  on_message (P := Small.platform) (UNLOCK_VAULT (Some (Text "wrong")))
    (Small.locked_with Small.sample_envelope)
  = (RError "Invalid password", Small.locked_with Small.sample_envelope)
  ∧ locked (this (snd (on_message (P := Small.platform)
                         (UNLOCK_VAULT (Some (Text "wrong")))
                         (Small.locked_with Small.sample_envelope)))).
Proof.
  assert (Hp : produced_under (P := Small.platform) "Secret123!"
                 Small.sample_envelope).
  { exists Small.sample_vault, (Small.fresh false "000"),
      (snd (Small.sealed_sample "000")).
    left. vm_compute. reflexivity. }
  destruct (wrong_passphrase_rejected (P := Small.platform)
              Small.sample_envelope "Secret123!" "wrong"
              (Small.locked_with Small.sample_envelope)
              SmallFacts.pbkdf2_separating SmallFacts.argon2_separating
              SmallFacts.authentic Hp eq_refl)
    as (_ & _ & Hon & Hl).
  - discriminate.
  - split; [exact Hon|]. apply Hl. repeat split.
Defined.

(** C4.  Legacy envelopes.  For every envelope without a [kdf] field,
    [decryptVault] is [decryptDataLegacy]: one PBKDF2 derivation with
    SHA-256 and 100000 iterations on the stored salt, one AES-GCM decryption
    and [JSON.parse].  Nothing else is tried: the result is the same on any
    platform with the same PBKDF2, AES-GCM decryption and [JSON.parse],
    whatever its Argon2 and whatever the session.  Hence an envelope that
    the encryptor of the earlier revision wrote for a passphrase decrypts,
    with that passphrase, to the vault that was encrypted. *)
Theorem legacy_envelope_decrypts {P : Platform} (s : Session) (e : Envelope)
    (passphrase : string) :
  kdf e = None →
  decryptVault s e (Some (Text passphrase))
  = decryptDataLegacy e (Some (Text passphrase))
  ∧ decryptDataLegacy e (Some (Text passphrase))
    = (let? key :=
         pbkdf2_deriveKey SHA_256 (TextEncoder_encode passphrase)
           (Uint8Array_of (salt e)) (Some 100000) in
       let? decrypted :=
         aes_gcm_decrypt key (Uint8Array_of (iv e))
           (Uint8Array_of (encrypted e)) in
       JSON_parse (TextDecoder_decode decrypted))
  ∧ (∀ (Q : Platform) (s' : Session),
       pbkdf2_deriveKey (Platform := Q) = pbkdf2_deriveKey (Platform := P) →
       aes_gcm_decrypt (Platform := Q) = aes_gcm_decrypt (Platform := P) →
       JSON_parse (Platform := Q) = JSON_parse (Platform := P) →
       decryptVault (P := Q) s' e (Some (Text passphrase))
       = decryptVault s e (Some (Text passphrase)))
  ∧ (∀ V m m',
       aes_gcm_correct → JSON_serializable V →
       legacy_encryptData V (Some (Text passphrase)) m = (Ok e, m') →
       decryptVault s e (Some (Text passphrase)) = Ok V).
Proof.
  intros Hkdf.
  assert (Hdispatch : ∀ (Q : Platform) s',
             decryptVault (P := Q) s' e (Some (Text passphrase))
             = decryptDataLegacy (P := Q) e (Some (Text passphrase))).
  { intros Q s'. unfold decryptVault. rewrite Hkdf. reflexivity. }
  split; [apply Hdispatch|]. split; [reflexivity|]. split.
  - intros Q s' Hpb Hdec Hparse. rewrite !Hdispatch.
    unfold decryptDataLegacy. rewrite Hpb, Hdec, Hparse. reflexivity.
  - intros V m m' Haes Hjson H.
    apply legacy_encryptData_Ok in H as [_ Hw].
    eapply decryptVault_written; eauto. rewrite Hkdf. discriminate.
Qed.

Lemma legacy_envelope_decrypts_witness :
  kdf (Small.envelope_of Small.legacy_sample) = None
  ∧ decryptVault (P := Small.platform) (this (Small.fresh true "000"))
      (Small.envelope_of Small.legacy_sample) (Some (Text "Secret123!"))
    = Ok Small.sample_vault.
Proof.
  assert (Hk : kdf (Small.envelope_of Small.legacy_sample) = None)
    by reflexivity.
  assert (He : legacy_encryptData (P := Small.platform) Small.sample_vault
                 (Some (Text "Secret123!")) (Small.fresh false "000")
               = (Ok (Small.envelope_of Small.legacy_sample),
                  snd Small.legacy_sample))
    by (vm_compute; reflexivity).
  split; [exact Hk|].
  exact (proj2 (proj2 (proj2
           (legacy_envelope_decrypts (P := Small.platform)
              (this (Small.fresh true "000")) _ "Secret123!" Hk)))
           _ _ _ SmallFacts.correct (SmallFacts.serializable _) He).
Defined.

Lemma written_fields {P : Platform} data password salt0 iv0 e :
  written data password salt0 iv0 e →
  salt e = Array_from salt0 ∧ iv e = Array_from iv0
  ∧ ∃ key ct,
      aes_gcm_encrypt key iv0 (TextEncoder_encode (JSON_stringify data))
      = Ok ct
      ∧ encrypted e = Array_from ct.
Proof.
  intros [key _ (ct & Hct & He & Hs & Hi) _ _
         |key t m p l _ (ct & Hct & He & Hs & Hi) _ _
         |key _ (ct & Hct & He & Hs & Hi) _];
    (split; [exact Hs|]; split; [exact Hi|]; exists key, ct; auto).
Qed.

(** C5.  Fresh salt and nonce.  Each of the two encryptors reads its salt
    and its IV from the random source inside the call: when the key
    derivation and the AES-GCM encryption succeed on the 32 and 12 bytes
    that are next on the random source, the encryptor returns an envelope
    whose salt and IV are exactly those bytes, and has read those 44 bytes
    and no more; nothing of the session or of the storage enters them.
    Whenever [encryptData] returns an envelope (after a fallback too), its
    salt and IV are the last 32 and 12 bytes of the at least 44 that the
    call read.  So for two encryptions of the same vault with the same
    passphrase: if the salts drawn differ, so do the salts of the envelopes;
    if the IVs drawn differ, so do the IVs and, on a platform whose AES-GCM
    gives different ciphertexts under different IVs, the ciphertexts. *)
Theorem fresh_salt_and_nonce {P : Platform} (V : Vault) (passphrase : string) :
  let password := Some (Text passphrase) in
  let data := TextEncoder_encode (JSON_stringify V) in
  let salt_next m :=
    tape_window (rand_tape (world m)) (rand_pos (world m)) 32 in
  let iv_next m :=
    tape_window (rand_tape (world m)) (rand_pos (world m) + 32) 12 in
  (∀ m key ct,
     pbkdf2_deriveKey SHA_256 (TextEncoder_encode passphrase) (salt_next m)
       (Some 250000) = Ok key →
     aes_gcm_encrypt key (iv_next m) data = Ok ct →
     ∃ e m',
       encryptDataWithEnhancedPBKDF2 V password m = (Ok e, m')
       ∧ only_draws 44 m m'
       ∧ salt e = Array_from (salt_next m)
       ∧ iv e = Array_from (iv_next m)
       ∧ encrypted e = Array_from ct)
  ∧ (∀ m key ct,
       argon2_hash password (salt_next m)
         (Some (a2_time (argon2Params (this m))))
         (Some (a2_mem (argon2Params (this m))))
         (Some (a2_parallelism (argon2Params (this m))))
         (Some (a2_hashLen (argon2Params (this m)))) = Ok key →
       aes_gcm_encrypt key (iv_next m) data = Ok ct →
       ∃ e m',
         encryptDataWithArgon2 V password m = (Ok e, m')
         ∧ only_draws 44 m m'
         ∧ salt e = Array_from (salt_next m)
         ∧ iv e = Array_from (iv_next m)
         ∧ encrypted e = Array_from ct)
  ∧ (∀ m1 m2 m1' m2' e1 e2,
       encryptData V password m1 = (Ok e1, m1') →
       encryptData V password m2 = (Ok e2, m2') →
       (rand_pos (world m1) + 44 ≤ rand_pos (world m1'))%nat
       ∧ rand_tape (world m1') = rand_tape (world m1)
       ∧ salt e1 = Array_from (salt_drawn m1')
       ∧ iv e1 = Array_from (iv_drawn m1')
       ∧ (salt_drawn m1' ≠ salt_drawn m2' → salt e1 ≠ salt e2)
       ∧ (iv_drawn m1' ≠ iv_drawn m2' → iv e1 ≠ iv e2)
       ∧ (aes_gcm_nonce_binding →
          iv_drawn m1' ≠ iv_drawn m2' → encrypted e1 ≠ encrypted e2)).
Proof.
  intros password data salt_next iv_next. split; [|split].
  - intros m key ct Hkey Hct.
    destruct (encryptDataWithEnhancedPBKDF2_succeeds V password m key ct
                Hkey Hct) as (e & m' & He & Hd & Hs & Hi & Hc & _).
    exists e, m'. auto.
  - intros m key ct Hkey Hct.
    destruct (encryptDataWithArgon2_succeeds V password m key ct Hkey Hct)
      as (e & m' & He & Hd & Hs & Hi & Hc & _).
    exists e, m'. auto.
  - intros m1 m2 m1' m2' e1 e2 H1 H2.
    apply encryptData_Ok in H1 as (n1 & Hn1 & Hd1 & Hw1).
    apply encryptData_Ok in H2 as (n2 & Hn2 & Hd2 & Hw2).
    destruct (only_draws_tape _ _ _ Hd1) as [Ht1 Hp1].
    apply written_fields in Hw1 as (Hs1 & Hi1 & k1 & c1 & Hc1 & He1).
    apply written_fields in Hw2 as (Hs2 & Hi2 & k2 & c2 & Hc2 & He2).
    split; [lia|]. split; [exact Ht1|]. split; [exact Hs1|].
    split; [exact Hi1|]. split; [|split].
    + intros Hne Heq. rewrite Hs1, Hs2 in Heq.
      apply Array_from_inj in Heq. contradiction.
    + intros Hne Heq. rewrite Hi1, Hi2 in Heq.
      apply Array_from_inj in Heq. contradiction.
    + intros Hnb Hne Heq. rewrite He1, He2 in Heq.
      apply Array_from_inj in Heq.
      exact (Hnb _ _ _ _ _ _ _ Hc1 Hc2 Hne Heq).
Qed.

(** Two runs of the Argon2id encryptor on random sources that differ. *)
Lemma fresh_salt_and_nonce_witness :
  let run b :=
    encryptData (P := Small.platform) Small.sample_vault
      (Some (Text "Secret123!")) (Small.fresh true b) in
  let e1 := Small.envelope_of (run "000"%byte) in
  let e2 := Small.envelope_of (run "001"%byte) in
  (∃ e m',
     encryptDataWithArgon2 (P := Small.platform) Small.sample_vault
       (Some (Text "Secret123!")) (Small.fresh true "000")
     = (Ok e, m')
     ∧ only_draws 44 (Small.fresh true "000") m')
  ∧ kdf e1 = Some "argon2id"
  ∧ salt e1 ≠ salt e2
  ∧ iv e1 ≠ iv e2
  ∧ encrypted e1 ≠ encrypted e2.
Proof.
  intros run e1 e2.
  pose proof (fresh_salt_and_nonce (P := Small.platform) Small.sample_vault
                "Secret123!") as (_ & Hargon & Htwo).
  assert (H1 : run "000"%byte = (Ok e1, snd (run "000"%byte)))
    by (vm_compute; reflexivity).
  assert (H2 : run "001"%byte = (Ok e2, snd (run "001"%byte)))
    by (vm_compute; reflexivity).
  destruct (Htwo _ _ _ _ _ _ H1 H2) as (_ & _ & _ & _ & Hs & Hi & Hc).
  split; [|split; [|split; [|split]]].
  - destruct (Hargon (Small.fresh true "000")
                (TextEncoder_encode "Secret123!"
                 ++ tape_window (fun _ => "000"%byte) 0 32)
                (Small.frame
                   (TextEncoder_encode "Secret123!"
                    ++ tape_window (fun _ => "000"%byte) 0 32)
                 ++ tape_window (fun _ => "000"%byte) 32 12
                 ++ TextEncoder_encode
                      (Small.stringify Small.sample_vault)))
      as (e & m' & He & Hd & _).
    + vm_compute. reflexivity.
    + vm_compute. reflexivity.
    + exists e, m'. split; [exact He|exact Hd].
  - vm_compute. reflexivity.
  - apply Hs. vm_compute. discriminate.
  - apply Hi. vm_compute. discriminate.
  - apply Hc; [exact SmallFacts.nonce_binding|]. vm_compute. discriminate.
Defined.

(** ** The session state machine *)

(** C6.  Lock.  From every machine, [lockVault] answers [{success: true}]
    and leaves the session locked: [vault], [masterPassword] and
    [unlockTime] are [null], [isUnlocked] is false, [autoLockTimer] is
    [null] and the timer it held is no longer pending.  A second call
    answers [{success: true}] again and leaves the session, the pending
    timers and the storage exactly as the first call left them. *)
Theorem lockVault_idempotent {P : Platform} (m : Machine) :
  let m1 := snd (lockVault m) in
  let m2 := snd (lockVault m1) in
  fst (lockVault m) = Ok RSuccess
  ∧ fst (lockVault m1) = Ok RSuccess
  ∧ on_message LOCK_VAULT m = (RSuccess, m1)
  ∧ locked (this m1)
  ∧ unlockTime (this m1) = None
  ∧ autoLockTimer (this m1) = None
  ∧ (∀ id, autoLockTimer (this m) = Some id → timers (world m1) !! id = None)
  ∧ this m2 = this m1
  ∧ timers (world m2) = timers (world m1)
  ∧ storage (world m2) = storage (world m1).
Proof.
  unfold on_message, handleMessage, lockVault, bind, modify_this, get_this,
    clearTimeout, modify_world, notifyContentScripts, ret, locked.
  simpl.
  destruct (autoLockTimer (this m)) as [id|] eqn:Ht; simpl;
    rewrite ?Ht; simpl; repeat split.
  - intros id' [= <-]. apply lookup_delete_eq.
  - intros id'. discriminate.
Qed.

Lemma locked_guard_true (s : Session) : ¬ unlocked s → locked_guard s = true.
Proof.
  unfold unlocked, locked_guard. intros H.
  destruct (isUnlocked s); [|reflexivity]. simpl.
  case_bool_decide as Hv; [|reflexivity].
  exfalso. apply H. split; [reflexivity|exact Hv].
Qed.

Lemma locked_guard_false (s : Session) : unlocked s → locked_guard s = false.
Proof.
  unfold unlocked, locked_guard. intros [-> Hv].
  rewrite bool_decide_true by exact Hv. reflexivity.
Qed.

(** C7.  Operations on a session that is not unlocked.  Whenever
    [isUnlocked] is false or no vault is held, [saveCredential],
    [updateCredential] and [deleteCredential] answer [{error: 'Vault is
    locked'}] and leave the machine, hence the session and the stored
    envelope, as it was; [getCredentials], [getAllCredentials] and
    [searchCredentials] answer [{credentials: []}], not an error, and change
    nothing either. *)
Theorem operations_when_not_unlocked {P : Platform} (m : Machine) :
  ¬ unlocked (this m) →
  (∀ credential,
     saveCredential credential m = (Ok (RError "Vault is locked"), m))
  ∧ (∀ credential,
       updateCredential credential m = (Ok (RError "Vault is locked"), m))
  ∧ (∀ credentialId,
       deleteCredential credentialId m = (Ok (RError "Vault is locked"), m))
  ∧ (∀ domain, getCredentials domain m = (Ok (RCredentials []), m))
  ∧ getAllCredentials m = (Ok (RCredentials []), m)
  ∧ (∀ query, searchCredentials query m = (Ok (RCredentials []), m)).
Proof.
  intros H. apply locked_guard_true in H.
  unfold saveCredential, updateCredential, deleteCredential, getCredentials,
    getAllCredentials, searchCredentials.
  unfold bind, get_this. simpl. rewrite H. simpl.
  repeat split; reflexivity.
Qed.

Lemma operations_when_not_unlocked_witness :
  on_message (P := Small.platform) (SAVE_CREDENTIAL Small.gmail)
    (Small.locked_with Small.sample_envelope)
  = (RError "Vault is locked", Small.locked_with Small.sample_envelope)
  ∧ on_message (P := Small.platform) (GET_CREDENTIALS "gmail.com")
      (Small.locked_with Small.sample_envelope)
    = (RCredentials [], Small.locked_with Small.sample_envelope).
Proof.
  assert (Hl : ¬ unlocked (this (Small.locked_with Small.sample_envelope))).
  { intros [Hu _]. discriminate Hu. }
  destruct (operations_when_not_unlocked (P := Small.platform) _ Hl)
    as (Hsave & _ & _ & Hget & _).
  unfold on_message, handleMessage. rewrite Hsave, Hget. split; reflexivity.
Defined.

(** *** Which fields of [this] a handler can move *)

Section Frames.
Context {P : Platform}.

Local Arguments encryptData : simpl never.
Local Arguments persist : simpl never.
Local Arguments startAutoLockTimer : simpl never.

Lemma secrets_step_refl Q s : secrets_step Q s s.
Proof. left. tauto. Qed.

Lemma secrets_step_settled_with Q s s' :
  secrets_step Q s s' → settled_with Q s → settled_with Q s'.
Proof.
  unfold secrets_step, settled_with, locked.
  intros [(Hu & Hp & Hv)|[H|H]] Hs; [|right; exact H|left; exact H].
  destruct Hs as [(Hu0 & Hv0 & Hp0)|(Hu0 & Hv0 & Hp0)].
  - left. rewrite Hu, Hp. repeat split; try assumption.
    destruct (vault s') eqn:Hv'; [|reflexivity].
    assert (Hsome : is_Some (vault s)) by (apply Hv; eauto).
    rewrite Hv0 in Hsome. destruct Hsome as [? ?]. discriminate.
  - right. rewrite Hu, Hp, Hv. auto.
Qed.

Lemma encryptData_this data password m :
  this (snd (encryptData data password m)) = this m.
Proof.
  destruct (encryptData_draws data password m) as [n Hn].
  exact (only_draws_this _ _ _ Hn).
Qed.

Lemma startAutoLockTimer_frame m :
  vault (this (snd (startAutoLockTimer m))) = vault (this m)
  ∧ isUnlocked (this (snd (startAutoLockTimer m))) = isUnlocked (this m)
  ∧ masterPassword (this (snd (startAutoLockTimer m)))
    = masterPassword (this m)
  ∧ storage (world (snd (startAutoLockTimer m))) = storage (world m)
  ∧ ∃ u, fst (startAutoLockTimer m) = Ok u.
Proof.
  unfold startAutoLockTimer, bind, get_this, clearTimeout, modify_world,
    modify_this, Date_now, setTimeout, ret.
  simpl.
  destruct (autoLockTimer (this m)); simpl;
    destruct (truthy_num (autoLockDelay (this m))); simpl;
    repeat split; eexists; reflexivity.
Qed.

Lemma persist_this m : this (snd (persist m)) = this m.
Proof.
  unfold persist, bind, get_this, throw. simpl.
  destruct (vault (this m)) as [v|]; [|reflexivity].
  pose proof (encryptData_this v (masterPassword (this m)) m) as Ht.
  destruct (encryptData v (masterPassword (this m)) m) as [[e|err] m1];
    simpl in *; [|exact Ht].
  unfold storage_local_set, ret.
  destruct (storage_fault (world m1)); simpl; exact Ht.
Qed.

(** [setupVault] step by step: the clock is read, the new empty vault is
    encrypted and stored, and only then is the session touched. *)
Lemma setupVault_run masterPassword m :
  let m0 := snd (Date_now m) in
  let vaultData :=
    {| credentials := [];
       created := clock_tape (world m) (clock_pos (world m));
       version := "2.0";
       security := security_name (this m) |} in
  setupVault masterPassword m
  = match encryptData vaultData masterPassword m0 with
    | (Throw e, m1) => (Ok (RError e), m1)
    | (Ok encrypted, m1) =>
        match storage_fault (world m1) with
        | Some e => (Ok (RError e), m1)
        | None =>
            let m2 :=
              {| this :=
                   set_isUnlocked true
                     (set_masterPassword masterPassword
                        (set_vault (Some vaultData) (this m1)));
                 world :=
                   set_storage (put_setup_items encrypted (storage (world m1)))
                     (world m1) |} in
            let m3 := snd (startAutoLockTimer m2) in
            (Ok (RSetup (security_name (this m))),
             {| this := this m3;
                world :=
                  set_notifications
                    (notifications (world m3) ++ ["VAULT_UNLOCKED"])
                    (world m3) |})
        end
    end.
Proof.
  unfold setupVault, try_catch.
  unfold bind at 1. unfold Date_now at 1. simpl.
  unfold bind at 1. unfold get_this at 1. simpl.
  unfold bind at 1.
  destruct (encryptData _ masterPassword _) as [[encrypted|e] m1];
    [|reflexivity].
  unfold bind at 1. unfold storage_local_set at 1.
  destruct (storage_fault (world m1)); [reflexivity|].
  unfold bind, modify_this, notifyContentScripts, modify_world, ret. simpl.
  match goal with
  | |- context [startAutoLockTimer ?x] =>
      destruct (startAutoLockTimer_frame x) as (_ & _ & _ & _ & u & Hu);
      destruct (startAutoLockTimer x) as [r m3]
  end.
  simpl in Hu. subst r. reflexivity.
Qed.

(** [unlockVault] step by step. *)
Lemma unlockVault_run masterPassword m :
  unlockVault masterPassword m
  = match st_vault (storage (world m)) with
    | None => (Ok (RError "No vault found"), m)
    | Some stored =>
        match decryptVault (this m) stored masterPassword with
        | Throw _ => (Ok (RError "Invalid password"), m)
        | Ok vaultData =>
            let m2 :=
              {| this :=
                   set_isUnlocked true
                     (set_masterPassword masterPassword
                        (set_vault (Some vaultData) (this m)));
                 world := world m |} in
            let m3 := snd (startAutoLockTimer m2) in
            (Ok (RUnlocked vaultData),
             {| this := this m3;
                world :=
                  set_notifications
                    (notifications (world m3) ++ ["VAULT_UNLOCKED"])
                    (world m3) |})
        end
    end.
Proof.
  unfold unlockVault, try_catch.
  unfold bind at 1. unfold get_world at 1. simpl.
  destruct (st_vault (storage (world m))) as [stored|];
    [|destruct m; reflexivity].
  unfold bind at 1. unfold get_this at 1. simpl.
  unfold bind at 1. unfold lift at 1. simpl.
  destruct (decryptVault (this m) stored masterPassword) as [vaultData|e];
    [|destruct m; reflexivity].
  unfold bind, modify_this, notifyContentScripts, modify_world, ret. simpl.
  match goal with
  | |- context [startAutoLockTimer ?x] =>
      destruct (startAutoLockTimer_frame x) as (_ & _ & _ & _ & u & Hu);
      destruct (startAutoLockTimer x) as [r m3]
  end.
  simpl in Hu. subst r. reflexivity.
Qed.

(** [updateCredential] step by step, on an unlocked session. *)
Lemma updateCredential_run credential m v :
  isUnlocked (this m) = true →
  vault (this m) = Some v →
  updateCredential credential m
  = match
      findIndex (fun cred => bool_decide (cred_id cred = cred_id credential))
        (credentials v)
    with
    | None => (Ok (RError "Credential not found"), m)
    | Some index =>
        let now := clock_tape (world m) (clock_pos (world m)) in
        let stored := set_cred_modified (Some now) credential in
        let m1 :=
          {| this :=
               set_vault
                 (Some (set_credentials (<[index := stored]> (credentials v))
                          v))
                 (this m);
             world := set_clock_pos (S (clock_pos (world m))) (world m) |} in
        match persist m1 with
        | (Ok _, m2) => (Ok RSuccess, m2)
        | (Throw e, m2) => (Ok (RError e), m2)
        end
    end.
Proof.
  intros Hu Hv. unfold updateCredential.
  unfold bind at 1. unfold get_this at 1. simpl.
  rewrite (locked_guard_false (this m))
    by (split; [exact Hu|rewrite Hv; eauto]).
  unfold try_catch.
  unfold bind at 1. unfold get_this at 1. simpl. rewrite Hv. simpl.
  destruct (findIndex _ (credentials v)) as [index|];
    [|destruct m; reflexivity].
  unfold bind at 1. unfold Date_now at 1. simpl.
  unfold bind at 1. unfold update_credentials, modify_this at 1. simpl.
  rewrite Hv.
  unfold bind, ret.
  destruct (persist _) as [[e|err] m2]; reflexivity.
Qed.

Lemma update_credentials_frame f m :
  isUnlocked (this (snd (update_credentials f m))) = isUnlocked (this m)
  ∧ masterPassword (this (snd (update_credentials f m)))
    = masterPassword (this m)
  ∧ (is_Some (vault (this (snd (update_credentials f m))))
     ↔ is_Some (vault (this m))).
Proof.
  unfold update_credentials, modify_this. simpl.
  destruct (vault (this m)) as [v|] eqn:Hv; simpl; rewrite ?Hv;
    repeat split; eauto.
Qed.

(** A change of the credential list followed by [persist] and an answer
    moves none of the three fields. *)
Lemma mutation_secrets Q f (k : Envelope → Response) m :
  secrets_step Q (this m)
    (this (snd (try_catch
                  (update_credentials f ;;;
                   let* encrypted := persist in ret (k encrypted))
                  (fun message => ret (RError message)) m))).
Proof.
  unfold try_catch. unfold bind at 1.
  destruct (update_credentials_frame f m) as (Hu & Hp & Hv).
  destruct (update_credentials f m) as [[u|e] m1] eqn:Hupd; simpl in *.
  - unfold bind, ret.
    pose proof (persist_this m1) as Ht.
    destruct (persist m1) as [[enc|e] m2]; simpl in *; rewrite Ht;
      left; auto.
  - left. auto.
Qed.

Lemma saveCredential_secrets Q credential m :
  secrets_step Q (this m) (this (snd (saveCredential credential m))).
Proof.
  unfold saveCredential.
  unfold bind at 1. unfold get_this at 1. simpl.
  destruct (locked_guard (this m)); [apply secrets_step_refl|].
  unfold try_catch.
  unfold bind at 1. unfold Date_now at 1. simpl.
  unfold bind at 1. unfold Math_random_suffix at 1. simpl.
  unfold bind at 1. unfold Date_now at 1. simpl.
  unfold bind at 1. unfold Date_now at 1. simpl.
  match goal with
  | |- context [update_credentials ?f] =>
      match goal with
      | |- context [ret (RSaved ?c _)] =>
          exact (mutation_secrets Q f
                   (fun encrypted =>
                      RSaved c
                        (if truthy_str (kdf encrypted)
                         then default "" (kdf encrypted) else "legacy"))
                   {| this := this m;
                      world :=
                        set_clock_pos (S (S (S (clock_pos (world m)))))
                          (set_mathrandom_pos (S (mathrandom_pos (world m)))
                             (world m)) |})
      end
  end.
Qed.

Lemma deleteCredential_secrets Q credentialId m :
  secrets_step Q (this m) (this (snd (deleteCredential credentialId m))).
Proof.
  unfold deleteCredential.
  unfold bind at 1. unfold get_this at 1. simpl.
  destruct (locked_guard (this m)); [apply secrets_step_refl|].
  unfold try_catch.
  unfold bind at 1. unfold get_this at 1. simpl.
  destruct (findIndex _ _) as [index|]; [|apply secrets_step_refl].
  exact (mutation_secrets Q (delete index) (fun _ => RSuccess) m).
Qed.

Lemma updateCredential_secrets Q credential m :
  secrets_step Q (this m) (this (snd (updateCredential credential m))).
Proof.
  unfold updateCredential.
  unfold bind at 1. unfold get_this at 1. simpl.
  destruct (locked_guard (this m)); [apply secrets_step_refl|].
  unfold try_catch.
  unfold bind at 1. unfold get_this at 1. simpl.
  destruct (findIndex _ _) as [index|]; [|apply secrets_step_refl].
  unfold bind at 1. unfold Date_now at 1. simpl.
  match goal with
  | |- context [update_credentials ?f] =>
      exact (mutation_secrets Q f (fun _ => RSuccess)
               {| this := this m;
                  world := set_clock_pos (S (clock_pos (world m))) (world m) |})
  end.
Qed.

Lemma setupVault_secrets (Q : option Passphrase → Prop) masterPassword m :
  Q masterPassword →
  secrets_step Q (this m) (this (snd (setupVault masterPassword m))).
Proof.
  intros HQ. rewrite setupVault_run. cbv zeta.
  match goal with
  | |- context [encryptData ?v ?p ?x] =>
      pose proof (encryptData_this v p x) as Ht;
      destruct (encryptData v p x) as [[encrypted|e] m1]
  end; simpl in Ht.
  - destruct (storage_fault (world m1)); simpl.
    + rewrite Ht. apply secrets_step_refl.
    + match goal with
      | |- context [startAutoLockTimer ?x] =>
          destruct (startAutoLockTimer_frame x) as (Hv & Hu & Hp & _)
      end.
      right; left. rewrite Hu, Hv, Hp. simpl. eauto.
  - simpl. rewrite Ht. apply secrets_step_refl.
Qed.

Lemma unlockVault_secrets (Q : option Passphrase → Prop) masterPassword m :
  Q masterPassword →
  secrets_step Q (this m) (this (snd (unlockVault masterPassword m))).
Proof.
  intros HQ. rewrite unlockVault_run.
  destruct (st_vault (storage (world m))); [|apply secrets_step_refl].
  destruct (decryptVault _ _ _); [|apply secrets_step_refl].
  cbv zeta. simpl.
  match goal with
  | |- context [startAutoLockTimer ?x] =>
      destruct (startAutoLockTimer_frame x) as (Hv & Hu & Hp & _)
  end.
  right; left. rewrite Hu, Hv, Hp. simpl. eauto.
Qed.

Lemma lockVault_locked m : locked (this (snd (lockVault m))).
Proof.
  unfold lockVault, bind, modify_this, get_this, clearTimeout, modify_world,
    notifyContentScripts, ret, locked.
  simpl. destruct (autoLockTimer (this m)); simpl; auto.
Qed.

Lemma lockVault_secrets Q m :
  secrets_step Q (this m) (this (snd (lockVault m))).
Proof. right; right. apply lockVault_locked. Qed.

Lemma updateAutoLock_secrets Q delay m :
  secrets_step Q (this m) (this (snd (updateAutoLock delay m))).
Proof.
  unfold updateAutoLock.
  unfold bind at 1. unfold modify_this at 1. simpl.
  unfold bind at 1. unfold get_this at 1. simpl.
  unfold bind at 1. unfold storage_local_set at 1. simpl.
  destruct (storage_fault (world m)); simpl; [left; tauto|].
  unfold bind at 1. unfold get_this at 1. simpl.
  destruct (isUnlocked (this m)) eqn:Hun.
  - unfold bind, ret.
    match goal with
    | |- context [startAutoLockTimer ?x] =>
        destruct (startAutoLockTimer_frame x) as (Hv & Hu & Hp & _);
        destruct (startAutoLockTimer x) as [[u|e] m3]
    end; simpl in *; left; rewrite Hu, Hv, Hp, Hun; tauto.
  - unfold bind, ret. simpl. left. rewrite Hun. tauto.
Qed.

Lemma handleMessage_secrets Q message m :
  carries Q message →
  secrets_step Q (this m) (this (snd (handleMessage message m))).
Proof.
  intros HQ. destruct message; unfold handleMessage.
  - apply setupVault_secrets, HQ.
  - apply unlockVault_secrets, HQ.
  - apply lockVault_secrets.
  - apply secrets_step_refl.
  - apply saveCredential_secrets.
  - unfold getCredentials, bind, get_this, ret. simpl.
    destruct (locked_guard (this m)); apply secrets_step_refl.
  - apply deleteCredential_secrets.
  - apply updateCredential_secrets.
  - apply secrets_step_refl.
  - apply updateAutoLock_secrets.
  - unfold getRemainingTime, bind, get_this, ret, Date_now. simpl.
    destruct (_ || _); apply secrets_step_refl.
  - apply secrets_step_refl.
  - unfold getAllCredentials, bind, get_this, ret. simpl.
    destruct (locked_guard (this m)); apply secrets_step_refl.
  - unfold searchCredentials, bind, get_this, ret. simpl.
    destruct (_ || _); apply secrets_step_refl.
  - apply secrets_step_refl.
  - apply secrets_step_refl.
Qed.

Lemma step_secrets Q e m :
  event_carries Q e → secrets_step Q (this m) (this (step e m)).
Proof.
  intros HQ. destruct e as [message|id]; simpl.
  - unfold on_message.
    pose proof (handleMessage_secrets Q message m HQ) as H.
    destruct (handleMessage message m) as [[r|err] m']; exact H.
  - unfold timer_fires.
    destruct (timers (world m) !! id); [|apply secrets_step_refl].
    right; right. apply lockVault_locked.
Qed.

Lemma run_settled_with Q events m :
  Forall (event_carries Q) events →
  settled_with Q (this m) → settled_with Q (this (run events m)).
Proof.
  intros Hall. revert m.
  induction Hall as [|e events He Hall IH]; intros m Hm; [exact Hm|].
  simpl. apply IH.
  eapply secrets_step_settled_with; [apply step_secrets, He|exact Hm].
Qed.

Lemma initial_locked argon2_ok w : locked (this (initial argon2_ok w)).
Proof. repeat split. Qed.

Lemma event_carries_True events : Forall (event_carries (λ _, True)) events.
Proof.
  apply Forall_forall. intros [message|id] _; [|exact I].
  destruct message; exact I.
Qed.

(** What a successful [setupVault] and a successful [unlockVault] leave in
    the three fields. *)
Lemma setupVault_unlocks password m security :
  fst (setupVault password m) = Ok (RSetup security) →
  isUnlocked (this (snd (setupVault password m))) = true
  ∧ is_Some (vault (this (snd (setupVault password m))))
  ∧ masterPassword (this (snd (setupVault password m)))
    = password.
Proof.
  rewrite setupVault_run. cbv zeta.
  match goal with
  | |- context [encryptData ?v ?p ?x] =>
      destruct (encryptData v p x) as [[encrypted|e] m1]
  end; [|discriminate].
  destruct (storage_fault (world m1)); [discriminate|].
  intros _. simpl.
  match goal with
  | |- context [startAutoLockTimer ?x] =>
      destruct (startAutoLockTimer_frame x) as (Hv & Hu & Hp & _)
  end.
  rewrite Hu, Hv, Hp. simpl. eauto.
Qed.

Lemma unlockVault_unlocks password m v :
  fst (unlockVault password m) = Ok (RUnlocked v) →
  isUnlocked (this (snd (unlockVault password m))) = true
  ∧ vault (this (snd (unlockVault password m))) = Some v
  ∧ masterPassword (this (snd (unlockVault password m)))
    = password.
Proof.
  rewrite unlockVault_run.
  destruct (st_vault (storage (world m))); [|discriminate].
  destruct (decryptVault _ _ _) as [v'|]; [|discriminate].
  cbv zeta. simpl. intros [= ->].
  match goal with
  | |- context [startAutoLockTimer ?x] =>
      destruct (startAutoLockTimer_frame x) as (Hv & Hu & Hp & _)
  end.
  rewrite Hu, Hv, Hp. simpl. auto.
Qed.

End Frames.

(** C10 as the document states it fails: [handleMessage] passes
    [message.masterPassword] on unchecked, and [setupVault] with [null]
    encrypts the new vault (under the text ['null']), stores it and leaves
    the session unlocked on it with [masterPassword] still [null]. *)
Lemma setupVault_null_password_counterexample :
  let m0 := initial false (Small.sample_world "000") in
  let m := step (P := Small.platform) (Receive (SETUP_VAULT None)) m0 in
  fst (on_message (P := Small.platform) (SETUP_VAULT None) m0)
  = RSetup "enhanced-pbkdf2"
  ∧ isUnlocked (this m) = true
  ∧ is_Some (vault (this m))
  ∧ masterPassword (this m) = None
  ∧ ¬ doc_coherent (this m).
Proof.
  intros m0 m.
  assert (Hu : isUnlocked (this m) = true) by (vm_compute; reflexivity).
  assert (Hp : masterPassword (this m) = None) by (vm_compute; reflexivity).
  split; [vm_compute; reflexivity|]. split; [exact Hu|].
  split; [vm_compute; eauto|]. split; [exact Hp|].
  intros Hc. destruct (proj1 Hc Hu) as [_ [pw Hpw]].
  rewrite Hp in Hpw. discriminate Hpw.
Qed.

(** C10, amended.  After [init()] and after every message handler and
    every timer expiry that follows, [isUnlocked] is true exactly when a
    vault is held, and while it is false neither a vault nor a master
    password is held.  While it is true, the master password held is of
    whatever kind all the master passwords of the [SETUP_VAULT] and
    [UNLOCK_VAULT] messages were: not [null] if none of them was [null].
    The three handlers set the fields accordingly: [lockVault] leaves
    [isUnlocked] false and [vault] and [masterPassword] [null]; a
    [setupVault] or [unlockVault] that answers success leaves [isUnlocked]
    true, a vault held, and [masterPassword] the value the message
    carried. *)
Theorem session_coherent {P : Platform} (events : list Event)
    (argon2_ok : bool) (w : World) :
  let m := run events (initial argon2_ok w) in
  (isUnlocked (this m) = true ↔ is_Some (vault (this m)))
  ∧ (isUnlocked (this m) = false →
     vault (this m) = None ∧ masterPassword (this m) = None)
  ∧ (∀ Q : option Passphrase → Prop,
       Forall (event_carries Q) events →
       isUnlocked (this m) = true → Q (masterPassword (this m)))
  ∧ locked (this (step (Receive LOCK_VAULT) m))
  ∧ (∀ password security,
       fst (on_message (SETUP_VAULT password) m) = RSetup security →
       let m' := step (Receive (SETUP_VAULT password)) m in
       isUnlocked (this m') = true
       ∧ is_Some (vault (this m'))
       ∧ masterPassword (this m') = password)
  ∧ (∀ password v,
       fst (on_message (UNLOCK_VAULT password) m) = RUnlocked v →
       let m' := step (Receive (UNLOCK_VAULT password)) m in
       isUnlocked (this m') = true
       ∧ vault (this m') = Some v
       ∧ masterPassword (this m') = password).
Proof.
  intros m.
  assert (Hs : ∀ Q, Forall (event_carries Q) events →
                    settled_with Q (this m)).
  { intros Q Hall. apply run_settled_with; [exact Hall|].
    left. apply initial_locked. }
  pose proof (Hs (λ _, True) (event_carries_True events)) as Hany.
  split; [|split; [|split; [|split; [|split]]]].
  - destruct Hany as [(Hu & Hv & _)|(Hu & Hv & _)].
    + rewrite Hu, Hv. split; [discriminate|]. intros [? ?]. discriminate.
    + rewrite Hu. tauto.
  - intros Hu. destruct Hany as [(_ & Hv & Hp)|(Hu' & _)];
      [auto|congruence].
  - intros Q Hall Hu. destruct (Hs Q Hall) as [(Hu' & _)|(_ & _ & HQ)];
      [congruence|exact HQ].
  - simpl. unfold on_message, handleMessage.
    pose proof (lockVault_locked m) as Hl.
    destruct (lockVault m) as [[r|err] m']; exact Hl.
  - intros password security. simpl. unfold on_message, handleMessage.
    pose proof (setupVault_unlocks password m security) as H.
    destruct (setupVault password m) as [[r|err] m']; simpl in *;
      [|discriminate].
    intros ->. apply H. reflexivity.
  - intros password v. simpl. unfold on_message, handleMessage.
    pose proof (unlockVault_unlocks password m v) as H.
    destruct (unlockVault password m) as [[r|err] m']; simpl in *;
      [|discriminate].
    intros ->. apply H. reflexivity.
Qed.

(** Setup, lock, unlock: the session ends unlocked on the vault, holding
    the master password of the last message; a lock then clears both. *)
Lemma session_coherent_witness :
  let m :=
    run (P := Small.platform)
      [Receive (SETUP_VAULT (Some (Text "Secret123!")));
       Receive LOCK_VAULT;
       Receive (UNLOCK_VAULT (Some (Text "Secret123!")))]
      (initial false (Small.sample_world "000")) in
  isUnlocked (this m) = true
  ∧ is_Some (vault (this m))
  ∧ is_Some (masterPassword (this m))
  ∧ locked (this (step (P := Small.platform) (Receive LOCK_VAULT) m)).
Proof.
  intros m.
  destruct (session_coherent (P := Small.platform)
              [Receive (SETUP_VAULT (Some (Text "Secret123!")));
               Receive LOCK_VAULT;
               Receive (UNLOCK_VAULT (Some (Text "Secret123!")))] false
              (Small.sample_world "000"))
    as (Hiff & _ & Hpw & Hlock & _).
  assert (Hu : isUnlocked (this m) = true) by (vm_compute; reflexivity).
  split; [exact Hu|]. split; [apply Hiff, Hu|]. split; [|exact Hlock].
  apply (Hpw is_Some); [|exact Hu].
  repeat constructor; simpl; eauto.
Defined.

(** ** The credential store *)

Lemma prefix_app (sub s : string) :
  String.prefix sub s = true ↔ ∃ post, s = sub +:+ post.
Proof.
  revert s. induction sub as [|a sub IH]; intros s.
  - split; [intros _; exists s; reflexivity|]. destruct s; reflexivity.
  - destruct s as [|b s]; simpl.
    + split; [discriminate|]. intros [post H]. discriminate.
    + destruct (ascii_dec a b) as [->|Hne].
      * rewrite IH. split; intros [post H]; exists post.
        -- rewrite H. reflexivity.
        -- injection H as H. exact H.
      * split; [discriminate|]. intros [post H].
        injection H as H _. congruence.
Qed.

Lemma includes_cons (c : ascii) (s sub : string) :
  includes (String c s) sub
  = String.prefix sub (String c s) || includes s sub.
Proof. reflexivity. Qed.

(** [includes] is the substring test. *)
Lemma includes_spec (s sub : string) :
  includes s sub = true ↔ ∃ pre post, s = pre +:+ sub +:+ post.
Proof.
  split.
  - induction s as [|c s IH].
    + destruct sub; [|discriminate]. intros _.
      exists EmptyString, EmptyString. reflexivity.
    + rewrite includes_cons, orb_true_iff. intros [H|H].
      * apply prefix_app in H as [post H]. exists EmptyString, post. exact H.
      * destruct (IH H) as (pre & post & ->).
        exists (String c pre), post. reflexivity.
  - intros (pre & post & ->). induction pre as [|c pre IH].
    + assert (H : String.prefix sub (sub +:+ post) = true)
        by (apply prefix_app; eauto).
      change (EmptyString +:+ sub +:+ post) with (sub +:+ post).
      destruct (sub +:+ post) as [|c r].
      * destruct sub; [reflexivity|discriminate H].
      * rewrite includes_cons, H. reflexivity.
    + change (String c pre +:+ sub +:+ post)
        with (String c (pre +:+ sub +:+ post)).
      rewrite includes_cons, IH. apply orb_true_r.
Qed.

Lemma includes_empty_string (sub : string) :
  includes "" sub = true → sub = "".
Proof. destruct sub; [reflexivity|discriminate]. Qed.

Lemma truthy_str_Some (o : option string) :
  truthy_str o = true ↔ ∃ s, o = Some s ∧ s ≠ "".
Proof.
  destruct o as [s|]; simpl.
  - rewrite negb_true_iff, String.eqb_neq. split; [eauto|].
    intros (s' & [= <-] & H). exact H.
  - split; [discriminate|]. intros (s' & H & _). discriminate.
Qed.

Section FilterLemmas.
Context {P : Platform}.

(** The filter of [getCredentials], test by test. *)
Lemma matches_domain_spec (domain : string) (cred : Credential) :
  matches_domain domain cred = true
  ↔ cred_domain cred = Some domain
    ∨ (∃ u, cred_url cred = Some u ∧ u ≠ "" ∧ includes u domain = true)
    ∨ (∃ n, cred_name cred = Some n ∧ n ≠ ""
            ∧ includes (toLowerCase n) (toLowerCase domain) = true).
Proof.
  unfold matches_domain.
  rewrite !orb_true_iff, !andb_true_iff, bool_decide_eq_true,
    !truthy_str_Some.
  split.
  - intros [[H|[(u & Hu & Hne) H]]|[(n & Hn & Hne) H]].
    + left. exact H.
    + right; left. exists u. rewrite Hu in H. auto.
    + right; right. exists n. rewrite Hn in H. auto.
  - intros [H|[(u & Hu & Hne & H)|(n & Hn & Hne & H)]].
    + left; left. exact H.
    + left; right. rewrite Hu. eauto.
    + right. rewrite Hn. eauto.
Qed.

(** For a query that is not empty, the filter is the test of the design
    document. *)
Lemma matches_domain_doc (domain : string) (cred : Credential) :
  toLowerCase_keeps_text →
  domain ≠ "" →
  matches_domain domain cred = true ↔ doc_matches_domain domain cred.
Proof.
  intros Hlow Hd. rewrite matches_domain_spec. unfold doc_matches_domain.
  split.
  - intros [H|[(u & Hu & _ & H)|(n & Hn & _ & H)]]; eauto.
  - intros [H|[(u & Hu & H)|(n & Hn & H)]].
    + left. exact H.
    + right; left. exists u. repeat split; try assumption.
      intros ->. apply includes_empty_string in H. contradiction.
    + right; right. exists n. repeat split; try assumption.
      intros ->. rewrite (proj2 (Hlow "") eq_refl) in H.
      apply includes_empty_string in H.
      apply (proj1 (Hlow domain)) in H. contradiction.
Qed.

Lemma field_matches_spec (searchTerm : string) (f : option string) :
  field_matches searchTerm f = true
  ↔ ∃ s, f = Some s ∧ s ≠ "" ∧ includes (toLowerCase s) searchTerm = true.
Proof.
  unfold field_matches. rewrite andb_true_iff, truthy_str_Some. split.
  - intros [(s & -> & Hne) H]. eauto.
  - intros (s & -> & Hne & H). eauto.
Qed.

End FilterLemmas.

Lemma sort_insert_Permutation {A} (cmp : A → A → Z) x l :
  Permutation (sort_insert cmp x l) (x :: l).
Proof.
  induction l as [|y l IH]; simpl; [reflexivity|].
  destruct (0 <? cmp x y); [|reflexivity].
  rewrite IH. apply perm_swap.
Qed.

Lemma sort_Permutation {A} (cmp : A → A → Z) l : Permutation (sort cmp l) l.
Proof.
  unfold sort. induction l as [|x l IH]; simpl; [reflexivity|].
  rewrite sort_insert_Permutation, IH. reflexivity.
Qed.

(** [findIndex] returns the first position that passes the test. *)
Lemma findIndex_Some {A} (p : A → bool) l i :
  findIndex p l = Some i →
  ∃ x, l !! i = Some x ∧ p x = true
       ∧ ∀ j y, (j < i)%nat → l !! j = Some y → p y = false.
Proof.
  revert i. induction l as [|a l IH]; intros i; simpl; [discriminate|].
  destruct (p a) eqn:Hp.
  - intros [= <-]. exists a. repeat split; [exact Hp|]. intros j y Hj. lia.
  - destruct (findIndex p l) as [i'|]; [|discriminate].
    intros [= <-]. destruct (IH i' eq_refl) as (x & Hx & Hpx & Hfirst).
    exists x. repeat split; [exact Hx|exact Hpx|].
    intros [|j] y Hj; simpl.
    + intros [= <-]. exact Hp.
    + apply Hfirst. lia.
Qed.

(** C9 as the document states it fails for the empty query: a credential
    whose url is the empty text contains the empty query as a substring, so
    the three-way test of the document holds for it, but [getCredentials]
    does not return it. *)
Lemma getCredentials_empty_query_counterexample :
  unlocked (this Small.with_blank)
  ∧ (credentials <$> vault (this Small.with_blank))
    = Some [Small.blank_saved]
  ∧ doc_matches_domain (P := Small.platform) "" Small.blank_saved
  ∧ getCredentials (P := Small.platform) "" Small.with_blank
    = (Ok (RCredentials []), Small.with_blank).
Proof.
  split; [split; [reflexivity|vm_compute; eauto]|].
  split; [vm_compute; reflexivity|].
  split.
  - right; left. exists "". split; reflexivity.
  - vm_compute. reflexivity.
Qed.

(** C9, amended.  On an unlocked session, [getCredentials(d)] answers
    without changing anything, and the credentials it returns are, in some
    order, exactly those of the vault for which: the domain equals [d], or
    the url is not empty and contains [d], or the name is not empty and its
    lower-case form contains the lower-case form of [d], the lower-case
    form being that of [String.prototype.toLowerCase].  For a [d] that is
    not empty this is the three-way test of the design document (lower-
    casing leaves no text but the empty one empty). *)
Theorem getCredentials_characterised {P : Platform} (domain : string)
    (m : Machine) (v : Vault) :
  isUnlocked (this m) = true →
  vault (this m) = Some v →
  ∃ l,
    getCredentials domain m = (Ok (RCredentials l), m)
    ∧ Permutation l (List.filter (matches_domain domain) (credentials v))
    ∧ (∀ c,
         c ∈ l
         ↔ c ∈ credentials v
           ∧ (cred_domain c = Some domain
              ∨ (∃ u, cred_url c = Some u ∧ u ≠ ""
                      ∧ includes u domain = true)
              ∨ (∃ n, cred_name c = Some n ∧ n ≠ ""
                      ∧ includes (toLowerCase n) (toLowerCase domain)
                        = true)))
    ∧ (toLowerCase_keeps_text →
       domain ≠ "" →
       ∀ c, c ∈ l ↔ c ∈ credentials v ∧ doc_matches_domain domain c).
Proof.
  intros Hu Hv.
  exists (sort by_recency
            (List.filter (matches_domain domain) (credentials v))).
  assert (Hmem : ∀ c,
             c ∈ sort by_recency
                   (List.filter (matches_domain domain) (credentials v))
             ↔ c ∈ credentials v ∧ matches_domain domain c = true).
  { intros c. rewrite (sort_Permutation by_recency _).
    rewrite !list_elem_of_In. apply filter_In. }
  split; [|split; [apply sort_Permutation|split]].
  - unfold getCredentials, bind, get_this, ret. simpl.
    rewrite (locked_guard_false (this m))
      by (split; [exact Hu|rewrite Hv; eauto]).
    rewrite Hv. reflexivity.
  - intros c. rewrite Hmem, matches_domain_spec. reflexivity.
  - intros Hlow Hd c. rewrite Hmem, (matches_domain_doc _ _ Hlow Hd).
    reflexivity.
Qed.

(** The exact-domain scenario of the document, and a name with an accented
    capital found by its lower-case form. *)
Lemma getCredentials_characterised_witness :
  (∃ l,
     getCredentials (P := Small.platform) "gmail.com"
       (Small.with_gmail false "000")
     = (Ok (RCredentials l), Small.with_gmail false "000")
     ∧ (∀ c, c ∈ l ↔ c ∈ [Small.gmail_saved]
                      ∧ doc_matches_domain (P := Small.platform)
                          "gmail.com" c))
  ∧ (∃ l,
       getCredentials (P := Small.platform) "école" Small.with_ecole
       = (Ok (RCredentials l), Small.with_ecole)
       ∧ Small.ecole_saved ∈ l).
Proof.
  split.
  - destruct (getCredentials_characterised (P := Small.platform) "gmail.com"
                (Small.with_gmail false "000")
                {| credentials := [Small.gmail_saved]; created := 1000;
                   version := "2.0"; security := "enhanced-pbkdf2" |})
      as (l & Hget & _ & _ & Hdoc).
    + reflexivity.
    + vm_compute. reflexivity.
    + exists l. split; [exact Hget|].
      apply Hdoc; [exact SmallFacts.lower_keeps_text|discriminate].
  - destruct (getCredentials_characterised (P := Small.platform) "école"
                Small.with_ecole
                {| credentials := [Small.ecole_saved]; created := 1000;
                   version := "2.0"; security := "enhanced-pbkdf2" |})
      as (l & Hget & _ & Hmem & _).
    + reflexivity.
    + vm_compute. reflexivity.
    + exists l. split; [exact Hget|].
      apply Hmem. split; [apply list_elem_of_singleton; reflexivity|].
      right; right. exists "École".
      split; [reflexivity|]. split; [discriminate|].
      vm_compute. reflexivity.
Defined.

(** C8 as the document states it fails: the update below supplies an id and
    a password only; afterwards the stored credential has no [created] and
    no [name] any more, where a merge would have kept those of the saved
    credential. *)
Lemma updateCredential_merge_counterexample :
  (credentials <$> vault (this (Small.with_gmail false "000")))
  = Some [Small.gmail_saved]
  ∧ on_message (P := Small.platform) (UPDATE_CREDENTIAL Small.password_change)
      (Small.with_gmail false "000")
    = (RSuccess,
       snd (on_message (P := Small.platform)
              (UPDATE_CREDENTIAL Small.password_change)
              (Small.with_gmail false "000")))
  ∧ (credentials
       <$> vault (this (snd (on_message (P := Small.platform)
                               (UPDATE_CREDENTIAL Small.password_change)
                               (Small.with_gmail false "000")))))
    = Some [set_cred_modified (Some 1005) Small.password_change]
  ∧ cred_created (set_cred_modified (Some 1005) Small.password_change) = None
  ∧ cred_created (doc_merge Small.gmail_saved Small.password_change 1005)
    = Some 1003
  ∧ set_cred_modified (Some 1005) Small.password_change
    ≠ doc_merge Small.gmail_saved Small.password_change 1005.
Proof.
  split; [vm_compute; reflexivity|].
  split; [vm_compute; reflexivity|].
  split; [vm_compute; reflexivity|].
  split; [reflexivity|]. split; [reflexivity|].
  intros H. apply (f_equal cred_created) in H. discriminate H.
Qed.

(** C8, amended.  On an unlocked session, for a credential whose id is that
    of a stored one, [updateCredential] puts the supplied object, with
    [modified] set to the current time, in the place of the first stored
    credential with that id.  So the id is unchanged and [modified] is the
    current time, every other field, [created] included, is the field of the
    supplied object (absent when the update does not supply it), and the
    other credentials and the length of the list are unchanged.  This is
    done in memory whether or not the vault can then be stored; the answer
    is [{success: true}] or the message of the failure. *)
Theorem updateCredential_replaces {P : Platform} (credential : Credential)
    (m : Machine) (v : Vault) (index : nat) :
  isUnlocked (this m) = true →
  vault (this m) = Some v →
  findIndex (fun cred => bool_decide (cred_id cred = cred_id credential))
    (credentials v) = Some index →
  let now := clock_tape (world m) (clock_pos (world m)) in
  let stored := set_cred_modified (Some now) credential in
  let m' := snd (updateCredential credential m) in
  ∃ old,
    credentials v !! index = Some old
    ∧ vault (this m')
      = Some (set_credentials (<[index := stored]> (credentials v)) v)
    ∧ <[index := stored]> (credentials v) !! index = Some stored
    ∧ cred_id stored = cred_id old
    ∧ cred_modified stored = Some now
    ∧ cred_created stored = cred_created credential
    ∧ cred_name stored = cred_name credential
    ∧ cred_domain stored = cred_domain credential
    ∧ cred_username stored = cred_username credential
    ∧ cred_password stored = cred_password credential
    ∧ cred_url stored = cred_url credential
    ∧ cred_email stored = cred_email credential
    ∧ (∀ j, j ≠ index →
         <[index := stored]> (credentials v) !! j = credentials v !! j)
    ∧ List.length (<[index := stored]> (credentials v))
      = List.length (credentials v)
    ∧ (fst (updateCredential credential m) = Ok RSuccess
       ∨ ∃ message,
           fst (updateCredential credential m) = Ok (RError message)).
Proof.
  intros Hu Hv Hfind now stored m'.
  destruct (findIndex_Some _ _ _ Hfind) as (old & Hold & Hid & _).
  apply bool_decide_eq_true in Hid.
  exists old. split; [exact Hold|].
  assert (Hrun := updateCredential_run credential m v Hu Hv).
  rewrite Hfind in Hrun. cbv zeta in Hrun.
  match type of Hrun with
  | context [persist ?x] =>
      pose proof (persist_this x) as Ht;
      destruct (persist x) as [[e|err] m2]
  end; simpl in Ht.
  all: split; [unfold m'; rewrite Hrun; simpl; rewrite Ht; reflexivity|].
  all: split;
    [apply list_lookup_insert_eq; apply lookup_lt_Some in Hold; exact Hold|].
  all: split; [symmetry; exact Hid|].
  all: do 8 (split; [reflexivity|]).
  all: split; [intros j Hj; apply list_lookup_insert_ne; congruence|].
  all: split; [apply length_insert|].
  all: rewrite Hrun; simpl; eauto.
Qed.

Lemma updateCredential_replaces_witness :
  vault (this (snd (updateCredential (P := Small.platform)
                      Small.password_change (Small.with_gmail false "000"))))
  = Some {| credentials :=
              [set_cred_modified (Some 1005) Small.password_change];
            created := 1000; version := "2.0";
            security := "enhanced-pbkdf2" |}.
Proof.
  destruct (updateCredential_replaces (P := Small.platform)
              Small.password_change (Small.with_gmail false "000")
              {| credentials := [Small.gmail_saved]; created := 1000;
                 version := "2.0"; security := "enhanced-pbkdf2" |} 0%nat)
    as (old & _ & Hv & _).
  - reflexivity.
  - vm_compute. reflexivity.
  - reflexivity.
  - exact Hv.
Defined.

(** C3 as the document states it fails: with an envelope already stored,
    [setupVault] succeeds and stores another envelope in its place. *)
Lemma setupVault_again_counterexample :
  is_Some (st_vault (storage (world (Small.relocked false "000"))))
  ∧ fst (on_message (P := Small.platform)
           (SETUP_VAULT (Some (Text "Other456!")))
           (Small.relocked false "000"))
    = RSetup "enhanced-pbkdf2"
  ∧ st_vault (storage (world (snd (on_message (P := Small.platform)
                                     (SETUP_VAULT (Some (Text "Other456!")))
                                     (Small.relocked false "000")))))
    ≠ st_vault (storage (world (Small.relocked false "000"))).
Proof.
  split; [vm_compute; eauto|]. split; [vm_compute; reflexivity|].
  intros H.
  apply (f_equal
           (fun o => List.length (encrypted (default Small.no_envelope o))))
    in H.
  vm_compute in H. discriminate H.
Qed.

(** C3, amended.  [setupVault] makes no check for an existing envelope.
    With an envelope already stored: when the encryption of the new empty
    vault returns an envelope and the storage accepts the write,
    [setupVault] answers [{success: true, security}], the new envelope
    replaces the stored one, and the session is unlocked on the new empty
    vault with the given passphrase; when the encryption or the write fails,
    it answers the message of that failure and both the stored envelope and
    the session are as before. *)
Theorem setupVault_overwrites {P : Platform} (password : string)
    (m : Machine) (stored : Envelope) :
  st_vault (storage (world m)) = Some stored →
  let vaultData :=
    {| credentials := [];
       created := clock_tape (world m) (clock_pos (world m));
       version := "2.0";
       security := security_name (this m) |} in
  let m' := snd (setupVault (Some (Text password)) m) in
  match
    fst (encryptData vaultData (Some (Text password)) (snd (Date_now m))),
    storage_fault (world m)
  with
  | Ok e, None =>
      fst (setupVault (Some (Text password)) m)
      = Ok (RSetup (security_name (this m)))
      ∧ st_vault (storage (world m')) = Some e
      ∧ vault (this m') = Some vaultData
      ∧ masterPassword (this m') = Some (Text password)
      ∧ isUnlocked (this m') = true
  | Ok _, Some message | Throw message, _ =>
      fst (setupVault (Some (Text password)) m) = Ok (RError message)
      ∧ st_vault (storage (world m')) = Some stored
      ∧ this m' = this m
  end.
Proof.
  intros Hst vaultData m'. unfold m'. rewrite setupVault_run. cbv zeta.
  fold vaultData.
  destruct (encryptData_draws vaultData (Some (Text password))
              (snd (Date_now m))) as [n Hn].
  pose proof (only_draws_this _ _ _ Hn) as Ht.
  pose proof (only_draws_storage _ _ _ Hn) as Hs.
  assert (Hf : storage_fault
                 (world (snd (encryptData vaultData (Some (Text password))
                                (snd (Date_now m)))))
               = storage_fault (world m)) by (rewrite Hn; reflexivity).
  destruct (encryptData vaultData (Some (Text password)) (snd (Date_now m)))
    as [[e|err] m1]; simpl in Ht, Hs, Hf |- *.
  - rewrite Hf. destruct (storage_fault (world m)) as [message|]; simpl.
    + rewrite Hs, Ht. auto.
    + match goal with
      | |- context [startAutoLockTimer ?x] =>
          destruct (startAutoLockTimer_frame x) as (Hv & Hu & Hp & Hsto & _)
      end.
      rewrite Hv, Hu, Hp, Hsto. simpl. auto.
  - rewrite Hs, Ht. destruct (storage_fault (world m)); auto.
Qed.

Lemma setupVault_overwrites_witness :
  fst (setupVault (P := Small.platform) (Some (Text "Other456!"))
         (Small.relocked false "000"))
  = Ok (RSetup "enhanced-pbkdf2")
  ∧ vault (this (snd (setupVault (P := Small.platform) (Some (Text "Other456!"))
                        (Small.relocked false "000"))))
    = Some {| credentials := []; created := 1005; version := "2.0";
              security := "enhanced-pbkdf2" |}.
Proof.
  pose proof (setupVault_overwrites (P := Small.platform) "Other456!"
                (Small.relocked false "000")
                (default Small.no_envelope
                   (st_vault (storage (world (Small.relocked false "000")))))
                ltac:(vm_compute; reflexivity)) as H.
  cbv zeta in H.
  destruct (fst (encryptData _ _ _)) as [e|err] eqn:He;
    [|vm_compute in He; discriminate He].
  change (storage_fault (world (Small.relocked false "000")))
    with (@None string) in H.
  destruct H as (Hr & _ & Hv & _). split; [exact Hr|exact Hv].
Defined.

(** ** More of the handlers, step by step *)

Section Runs.
Context {P : Platform}.

Local Arguments encryptData : simpl never.
Local Arguments persist : simpl never.
Local Arguments startAutoLockTimer : simpl never.

(** [persist] either stores the envelope of the held vault or throws and
    stores nothing; the session is untouched either way. *)
Lemma persist_run m :
  persist m
  = match vault (this m) with
    | None => (Throw "Cannot read properties of null", m)
    | Some v =>
        match encryptData v (masterPassword (this m)) m with
        | (Throw e, m1) => (Throw e, m1)
        | (Ok encrypted, m1) =>
            match storage_fault (world m1) with
            | Some e => (Throw e, m1)
            | None =>
                (Ok encrypted,
                 {| this := this m1;
                    world :=
                      set_storage
                        (put_vault_item encrypted (storage (world m1)))
                        (world m1) |})
            end
        end
    end.
Proof.
  unfold persist, bind, get_this, throw. simpl.
  destruct (vault (this m)) as [v|]; [|reflexivity].
  destruct (encryptData v _ m) as [[encrypted|e] m1]; [|reflexivity].
  unfold storage_local_set, ret.
  destruct (storage_fault (world m1)); reflexivity.
Qed.

Lemma saveCredential_run credential m v :
  isUnlocked (this m) = true →
  vault (this m) = Some v →
  let w := world m in
  let saved :=
    saved_form (clock_tape w (clock_pos w))
      (mathrandom_tape w (mathrandom_pos w))
      (clock_tape w (S (clock_pos w)))
      (clock_tape w (S (S (clock_pos w)))) credential in
  let m1 :=
    {| this :=
         set_vault (Some (set_credentials (credentials v ++ [saved]) v))
           (this m);
       world :=
         set_clock_pos (S (S (S (clock_pos w))))
           (set_mathrandom_pos (S (mathrandom_pos w)) w) |} in
  saveCredential credential m
  = match persist m1 with
    | (Ok encrypted, m2) =>
        (Ok (RSaved saved
               (if truthy_str (kdf encrypted) then default "" (kdf encrypted)
                else "legacy")),
         m2)
    | (Throw e, m2) => (Ok (RError e), m2)
    end.
Proof.
  intros Hu Hv w saved m1. unfold saveCredential.
  unfold bind at 1. unfold get_this at 1. simpl.
  rewrite (locked_guard_false (this m))
    by (split; [exact Hu|rewrite Hv; eauto]).
  unfold try_catch.
  unfold bind at 1. unfold Date_now at 1. simpl.
  unfold bind at 1. unfold Math_random_suffix at 1. simpl.
  unfold bind at 1. unfold Date_now at 1. simpl.
  unfold bind at 1. unfold Date_now at 1. simpl.
  unfold bind at 1. unfold update_credentials, modify_this at 1. simpl.
  rewrite Hv.
  unfold bind, ret.
  change (persist _) with (persist m1).
  destruct (persist m1) as [[e|err] m2]; reflexivity.
Qed.

Lemma deleteCredential_run credentialId m v :
  isUnlocked (this m) = true →
  vault (this m) = Some v →
  deleteCredential credentialId m
  = match
      findIndex (fun cred => bool_decide (cred_id cred = Some credentialId))
        (credentials v)
    with
    | None => (Ok (RError "Credential not found"), m)
    | Some index =>
        let m1 :=
          {| this :=
               set_vault
                 (Some (set_credentials (delete index (credentials v)) v))
                 (this m);
             world := world m |} in
        match persist m1 with
        | (Ok _, m2) => (Ok RSuccess, m2)
        | (Throw e, m2) => (Ok (RError e), m2)
        end
    end.
Proof.
  intros Hu Hv. unfold deleteCredential.
  unfold bind at 1. unfold get_this at 1. simpl.
  rewrite (locked_guard_false (this m))
    by (split; [exact Hu|rewrite Hv; eauto]).
  unfold try_catch.
  unfold bind at 1. unfold get_this at 1. simpl. rewrite Hv. simpl.
  destruct (findIndex _ (credentials v)) as [index|];
    [|destruct m; reflexivity].
  unfold bind at 1. unfold update_credentials, modify_this at 1. simpl.
  rewrite Hv.
  unfold bind, ret.
  destruct (persist _) as [[e|err] m2]; reflexivity.
Qed.

Lemma only_draws_world n m m' :
  only_draws n m m' →
  this m' = this m
  ∧ storage (world m') = storage (world m)
  ∧ storage_fault (world m') = storage_fault (world m)
  ∧ timers (world m') = timers (world m)
  ∧ next_timer (world m') = next_timer (world m)
  ∧ clock_tape (world m') = clock_tape (world m)
  ∧ clock_pos (world m') = clock_pos (world m)
  ∧ notifications (world m') = notifications (world m).
Proof. intros ->. repeat split. Qed.

(** What [persist] does to the machine. *)
Lemma persist_effects m :
  this (snd (persist m)) = this m
  ∧ timers (world (snd (persist m))) = timers (world m)
  ∧ next_timer (world (snd (persist m))) = next_timer (world m)
  ∧ clock_tape (world (snd (persist m))) = clock_tape (world m)
  ∧ clock_pos (world (snd (persist m))) = clock_pos (world m)
  ∧ same_settings (storage (world m)) (storage (world (snd (persist m))))
  ∧ match fst (persist m) with
    | Ok e =>
        st_vault (storage (world (snd (persist m)))) = Some e
        ∧ storage_fault (world m) = None
        ∧ (kdf e = Some "argon2id" → argon2Loaded (this m) = true)
        ∧ ∃ v salt0 iv0,
            vault (this m) = Some v
            ∧ written v (masterPassword (this m)) salt0 iv0 e
    | Throw _ => storage (world (snd (persist m))) = storage (world m)
    end.
Proof.
  rewrite persist_run.
  destruct (vault (this m)) as [v|] eqn:Hv;
    [|simpl; unfold same_settings; auto 10].
  destruct (encryptData_draws v (masterPassword (this m)) m) as [n Hn].
  destruct (only_draws_world _ _ _ Hn)
    as (Ht & Hs & Hf & Hti & Hnt & Hct & Hcp & _).
  destruct (encryptData v (masterPassword (this m)) m)
    as [[e|err] m1] eqn:He; simpl in *.
  - destruct (storage_fault (world m1)) as [msg|] eqn:Hfault; simpl.
    + rewrite Hs. unfold same_settings. auto 10.
    + rewrite Hs. unfold same_settings. simpl.
      repeat (split; [assumption || reflexivity || congruence|]).
      split; [split; reflexivity|]. split; [reflexivity|].
      split; [congruence|]. split.
      * eapply encryptData_argon2id_loaded; eauto.
      * apply encryptData_Ok in He as (k & _ & _ & Hw). eauto.
  - rewrite Hs. unfold same_settings. auto 10.
Qed.

Lemma findIndex_None {A} (p : A → bool) l :
  findIndex p l = None ↔ ∀ x, x ∈ l → p x = false.
Proof.
  induction l as [|a l IH]; simpl.
  - split; [|reflexivity]. intros _ x Hx. inversion Hx.
  - destruct (p a) eqn:Hp.
    + split; [discriminate|]. intros H.
      rewrite (H a) in Hp by left. discriminate.
    + destruct (findIndex p l) as [i|]; simpl.
      * split; [discriminate|]. intros H.
        assert (Hn : Some i = None); [|discriminate Hn].
        apply IH. intros x Hx. apply H. right. exact Hx.
      * split; [|reflexivity]. intros _ x Hx.
        apply elem_of_cons in Hx as [->|Hx]; [exact Hp|].
        apply IH; [reflexivity|exact Hx].
Qed.

End Runs.

(** ** Further properties of the credential store *)

(** X1.  Delete.  On an unlocked session, when some credential has the given
    id, [deleteCredential] removes the first credential with that id from
    the vault in memory and nothing else: the credentials before it and
    after it keep their order, the list is one shorter, and, when the ids of
    the vault are pairwise different, no credential with that id is left.
    The answer is [{success: true}] or the message of a failed save. *)
Theorem deleteCredential_removes {P : Platform} (credentialId : string)
    (m : Machine) (v : Vault) (index : nat) :
  isUnlocked (this m) = true →
  vault (this m) = Some v →
  findIndex (fun cred => bool_decide (cred_id cred = Some credentialId))
    (credentials v) = Some index →
  let m' := snd (deleteCredential credentialId m) in
  let rest := delete index (credentials v) in
  vault (this m') = Some (set_credentials rest v)
  ∧ (∃ old, credentials v !! index = Some old
            ∧ cred_id old = Some credentialId)
  ∧ (∀ j, (j < index)%nat → rest !! j = credentials v !! j)
  ∧ (∀ j, (index ≤ j)%nat → rest !! j = credentials v !! S j)
  ∧ S (List.length rest) = List.length (credentials v)
  ∧ (NoDup (map cred_id (credentials v)) →
     ∀ c, c ∈ rest → cred_id c ≠ Some credentialId)
  ∧ (fst (deleteCredential credentialId m) = Ok RSuccess
     ∨ ∃ message,
         fst (deleteCredential credentialId m) = Ok (RError message)).
Proof.
  intros Hu Hv Hfind m' rest.
  destruct (findIndex_Some _ _ _ Hfind) as (old & Hold & Hid & _).
  apply bool_decide_eq_true in Hid.
  assert (Hrun := deleteCredential_run credentialId m v Hu Hv).
  rewrite Hfind in Hrun. cbv zeta in Hrun.
  assert (Hlt : (index < List.length (credentials v))%nat)
    by (apply lookup_lt_Some in Hold; exact Hold).
  split.
  { unfold m'. rewrite Hrun.
    match goal with
    | |- context [persist ?x] =>
        destruct (persist_effects x) as (Ht & _);
        destruct (persist x) as [[e|err] m2]
    end; simpl in *; rewrite Ht; reflexivity. }
  split; [eauto|].
  split; [intros j Hj; apply list_lookup_delete_lt; exact Hj|].
  split; [intros j Hj; apply list_lookup_delete_ge; exact Hj|].
  split; [unfold rest; rewrite length_delete by eauto; lia|].
  split.
  - intros Hnd c Hc Hcid.
    apply list_elem_of_lookup in Hc as [j Hj].
    assert (Hpos : ∃ k, k ≠ index ∧ credentials v !! k = Some c).
    { destruct (decide (j < index)%nat) as [Hlt'|Hge].
      - exists j. split; [lia|].
        unfold rest in Hj. rewrite list_lookup_delete_lt in Hj by exact Hlt'.
        exact Hj.
      - exists (S j). split; [lia|].
        unfold rest in Hj. rewrite list_lookup_delete_ge in Hj by lia.
        exact Hj. }
    destruct Hpos as (k & Hk & Hkc).
    apply Hk.
    eapply (NoDup_lookup (map cred_id (credentials v)) k index
              (Some credentialId)); [exact Hnd| |].
    + rewrite list_lookup_fmap, Hkc. simpl. rewrite Hcid. reflexivity.
    + rewrite list_lookup_fmap, Hold. simpl. rewrite Hid. reflexivity.
  - rewrite Hrun. destruct (persist _) as [[e|err] m2]; simpl; eauto.
Qed.

Lemma deleteCredential_removes_witness :
  let m' :=
    snd (deleteCredential (P := Small.platform) "1002k3j9x0q2a"
           Scenario.unlocked_machine) in
  vault (this m')
  = Some (set_credentials (delete 0%nat (credentials Scenario.gmail_vault))
            Scenario.gmail_vault).
Proof.
  intros m'.
  refine (proj1 (deleteCredential_removes (P := Small.platform)
                   "1002k3j9x0q2a" Scenario.unlocked_machine
                   Scenario.gmail_vault 0%nat _ _ _)).
  - vm_compute. reflexivity.
  - vm_compute. reflexivity.
  - vm_compute. reflexivity.
Defined.

(** X2.  Unknown id.  On an unlocked session, when no credential of the
    vault has the given id, [deleteCredential] and [updateCredential] answer
    [{error: 'Credential not found'}] and change nothing: not the vault in
    memory, not the storage, not even the clock. *)
Theorem credential_not_found {P : Platform} (m : Machine) (v : Vault) :
  isUnlocked (this m) = true →
  vault (this m) = Some v →
  (∀ credentialId,
     (∀ c, c ∈ credentials v → cred_id c ≠ Some credentialId) →
     deleteCredential credentialId m
     = (Ok (RError "Credential not found"), m))
  ∧ (∀ credential,
       (∀ c, c ∈ credentials v → cred_id c ≠ cred_id credential) →
       updateCredential credential m
       = (Ok (RError "Credential not found"), m)).
Proof.
  intros Hu Hv. split.
  - intros credentialId Hnone.
    rewrite (deleteCredential_run credentialId m v Hu Hv).
    rewrite (proj2 (findIndex_None _ _)); [reflexivity|].
    intros c Hc. apply bool_decide_eq_false. apply Hnone. exact Hc.
  - intros credential Hnone.
    rewrite (updateCredential_run credential m v Hu Hv).
    rewrite (proj2 (findIndex_None _ _)); [reflexivity|].
    intros c Hc. apply bool_decide_eq_false. apply Hnone. exact Hc.
Qed.

Lemma credential_not_found_witness :
  deleteCredential (P := Small.platform) "nobody" Scenario.unlocked_machine
  = (Ok (RError "Credential not found"), Scenario.unlocked_machine).
Proof.
  refine (proj1 (credential_not_found (P := Small.platform)
                   Scenario.unlocked_machine Scenario.gmail_vault _ _)
            "nobody" _).
  - vm_compute. reflexivity.
  - vm_compute. reflexivity.
  - intros c Hc. apply list_elem_of_singleton in Hc as ->. discriminate.
Defined.

(** X3.  Save.  On an unlocked session, [saveCredential] adds exactly one
    credential, at the end of the list; the credentials already there are
    untouched.  The new one has the id made of the clock reading and the
    random suffix, [created] and [modified] from the next two clock
    readings, and the name, username, password, url and email supplied.
    Its domain is the supplied one when that is not empty; otherwise the
    host of the url when there is a url that parses; otherwise it stays as
    supplied. *)
Theorem saveCredential_appends {P : Platform} (credential : Credential)
    (m : Machine) (v : Vault) :
  isUnlocked (this m) = true →
  vault (this m) = Some v →
  let w := world m in
  let m' := snd (saveCredential credential m) in
  ∃ saved,
    vault (this m')
    = Some (set_credentials (credentials v ++ [saved]) v)
    ∧ cred_id saved
      = Some (pretty (clock_tape w (clock_pos w))
              +:+ mathrandom_tape w (mathrandom_pos w))
    ∧ cred_created saved = Some (clock_tape w (S (clock_pos w)))
    ∧ cred_modified saved = Some (clock_tape w (S (S (clock_pos w))))
    ∧ cred_name saved = cred_name credential
    ∧ cred_username saved = cred_username credential
    ∧ cred_password saved = cred_password credential
    ∧ cred_url saved = cred_url credential
    ∧ cred_email saved = cred_email credential
    ∧ (truthy_str (cred_domain credential) = true →
       cred_domain saved = cred_domain credential)
    ∧ (∀ u host,
         truthy_str (cred_domain credential) = false →
         cred_url credential = Some u → u ≠ "" →
         URL_hostname u = Ok host →
         cred_domain saved = Some host)
    ∧ (truthy_str (cred_domain credential) = false →
       (truthy_str (cred_url credential) = false
        ∨ is_Ok (URL_hostname (default "" (cred_url credential))) = false) →
       cred_domain saved = cred_domain credential)
    ∧ (∀ c s, fst (saveCredential credential m) = Ok (RSaved c s) →
         c = saved).
Proof.
  intros Hu Hv w m'.
  pose proof (saveCredential_run credential m v Hu Hv) as Hrun.
  cbv zeta in Hrun. fold w in Hrun.
  set (saved := saved_form _ _ _ _ credential) in Hrun.
  exists saved. split.
  { unfold m'. rewrite Hrun.
    match goal with
    | |- context [persist ?x] =>
        destruct (persist_effects x) as (Ht & _);
        destruct (persist x) as [[e|err] m2]
    end; simpl in *; rewrite Ht; reflexivity. }
  assert (Hfields :
            ∀ f : Credential → option string,
              (∀ d c, f (set_cred_domain d c) = f c) →
              (∀ i a b c, f (stamp i a b c) = f c) →
              f saved = f credential).
  { intros f Hd Hs. unfold saved, saved_form.
    destruct (_ && _); [|apply Hs].
    destruct (URL_hostname _); [rewrite Hd|]; apply Hs. }
  assert (Hid : ∀ (A : Type) (f : Credential → A),
            (∀ d c, f (set_cred_domain d c) = f c) →
            f saved
            = f (stamp (pretty (clock_tape w (clock_pos w))
                        +:+ mathrandom_tape w (mathrandom_pos w))
                   (clock_tape w (S (clock_pos w)))
                   (clock_tape w (S (S (clock_pos w)))) credential)).
  { intros A f Hd. unfold saved, saved_form.
    destruct (_ && _); [|reflexivity].
    destruct (URL_hostname _); [rewrite Hd|]; reflexivity. }
  split; [apply (Hid _ cred_id); reflexivity|].
  split; [apply (Hid _ cred_created); reflexivity|].
  split; [apply (Hid _ cred_modified); reflexivity|].
  split; [apply (Hfields cred_name); reflexivity|].
  split; [apply (Hfields cred_username); reflexivity|].
  split; [apply (Hfields cred_password); reflexivity|].
  split; [apply (Hfields cred_url); reflexivity|].
  split; [apply (Hfields cred_email); reflexivity|].
  split; [|split; [|split]].
  - intros Hd. unfold saved, saved_form. simpl. rewrite Hd. reflexivity.
  - intros u host Hd Hurl Hne Hhost. unfold saved, saved_form. simpl.
    rewrite Hd, Hurl. simpl.
    replace (String.eqb u "") with false
      by (symmetry; apply String.eqb_neq; exact Hne).
    simpl. rewrite Hhost. reflexivity.
  - intros Hd Hor. unfold saved, saved_form. simpl. rewrite Hd. simpl.
    destruct Hor as [Hurl|Hhost].
    + rewrite Hurl. reflexivity.
    + destruct (truthy_str (cred_url credential)); [|reflexivity].
      destruct (URL_hostname _); [discriminate|reflexivity].
  - intros c s. rewrite Hrun.
    destruct (persist _) as [[e|err] m2]; simpl; [|discriminate].
    intros [= <- _]. reflexivity.
Qed.

Lemma saveCredential_appends_witness :
  let m' :=
    snd (saveCredential (P := Small.platform) Scenario.github
           Scenario.unlocked_machine) in
  ∃ saved,
    vault (this m')
    = Some (set_credentials (credentials Scenario.gmail_vault ++ [saved])
              Scenario.gmail_vault)
    ∧ cred_domain saved = Some "github.com".
Proof.
  intros m'.
  destruct (saveCredential_appends (P := Small.platform) Scenario.github
              Scenario.unlocked_machine Scenario.gmail_vault)
    as (saved & Hv & _ & _ & _ & _ & _ & _ & _ & _ & _ & Hhost & _).
  - vm_compute. reflexivity.
  - vm_compute. reflexivity.
  - exists saved. split; [exact Hv|].
    apply (Hhost "https://github.com" "github.com");
      [reflexivity|reflexivity|discriminate|vm_compute; reflexivity].
Defined.

(** X4.  A save that cannot be stored.  On an unlocked session, when
    [saveCredential] answers an error, the storage is exactly as it was,
    but the vault in memory holds the new credential all the same: the
    change is not rolled back.  This is what happens whenever the storage
    rejects the write. *)
Theorem saveCredential_not_rolled_back {P : Platform}
    (credential : Credential) (m : Machine) (v : Vault) :
  isUnlocked (this m) = true →
  vault (this m) = Some v →
  let m' := snd (saveCredential credential m) in
  (is_Some (storage_fault (world m)) →
   ∃ message, fst (saveCredential credential m) = Ok (RError message))
  ∧ (∀ message,
       fst (saveCredential credential m) = Ok (RError message) →
       storage (world m') = storage (world m)
       ∧ ∃ saved,
           vault (this m')
           = Some (set_credentials (credentials v ++ [saved]) v)).
Proof.
  intros Hu Hv m'.
  pose proof (saveCredential_run credential m v Hu Hv) as Hrun.
  cbv zeta in Hrun.
  set (saved := saved_form _ _ _ _ credential) in Hrun.
  unfold m'. rewrite Hrun.
  match goal with
  | |- context [persist ?x] =>
      destruct (persist_effects x) as (Ht & _ & _ & _ & _ & _ & Hres);
      destruct (persist x) as [[e|err] m2]
  end; simpl in *.
  - split.
    + intros [msg Hmsg]. destruct Hres as (_ & Hnone & _). congruence.
    + intros message [=].
  - split; [eauto|]. intros message _.
    split; [exact Hres|]. exists saved. rewrite Ht. reflexivity.
Qed.

Lemma saveCredential_not_rolled_back_witness :
  ∃ message,
    fst (saveCredential (P := Small.platform) Scenario.github
           Scenario.quota_exceeded)
    = Ok (RError message).
Proof.
  refine (proj1 (saveCredential_not_rolled_back (P := Small.platform)
                   Scenario.github Scenario.quota_exceeded
                   Scenario.gmail_vault _ _) _).
  - vm_compute. reflexivity.
  - vm_compute. reflexivity.
  - vm_compute. eauto.
Defined.

(** X5.  What is stored is what is held.  On an unlocked session holding
    the master password, when [saveCredential], [updateCredential] or
    [deleteCredential] answers success, the envelope now in storage was
    written by [encryptData] for the vault now in memory; so, on a platform
    whose AES-GCM decrypts what it encrypted, [decryptVault] with the master
    password gives back exactly the vault in memory (provided [JSON]
    serializes it faithfully). *)
Theorem stored_vault_is_memory_vault {P : Platform} (message : Message)
    (m : Machine) (password : string) :
  aes_gcm_correct →
  is_mutation message = true →
  isUnlocked (this m) = true →
  is_Some (vault (this m)) →
  masterPassword (this m) = Some (Text password) →
  is_success (fst (on_message message m)) = true →
  let m' := snd (on_message message m) in
  ∃ v' e,
    vault (this m') = Some v'
    ∧ st_vault (storage (world m')) = Some e
    ∧ (JSON_serializable v' →
       decryptVault (this m') e (Some (Text password)) = Ok v').
Proof.
  intros Haes Hmut Hu [v Hv] Hpw Hok m'.
  assert (Hgen : ∀ m1 (k : Envelope → Response),
             masterPassword (this m1) = Some (Text password) →
             is_success
               (fst (match persist m1 with
                     | (Ok e, m2) => (k e, m2)
                     | (Throw err, m2) => (RError err, m2)
                     end)) = true →
             ∃ v' e,
               vault (this (snd (persist m1))) = Some v'
               ∧ st_vault (storage (world (snd (persist m1)))) = Some e
               ∧ (JSON_serializable v' →
                  decryptVault (this (snd (persist m1))) e
                    (Some (Text password)) = Ok v')).
  { intros m1 k Hp1 Hs.
    destruct (persist_effects m1) as (Ht & _ & _ & _ & _ & _ & Hres).
    destruct (persist m1) as [[e|err] m2]; simpl in *; [|discriminate].
    destruct Hres as (Hst & _ & Hlib & v' & salt0 & iv0 & Hv' & Hw).
    exists v', e. rewrite Ht. split; [exact Hv'|]. split; [exact Hst|].
    intros Hjson.
    rewrite Hp1 in Hw.
    eapply decryptVault_written; eauto. }
  unfold m'. unfold on_message in *.
  destruct message; try discriminate Hmut; unfold handleMessage in *.
  - rewrite (saveCredential_run _ m v Hu Hv) in *. cbv zeta in *.
    match goal with
    | |- context [persist ?x] =>
        specialize (Hgen x); destruct (persist x) as [[e|err] m2]
    end; simpl in *; [|discriminate].
    apply (Hgen (fun _ => RSuccess)); [exact Hpw|reflexivity].
  - rewrite (deleteCredential_run _ m v Hu Hv) in *.
    destruct (findIndex _ _) as [index|]; [|discriminate].
    cbv zeta in *.
    match goal with
    | |- context [persist ?x] =>
        specialize (Hgen x (fun _ => RSuccess));
        destruct (persist x) as [[e|err] m2]
    end; simpl in *; [|discriminate].
    apply Hgen; [exact Hpw|reflexivity].
  - rewrite (updateCredential_run _ m v Hu Hv) in *.
    destruct (findIndex _ _) as [index|]; [|discriminate].
    cbv zeta in *.
    match goal with
    | |- context [persist ?x] =>
        specialize (Hgen x (fun _ => RSuccess));
        destruct (persist x) as [[e|err] m2]
    end; simpl in *; [|discriminate].
    apply Hgen; [exact Hpw|reflexivity].
Qed.

Lemma stored_vault_is_memory_vault_witness :
  let m' :=
    snd (on_message (P := Small.platform) (SAVE_CREDENTIAL Scenario.github)
           Scenario.unlocked_machine) in
  ∃ v' e,
    vault (this m') = Some v'
    ∧ st_vault (storage (world m')) = Some e
    ∧ (JSON_serializable (P := Small.platform) v' →
       decryptVault (P := Small.platform) (this m') e
         (Some (Text "Secret123!")) = Ok v').
Proof.
  refine (stored_vault_is_memory_vault (P := Small.platform)
            (SAVE_CREDENTIAL Scenario.github) Scenario.unlocked_machine
            "Secret123!" SmallFacts.correct eq_refl _ _ _ _).
  - vm_compute. reflexivity.
  - vm_compute. eauto.
  - vm_compute. reflexivity.
  - vm_compute. reflexivity.
Defined.

(** ** Timers and storage along a run *)

Section Discipline.
Context {P : Platform}.

Local Arguments encryptData : simpl never.
Local Arguments persist : simpl never.
Local Arguments startAutoLockTimer : simpl never.

Lemma locked_guard_false_inv (s : Session) :
  locked_guard s = false → isUnlocked s = true ∧ ∃ v, vault s = Some v.
Proof.
  unfold locked_guard. rewrite orb_false_iff, !negb_false_iff.
  intros [Hu Hv]. apply bool_decide_eq_true in Hv as [v Hv]. eauto.
Qed.

Lemma timer_discipline_same m m' :
  same_timers m m' →
  isUnlocked (this m') = isUnlocked (this m) →
  timer_discipline m → timer_discipline m'.
Proof.
  intros (Ht & _ & Ha) Hu [Hheld Hlocked]. split.
  - intros id. rewrite Ht, Ha. apply Hheld.
  - rewrite Hu, Ha. exact Hlocked.
Qed.

Lemma persist_same_timers m : same_timers m (snd (persist m)).
Proof.
  destruct (persist_effects m) as (Ht & Hti & Hnt & _).
  unfold same_timers. rewrite Ht. auto.
Qed.

Lemma startAutoLockTimer_held m :
  timers_held m → timers_held (snd (startAutoLockTimer m)).
Proof.
  unfold timers_held, startAutoLockTimer, bind, get_this, clearTimeout,
    modify_world, modify_this, Date_now, setTimeout, ret.
  simpl. intros H.
  destruct (autoLockTimer (this m)) as [held|] eqn:Hheld; simpl;
    destruct (truthy_num (autoLockDelay (this m))); simpl; intros id.
  - rewrite lookup_insert. case_decide as Hid; [intros _; congruence|].
    rewrite lookup_delete. case_decide as Hid'; [intros [? ?]; discriminate|].
    intros Hsome. apply H in Hsome. congruence.
  - rewrite lookup_delete. case_decide as Hid'; [intros [? ?]; discriminate|].
    intros Hsome. apply H in Hsome. congruence.
  - rewrite lookup_insert. case_decide as Hid; [intros _; congruence|].
    intros Hsome. apply H in Hsome. discriminate.
  - intros Hsome. apply H in Hsome. discriminate.
Qed.

Lemma lockVault_no_timers m :
  timers_held m → ∀ id, timers (world (snd (lockVault m))) !! id = None.
Proof.
  unfold timers_held, lockVault, bind, modify_this, get_this, clearTimeout,
    modify_world, notifyContentScripts, ret.
  simpl. intros H id.
  destruct (autoLockTimer (this m)) as [held|] eqn:Hheld; simpl.
  - rewrite lookup_delete. case_decide as Hid; [reflexivity|].
    destruct (timers (world m) !! id) eqn:Hl; [|reflexivity].
    assert (Hs : Some held = Some id) by (apply H; eauto). congruence.
  - destruct (timers (world m) !! id) eqn:Hl; [|reflexivity].
    assert (Hs : None = Some id) by (apply H; eauto). discriminate.
Qed.

Lemma lockVault_discipline m :
  timers_held m → timer_discipline (snd (lockVault m)).
Proof.
  intros H. split.
  - intros id [d Hd]. rewrite (lockVault_no_timers m H) in Hd. discriminate.
  - intros _.
    unfold lockVault, bind, modify_this, get_this, clearTimeout,
      modify_world, notifyContentScripts, ret.
    simpl. destruct (autoLockTimer (this m)) eqn:Ha; simpl;
      [reflexivity|exact Ha].
Qed.

(** After the session has been marked unlocked, arming the timer and
    notifying keeps the discipline. *)
Lemma arm_discipline m2 :
  timers_held m2 →
  isUnlocked (this m2) = true →
  timer_discipline
    {| this := this (snd (startAutoLockTimer m2));
       world :=
         set_notifications
           (notifications (world (snd (startAutoLockTimer m2)))
            ++ ["VAULT_UNLOCKED"])
           (world (snd (startAutoLockTimer m2))) |}.
Proof.
  intros Hheld Hu.
  destruct (startAutoLockTimer_frame m2) as (_ & Hu' & _).
  split.
  - exact (startAutoLockTimer_held m2 Hheld).
  - simpl. rewrite Hu', Hu. discriminate.
Qed.

Lemma setupVault_discipline masterPassword m :
  timer_discipline m → timer_discipline (snd (setupVault masterPassword m)).
Proof.
  intros Hd. rewrite setupVault_run. cbv zeta.
  match goal with
  | |- context [encryptData ?v ?p ?x] =>
      destruct (encryptData_draws v p x) as [n Hn];
      destruct (encryptData v p x) as [[encrypted|e] m1]
  end; simpl in Hn;
    destruct (only_draws_world _ _ _ Hn) as (Ht & _ & _ & Hti & Hnt & _);
    simpl in Ht, Hti, Hnt.
  - destruct (storage_fault (world m1)); simpl.
    + apply (timer_discipline_same m); [|rewrite Ht; reflexivity|exact Hd].
      unfold same_timers. rewrite Ht. auto.
    + apply arm_discipline; [|reflexivity].
      intros id. simpl. rewrite Hti, Ht. apply Hd.
  - simpl. apply (timer_discipline_same m); [|rewrite Ht; reflexivity|exact Hd].
    unfold same_timers. rewrite Ht. auto.
Qed.

Lemma unlockVault_discipline masterPassword m :
  timer_discipline m → timer_discipline (snd (unlockVault masterPassword m)).
Proof.
  intros Hd. rewrite unlockVault_run.
  destruct (st_vault (storage (world m))); [|exact Hd].
  destruct (decryptVault _ _ _); [|exact Hd].
  cbv zeta. simpl. apply arm_discipline; [|reflexivity].
  intros id. simpl. apply Hd.
Qed.

Lemma updateAutoLock_discipline delay m :
  timer_discipline m → timer_discipline (snd (updateAutoLock delay m)).
Proof.
  intros [Hheld Hlocked]. unfold updateAutoLock.
  unfold bind at 1. unfold modify_this at 1. simpl.
  unfold bind at 1. unfold get_this at 1. simpl.
  unfold bind at 1. unfold storage_local_set at 1. simpl.
  destruct (storage_fault (world m)); simpl; [split; assumption|].
  unfold bind at 1. unfold get_this at 1. simpl.
  destruct (isUnlocked (this m)) eqn:Hun.
  - unfold bind, ret.
    match goal with
    | |- context [startAutoLockTimer ?x] =>
        pose proof (startAutoLockTimer_held x) as Hh;
        destruct (startAutoLockTimer_frame x) as (_ & Hu & _);
        destruct (startAutoLockTimer x) as [[u|e] m3]
    end.
    + simpl in *. split; [apply Hh; exact Hheld|].
      rewrite Hu, Hun. discriminate.
    + simpl in *. split; [apply Hh; exact Hheld|].
      rewrite Hu, Hun. discriminate.
  - unfold bind, ret. simpl. split; [exact Hheld|]. intros _.
    apply Hlocked. reflexivity.
Qed.

Lemma mutation_discipline f (k : Envelope → Response) m :
  timer_discipline m →
  timer_discipline
    (snd (try_catch
            (update_credentials f ;;;
             let* encrypted := persist in ret (k encrypted))
            (fun message => ret (RError message)) m)).
Proof.
  intros Hd. unfold try_catch, bind, ret, update_credentials, modify_this.
  simpl.
  match goal with
  | |- context [persist ?x] =>
      destruct (persist_same_timers x) as (Hti & Hnt & Ha);
      destruct (persist_effects x) as (Ht & _);
      destruct (persist x) as [[enc|e] m2]
  end; simpl in *.
  all: apply (timer_discipline_same m); [| |exact Hd].
  all: try (unfold same_timers; rewrite Hti, Hnt, Ha;
            destruct (vault (this m)); auto).
  all: rewrite Ht; destruct (vault (this m)); reflexivity.
Qed.

Lemma saveCredential_discipline credential m :
  timer_discipline m → timer_discipline (snd (saveCredential credential m)).
Proof.
  intros Hd. unfold saveCredential.
  unfold bind at 1. unfold get_this at 1. simpl.
  destruct (locked_guard (this m)); [exact Hd|].
  unfold try_catch.
  unfold bind at 1. unfold Date_now at 1. simpl.
  unfold bind at 1. unfold Math_random_suffix at 1. simpl.
  unfold bind at 1. unfold Date_now at 1. simpl.
  unfold bind at 1. unfold Date_now at 1. simpl.
  match goal with
  | |- context [update_credentials ?f] =>
      match goal with
      | |- context [ret (RSaved ?c _)] =>
          exact (mutation_discipline f
                   (fun encrypted =>
                      RSaved c
                        (if truthy_str (kdf encrypted)
                         then default "" (kdf encrypted) else "legacy"))
                   {| this := this m;
                      world :=
                        set_clock_pos (S (S (S (clock_pos (world m)))))
                          (set_mathrandom_pos (S (mathrandom_pos (world m)))
                             (world m)) |} Hd)
      end
  end.
Qed.

Lemma deleteCredential_discipline credentialId m :
  timer_discipline m →
  timer_discipline (snd (deleteCredential credentialId m)).
Proof.
  intros Hd. unfold deleteCredential.
  unfold bind at 1. unfold get_this at 1. simpl.
  destruct (locked_guard (this m)); [exact Hd|].
  unfold try_catch.
  unfold bind at 1. unfold get_this at 1. simpl.
  destruct (findIndex _ _) as [index|]; [|exact Hd].
  exact (mutation_discipline (delete index) (fun _ => RSuccess) m Hd).
Qed.

Lemma updateCredential_discipline credential m :
  timer_discipline m →
  timer_discipline (snd (updateCredential credential m)).
Proof.
  intros Hd. unfold updateCredential.
  unfold bind at 1. unfold get_this at 1. simpl.
  destruct (locked_guard (this m)); [exact Hd|].
  unfold try_catch.
  unfold bind at 1. unfold get_this at 1. simpl.
  destruct (findIndex _ _) as [index|]; [|exact Hd].
  unfold bind at 1. unfold Date_now at 1. simpl.
  match goal with
  | |- context [update_credentials ?f] =>
      exact (mutation_discipline f (fun _ => RSuccess)
               {| this := this m;
                  world := set_clock_pos (S (clock_pos (world m))) (world m) |}
               Hd)
  end.
Qed.

Lemma handleMessage_discipline message m :
  timer_discipline m → timer_discipline (snd (handleMessage message m)).
Proof.
  intros Hd. destruct message; unfold handleMessage.
  - apply setupVault_discipline, Hd.
  - apply unlockVault_discipline, Hd.
  - apply lockVault_discipline, Hd.
  - exact Hd.
  - apply saveCredential_discipline, Hd.
  - unfold getCredentials, bind, get_this, ret. simpl.
    destruct (locked_guard (this m)); exact Hd.
  - apply deleteCredential_discipline, Hd.
  - apply updateCredential_discipline, Hd.
  - exact Hd.
  - apply updateAutoLock_discipline, Hd.
  - unfold getRemainingTime, bind, get_this, ret, Date_now. simpl.
    destruct (_ || _); exact Hd.
  - exact Hd.
  - unfold getAllCredentials, bind, get_this, ret. simpl.
    destruct (locked_guard (this m)); exact Hd.
  - unfold searchCredentials, bind, get_this, ret. simpl.
    destruct (_ || _); exact Hd.
  - exact Hd.
  - exact Hd.
Qed.

Lemma step_discipline e m : timer_discipline m → timer_discipline (step e m).
Proof.
  intros Hd. destruct e as [message|id]; simpl.
  - unfold on_message.
    pose proof (handleMessage_discipline message m Hd) as H.
    destruct (handleMessage message m) as [[r|err] m']; exact H.
  - unfold timer_fires.
    destruct (timers (world m) !! id) eqn:Hid; [|exact Hd].
    apply lockVault_discipline. intros id'. simpl.
    rewrite lookup_delete. case_decide; [intros [? ?]; discriminate|].
    apply Hd.
Qed.

Lemma run_app events1 events2 m :
  run (events1 ++ events2) m = run events2 (run events1 m).
Proof. unfold run. apply foldl_app. Qed.

Lemma run_snoc events e m : run (events ++ [e]) m = step e (run events m).
Proof. rewrite run_app. reflexivity. Qed.

Lemma run_discipline events m :
  timer_discipline m → timer_discipline (run events m).
Proof.
  revert m. induction events as [|e events IH]; intros m Hd; [exact Hd|].
  simpl. apply IH, step_discipline, Hd.
Qed.

End Discipline.

Section StorageKept.
Context {P : Platform}.

Local Arguments encryptData : simpl never.
Local Arguments persist : simpl never.
Local Arguments startAutoLockTimer : simpl never.

Lemma storage_kept_refl st : storage_kept st st.
Proof. split; auto. Qed.

Lemma storage_kept_eq st st' : st' = st → storage_kept st st'.
Proof. intros ->. apply storage_kept_refl. Qed.

Lemma storage_kept_trans st1 st2 st3 :
  storage_kept st1 st2 → storage_kept st2 st3 → storage_kept st1 st3.
Proof. intros [H1 H2] [H3 H4]. split; auto. Qed.

Lemma persist_storage_kept m :
  storage_kept (storage (world m)) (storage (world (snd (persist m)))).
Proof.
  destruct (persist_effects m) as (_ & _ & _ & _ & _ & [Hsc _] & Hres).
  destruct (fst (persist m)).
  - destruct Hres as (Hst & _). split.
    + intros _. rewrite Hst. eauto.
    + rewrite Hsc. auto.
  - apply storage_kept_eq, Hres.
Qed.

Lemma mutation_storage_kept f (k : Envelope → Response) m :
  storage_kept (storage (world m))
    (storage
       (world
          (snd (try_catch
                  (update_credentials f ;;;
                   let* encrypted := persist in ret (k encrypted))
                  (fun message => ret (RError message)) m)))).
Proof.
  unfold try_catch, bind, ret, update_credentials, modify_this. simpl.
  match goal with
  | |- context [persist ?x] =>
      pose proof (persist_storage_kept x) as H;
      destruct (persist x) as [[enc|e] m2]
  end; exact H.
Qed.

Lemma handleMessage_storage_kept message m :
  storage_kept (storage (world m))
    (storage (world (snd (handleMessage message m)))).
Proof.
  destruct message; unfold handleMessage;
    try apply storage_kept_refl.
  - rewrite setupVault_run. cbv zeta.
    match goal with
    | |- context [encryptData ?v ?p ?x] =>
        destruct (encryptData_draws v p x) as [n Hn];
        destruct (encryptData v p x) as [[encrypted|e] m1]
    end; simpl in Hn;
      destruct (only_draws_world _ _ _ Hn) as (_ & Hs & _); simpl in Hs.
    + destruct (storage_fault (world m1)); simpl.
      * apply storage_kept_eq, Hs.
      * match goal with
        | |- context [startAutoLockTimer ?x] =>
            destruct (startAutoLockTimer_frame x) as (_ & _ & _ & Hsto & _)
        end.
        rewrite Hsto. simpl. split; [eauto|reflexivity].
    + apply storage_kept_eq, Hs.
  - rewrite unlockVault_run.
    destruct (st_vault (storage (world m))); [|apply storage_kept_refl].
    destruct (decryptVault _ _ _); [|apply storage_kept_refl].
    cbv zeta. simpl.
    match goal with
    | |- context [startAutoLockTimer ?x] =>
        destruct (startAutoLockTimer_frame x) as (_ & _ & _ & Hsto & _)
    end.
    apply storage_kept_eq, Hsto.
  - unfold lockVault, bind, modify_this, get_this, clearTimeout,
      modify_world, notifyContentScripts, ret.
    simpl. destruct (autoLockTimer (this m)); apply storage_kept_refl.
  - unfold saveCredential.
    unfold bind at 1. unfold get_this at 1. simpl.
    destruct (locked_guard (this m)); [apply storage_kept_refl|].
    unfold try_catch.
    unfold bind at 1. unfold Date_now at 1. simpl.
    unfold bind at 1. unfold Math_random_suffix at 1. simpl.
    unfold bind at 1. unfold Date_now at 1. simpl.
    unfold bind at 1. unfold Date_now at 1. simpl.
    match goal with
    | |- context [update_credentials ?f] =>
        match goal with
        | |- context [ret (RSaved ?c _)] =>
            exact (mutation_storage_kept f
                     (fun encrypted =>
                        RSaved c
                          (if truthy_str (kdf encrypted)
                           then default "" (kdf encrypted) else "legacy"))
                     {| this := this m;
                        world :=
                          set_clock_pos (S (S (S (clock_pos (world m)))))
                            (set_mathrandom_pos
                               (S (mathrandom_pos (world m))) (world m)) |})
        end
    end.
  - unfold getCredentials, bind, get_this, ret. simpl.
    destruct (locked_guard (this m)); apply storage_kept_refl.
  - unfold deleteCredential.
    unfold bind at 1. unfold get_this at 1. simpl.
    destruct (locked_guard (this m)); [apply storage_kept_refl|].
    unfold try_catch.
    unfold bind at 1. unfold get_this at 1. simpl.
    destruct (findIndex _ _) as [index|]; [|apply storage_kept_refl].
    exact (mutation_storage_kept (delete index) (fun _ => RSuccess) m).
  - unfold updateCredential.
    unfold bind at 1. unfold get_this at 1. simpl.
    destruct (locked_guard (this m)); [apply storage_kept_refl|].
    unfold try_catch.
    unfold bind at 1. unfold get_this at 1. simpl.
    destruct (findIndex _ _) as [index|]; [|apply storage_kept_refl].
    unfold bind at 1. unfold Date_now at 1. simpl.
    match goal with
    | |- context [update_credentials ?f] =>
        exact (mutation_storage_kept f (fun _ => RSuccess)
                 {| this := this m;
                    world :=
                      set_clock_pos (S (clock_pos (world m))) (world m) |})
    end.
  - unfold updateAutoLock.
    unfold bind at 1. unfold modify_this at 1. simpl.
    unfold bind at 1. unfold get_this at 1. simpl.
    unfold bind at 1. unfold storage_local_set at 1. simpl.
    destruct (storage_fault (world m)); simpl; [apply storage_kept_refl|].
    unfold bind at 1. unfold get_this at 1. simpl.
    destruct (isUnlocked (this m)).
    + unfold bind, ret.
      match goal with
      | |- context [startAutoLockTimer ?x] =>
          destruct (startAutoLockTimer_frame x) as (_ & _ & _ & Hsto & _);
          destruct (startAutoLockTimer x) as [[u|e] m3]
      end; simpl in *; rewrite Hsto; split; auto.
    + unfold bind, ret. simpl. split; auto.
  - unfold getRemainingTime, bind, get_this, ret, Date_now. simpl.
    destruct (_ || _); apply storage_kept_refl.
  - unfold getAllCredentials, bind, get_this, ret. simpl.
    destruct (locked_guard (this m)); apply storage_kept_refl.
  - unfold searchCredentials, bind, get_this, ret. simpl.
    destruct (_ || _); apply storage_kept_refl.
Qed.

Lemma step_storage_kept e m :
  storage_kept (storage (world m)) (storage (world (step e m))).
Proof.
  destruct e as [message|id]; simpl.
  - unfold on_message.
    pose proof (handleMessage_storage_kept message m) as H.
    destruct (handleMessage message m) as [[r|err] m']; exact H.
  - unfold timer_fires.
    destruct (timers (world m) !! id); [|apply storage_kept_refl].
    unfold lockVault, bind, modify_this, get_this, clearTimeout,
      modify_world, notifyContentScripts, ret.
    simpl. destruct (autoLockTimer (this m)); apply storage_kept_refl.
Qed.

End StorageKept.

(** ** Invariants of a run *)

(** X6.  Locked or unlocked, nothing in between.  Start the script and let
    it handle any messages and timer expiries, where every [SETUP_VAULT]
    and [UNLOCK_VAULT] carries a string as its master password.  Then
    either [isUnlocked] is false and [vault] and [masterPassword] are both
    [null], or [isUnlocked] is true, a vault is held and the master
    password held is a string. *)
Theorem session_settled {P : Platform} (events : list Event)
    (argon2_ok : bool) (w : World) :
  Forall (event_carries is_text) events →
  let m := run events (initial argon2_ok w) in
  (isUnlocked (this m) = false
   ∧ vault (this m) = None ∧ masterPassword (this m) = None)
  ∨ (isUnlocked (this m) = true
     ∧ is_Some (vault (this m))
     ∧ ∃ pw, masterPassword (this m) = Some (Text pw)).
Proof.
  intros Hall m. change (settled (this m)).
  apply (run_settled_with is_text); [exact Hall|].
  left. apply initial_locked.
Qed.

Lemma session_settled_witness :
  let m :=
    run (P := Small.platform)
      [Receive (SETUP_VAULT (Some (Text "Secret123!")));
       Receive (SAVE_CREDENTIAL Small.gmail)]
      (initial false (Small.sample_world "000")) in
  (isUnlocked (this m) = false
   ∧ vault (this m) = None ∧ masterPassword (this m) = None)
  ∨ (isUnlocked (this m) = true
     ∧ is_Some (vault (this m))
     ∧ ∃ pw, masterPassword (this m) = Some (Text pw)).
Proof.
  refine (session_settled (P := Small.platform)
            [Receive (SETUP_VAULT (Some (Text "Secret123!")));
             Receive (SAVE_CREDENTIAL Small.gmail)]
            false (Small.sample_world "000") _).
  constructor; [simpl; eexists; reflexivity|].
  constructor; [exact I|constructor].
Defined.

(** X7.  One auto-lock timer.  Start the script in a world without pending
    timers and let it handle any messages and timer expiries.  Then every
    pending timer is the one held in [autoLockTimer], so at most one is
    pending; while [isUnlocked] is false none is pending, so no timer can
    fire after the vault has been locked by other means; and when the
    pending timer fires, the session is locked and no timer is left. *)
Theorem auto_lock_timer_discipline {P : Platform} (events : list Event)
    (argon2_ok : bool) (w : World) :
  timers w = ∅ →
  let m := run events (initial argon2_ok w) in
  (∀ id, is_Some (timers (world m) !! id) → autoLockTimer (this m) = Some id)
  ∧ (∀ id1 id2,
       is_Some (timers (world m) !! id1) →
       is_Some (timers (world m) !! id2) → id1 = id2)
  ∧ (isUnlocked (this m) = false → timers (world m) = ∅)
  ∧ (∀ id,
       is_Some (timers (world m) !! id) →
       locked (this (step (Fire id) m))
       ∧ timers (world (step (Fire id) m)) = ∅).
Proof.
  intros Hw m.
  assert (Hd : timer_discipline m).
  { apply run_discipline. split.
    - intros id [d Hd]. simpl in Hd. rewrite Hw, lookup_empty in Hd.
      discriminate.
    - reflexivity. }
  destruct Hd as [Hheld Hlocked].
  split; [exact Hheld|]. split; [|split].
  - intros id1 id2 H1 H2. apply Hheld in H1, H2. congruence.
  - intros Hu. apply map_empty. intros id.
    destruct (timers (world m) !! id) eqn:Hid; [|reflexivity].
    assert (Hs : autoLockTimer (this m) = Some id) by (apply Hheld; eauto).
    rewrite (Hlocked Hu) in Hs. discriminate.
  - intros id [d Hid]. simpl. unfold timer_fires. rewrite Hid.
    split; [apply lockVault_locked|].
    apply map_empty. apply lockVault_no_timers.
    intros id'. simpl.
    rewrite lookup_delete. case_decide; [intros [? ?]; discriminate|].
    apply Hheld.
Qed.

Lemma auto_lock_timer_discipline_witness :
  let m :=
    run (P := Small.platform)
      [Receive (SETUP_VAULT (Some (Text "Secret123!")))]
      (initial false (Small.sample_world "000")) in
  (∀ id, is_Some (timers (world m) !! id) → autoLockTimer (this m) = Some id)
  ∧ (∀ id1 id2,
       is_Some (timers (world m) !! id1) →
       is_Some (timers (world m) !! id2) → id1 = id2)
  ∧ (isUnlocked (this m) = false → timers (world m) = ∅)
  ∧ (∀ id,
       is_Some (timers (world m) !! id) →
       locked (this (step (P := Small.platform) (Fire id) m))
       ∧ timers (world (step (P := Small.platform) (Fire id) m)) = ∅).
Proof.
  exact (auto_lock_timer_discipline (P := Small.platform)
           [Receive (SETUP_VAULT (Some (Text "Secret123!")))] false
           (Small.sample_world "000") eq_refl).
Defined.

(** X8.  The stored vault is never removed.  Whatever messages are handled
    and whatever timers expire, a vault that is in storage stays in storage
    (it may be replaced by another envelope) and [setupCompleted], once set,
    stays set: the script has no operation that deletes them. *)
Theorem stored_vault_never_removed {P : Platform} (events : list Event)
    (m : Machine) :
  (is_Some (st_vault (storage (world m))) →
   is_Some (st_vault (storage (world (run events m)))))
  ∧ (st_setupCompleted (storage (world m)) = true →
     st_setupCompleted (storage (world (run events m))) = true).
Proof.
  change (storage_kept (storage (world m)) (storage (world (run events m)))).
  revert m. induction events as [|e events IH]; intros m.
  - apply storage_kept_refl.
  - simpl. eapply storage_kept_trans; [apply step_storage_kept|apply IH].
Qed.

(** ** Unlocking *)

Section Unlocking.
Context {P : Platform}.

Local Arguments encryptData : simpl never.
Local Arguments persist : simpl never.

Lemma startAutoLockTimer_argon2 m :
  argon2Loaded (this (snd (startAutoLockTimer m))) = argon2Loaded (this m).
Proof.
  unfold startAutoLockTimer, bind, get_this, clearTimeout, modify_world,
    modify_this, Date_now, setTimeout, ret.
  simpl.
  destruct (autoLockTimer (this m)); simpl;
    destruct (truthy_num (autoLockDelay (this m))); reflexivity.
Qed.

Lemma lockVault_keeps m :
  argon2Loaded (this (snd (lockVault m))) = argon2Loaded (this m)
  ∧ autoLockDelay (this (snd (lockVault m))) = autoLockDelay (this m)
  ∧ storage (world (snd (lockVault m))) = storage (world m).
Proof.
  unfold lockVault, bind, modify_this, get_this, clearTimeout, modify_world,
    notifyContentScripts, ret.
  simpl. destruct (autoLockTimer (this m)); repeat split.
Qed.

(** What a successful [unlockVault] leaves, in terms of the timer. *)
Lemma startAutoLockTimer_armed m :
  let m' := snd (startAutoLockTimer m) in
  if truthy_num (autoLockDelay (this m)) then
    unlockTime (this m') = Some (clock_tape (world m) (clock_pos (world m)))
    ∧ autoLockTimer (this m') = Some (next_timer (world m))
    ∧ timers (world m') !! next_timer (world m)
      = Some (default 0 (autoLockDelay (this m)))
    ∧ clock_pos (world m') = S (clock_pos (world m))
  else
    unlockTime (this m') = unlockTime (this m)
    ∧ autoLockTimer (this m') = None
    ∧ clock_pos (world m') = clock_pos (world m).
Proof.
  unfold startAutoLockTimer, bind, get_this, clearTimeout, modify_world,
    modify_this, Date_now, setTimeout, ret.
  simpl.
  destruct (autoLockTimer (this m)) eqn:Ha; simpl;
    destruct (truthy_num (autoLockDelay (this m))); simpl;
    repeat split; try apply lookup_insert_eq; try exact Ha.
Qed.

(** What a successful [setupVault] leaves. *)
Lemma setupVault_success (password : option Passphrase) m security :
  fst (setupVault password m) = Ok (RSetup security) →
  ∃ v e salt0 iv0,
    credentials v = []
    ∧ written v password salt0 iv0 e
    ∧ (kdf e = Some "argon2id" → argon2Loaded (this m) = true)
    ∧ vault (this (snd (setupVault password m))) = Some v
    ∧ masterPassword (this (snd (setupVault password m))) = password
    ∧ isUnlocked (this (snd (setupVault password m))) = true
    ∧ argon2Loaded (this (snd (setupVault password m)))
      = argon2Loaded (this m)
    ∧ st_vault (storage (world (snd (setupVault password m)))) = Some e.
Proof.
  rewrite setupVault_run. cbv zeta.
  set (v := {| credentials := []; created := _; version := _;
               security := _ |}).
  destruct (encryptData_draws v password (snd (Date_now m))) as [n Hn].
  pose proof (encryptData_argon2id_loaded v password (snd (Date_now m)))
    as Hlib.
  pose proof (encryptData_Ok v password (snd (Date_now m))) as Hw.
  destruct (encryptData v password (snd (Date_now m))) as [[e|err] m0];
    [|discriminate].
  simpl in Hn. destruct (only_draws_world _ _ _ Hn) as (Ht0 & _).
  simpl in Ht0.
  destruct (Hw e m0 eq_refl) as (k & _ & _ & Hwritten).
  specialize (Hlib e m0 eq_refl). simpl in Hlib.
  destruct (storage_fault (world m0)); [discriminate|].
  intros _. simpl.
  match goal with
  | |- context [startAutoLockTimer ?x] =>
      destruct (startAutoLockTimer_frame x) as (Hv & Hu & Hp & Hsto & _);
      pose proof (startAutoLockTimer_argon2 x) as Ha
  end.
  exists v, e. eexists _, _. rewrite Hv, Hu, Hp, Ha, Hsto. simpl.
  rewrite Ht0.
  repeat split; [exact Hwritten|exact Hlib].
Qed.

End Unlocking.

Lemma unlockVault_outcomes_aux {P : Platform}
    (password : option Passphrase) m e v :
  st_vault (storage (world m)) = Some e →
  decryptVault (this m) e password = Ok v →
  fst (unlockVault password m) = Ok (RUnlocked v)
  ∧ vault (this (snd (unlockVault password m))) = Some v
  ∧ masterPassword (this (snd (unlockVault password m))) = password
  ∧ isUnlocked (this (snd (unlockVault password m))) = true.
Proof.
  intros Hst Hdec. rewrite unlockVault_run, Hst, Hdec. cbv zeta. simpl.
  match goal with
  | |- context [startAutoLockTimer ?x] =>
      destruct (startAutoLockTimer_frame x) as (Hv & Hu & Hp & _)
  end.
  rewrite Hv, Hu, Hp. simpl. auto.
Qed.

(** X9.  Unlock.  With no vault in storage, [unlockVault] answers
    [{error: 'No vault found'}] and changes nothing.  With a stored envelope
    that [decryptVault] opens with the given passphrase, it answers
    [{success: true, vault}] with the decrypted vault, and the session is
    unlocked and holds that vault and that passphrase; the storage is
    untouched.  If an auto-lock delay is set, one timer with that delay is
    armed and [unlockTime] is the clock reading; if the delay is [null] (or
    0), no timer is armed. *)
Theorem unlockVault_outcomes {P : Platform} (password : string) (m : Machine) :
  (st_vault (storage (world m)) = None →
   unlockVault (Some (Text password)) m = (Ok (RError "No vault found"), m))
  ∧ (∀ e v,
       st_vault (storage (world m)) = Some e →
       decryptVault (this m) e (Some (Text password)) = Ok v →
       let m' := snd (unlockVault (Some (Text password)) m) in
       fst (unlockVault (Some (Text password)) m) = Ok (RUnlocked v)
       ∧ vault (this m') = Some v
       ∧ masterPassword (this m') = Some (Text password)
       ∧ isUnlocked (this m') = true
       ∧ storage (world m') = storage (world m)
       ∧ (truthy_num (autoLockDelay (this m)) = true →
          unlockTime (this m')
          = Some (clock_tape (world m) (clock_pos (world m)))
          ∧ ∃ id, autoLockTimer (this m') = Some id
                  ∧ timers (world m') !! id
                    = Some (default 0 (autoLockDelay (this m))))
       ∧ (truthy_num (autoLockDelay (this m)) = false →
          autoLockTimer (this m') = None)).
Proof.
  split.
  - intros Hst. rewrite unlockVault_run, Hst. reflexivity.
  - intros e v Hst Hdec m'. unfold m'.
    rewrite unlockVault_run, Hst, Hdec. cbv zeta. simpl.
    match goal with
    | |- context [startAutoLockTimer ?x] =>
        destruct (startAutoLockTimer_frame x) as (Hv & Hu & Hp & Hsto & _);
        pose proof (startAutoLockTimer_armed x) as Harm
    end.
    cbv zeta in Harm. simpl in Harm.
    split; [reflexivity|]. split; [rewrite Hv; reflexivity|].
    split; [rewrite Hp; reflexivity|]. split; [rewrite Hu; reflexivity|].
    split; [rewrite Hsto; reflexivity|].
    destruct (truthy_num (autoLockDelay (this m))).
    + destruct Harm as (Hut & Ha & Ht & _).
      split; [|discriminate]. intros _. split; [exact Hut|eauto].
    + destruct Harm as (_ & Ha & _). split; [discriminate|auto].
Qed.

Lemma unlockVault_outcomes_witness :
  unlockVault (P := Small.platform) (Some (Text "Secret123!"))
    (initial false (Small.sample_world "000"))
  = (Ok (RError "No vault found"), initial false (Small.sample_world "000")).
Proof.
  exact (proj1 (unlockVault_outcomes (P := Small.platform) "Secret123!"
                  (initial false (Small.sample_world "000"))) eq_refl).
Defined.

(** X10.  Setup, lock, unlock.  When [setupVault] succeeds, then after
    [lockVault] the same passphrase unlocks again: [unlockVault] answers
    [{success: true, vault}] with the empty vault that the setup created,
    and the session is unlocked on it.  (On a platform whose AES-GCM
    decrypts what it encrypted, for a vault that [JSON] serializes
    faithfully.) *)
Theorem setup_lock_unlock {P : Platform} (password : string) (m : Machine)
    (security : string) :
  aes_gcm_correct →
  fst (setupVault (Some (Text password)) m) = Ok (RSetup security) →
  let m1 := snd (setupVault (Some (Text password)) m) in
  let m2 := snd (lockVault m1) in
  let m3 := snd (unlockVault (Some (Text password)) m2) in
  ∃ v,
    vault (this m1) = Some v
    ∧ credentials v = []
    ∧ locked (this m2)
    ∧ (JSON_serializable v →
       fst (unlockVault (Some (Text password)) m2) = Ok (RUnlocked v)
       ∧ vault (this m3) = Some v
       ∧ masterPassword (this m3) = Some (Text password)
       ∧ isUnlocked (this m3) = true).
Proof.
  intros Haes Hok m1 m2 m3.
  destruct (setupVault_success (Some (Text password)) m security Hok)
    as (v & e & salt0 & iv0 & Hcreds & Hw & Hlib & Hv1 & _ & _ & Ha1 & Hs1).
  fold m1 in Hv1, Ha1, Hs1. clearbody m1.
  destruct (lockVault_keeps m1) as (Ha2 & _ & Hs2).
  pose proof (lockVault_locked m1) as Hlocked.
  fold m2 in Ha2, Hs2, Hlocked. clearbody m2.
  exists v. split; [exact Hv1|]. split; [exact Hcreds|].
  split; [exact Hlocked|].
  intros Hjson.
  assert (Hdec : decryptVault (this m2) e (Some (Text password)) = Ok v).
  { eapply decryptVault_written; eauto;
      intros Hk; rewrite Ha2, Ha1; apply Hlib; exact Hk. }
  assert (Hst2 : st_vault (storage (world m2)) = Some e)
    by (rewrite Hs2; exact Hs1).
  destruct (unlockVault_outcomes_aux (Some (Text password)) m2 e v Hst2 Hdec)
    as (Hr & Hv & Hp & Hu).
  auto.
Qed.

Lemma setup_lock_unlock_witness :
  let m1 :=
    snd (setupVault (P := Small.platform) (Some (Text "Secret123!"))
           (initial false (Small.sample_world "000"))) in
  let m2 := snd (lockVault m1) in
  let m3 := snd (unlockVault (P := Small.platform) (Some (Text "Secret123!"))
              m2) in
  ∃ v,
    vault (this m1) = Some v
    ∧ credentials v = []
    ∧ locked (this m2)
    ∧ (JSON_serializable (P := Small.platform) v →
       fst (unlockVault (P := Small.platform) (Some (Text "Secret123!"))
              m2)
       = Ok (RUnlocked v)
       ∧ vault (this m3) = Some v
       ∧ masterPassword (this m3) = Some (Text "Secret123!")
       ∧ isUnlocked (this m3) = true).
Proof.
  refine (setup_lock_unlock (P := Small.platform) "Secret123!"
            (initial false (Small.sample_world "000")) "enhanced-pbkdf2"
            SmallFacts.correct _).
  vm_compute. reflexivity.
Defined.

(** X11.  An Argon2id vault without the Argon2 library.  In a session
    where the library failed to load, every stored envelope tagged
    [argon2id] is refused whatever the passphrase, the right one included:
    [decryptVault] throws without deriving any key, and [unlockVault]
    answers [{error: 'Invalid password'}], leaving the machine as it was.
    An envelope tagged [argon2id] or [enhanced-pbkdf2] that lacks its
    [kdfParams] is refused in the same way. *)
Theorem undecryptable_envelopes {P : Platform} (e : Envelope)
    (password : string) (m : Machine) :
  st_vault (storage (world m)) = Some e →
  (kdf e = Some "argon2id" ∧ argon2Loaded (this m) = false)
  ∨ ((kdf e = Some "argon2id" ∨ kdf e = Some "enhanced-pbkdf2")
     ∧ kdfParams e = None) →
  is_Ok (decryptVault (this m) e (Some (Text password))) = false
  ∧ unlockVault (Some (Text password)) m = (Ok (RError "Invalid password"), m).
Proof.
  intros Hst Hcase.
  assert (Hdec : is_Ok (decryptVault (this m) e (Some (Text password)))
                 = false).
  { unfold decryptVault.
    destruct Hcase as [[Hk Hlib]|[[Hk|Hk] Hp]]; rewrite Hk; simpl.
    - unfold decryptDataWithArgon2. rewrite Hlib. reflexivity.
    - unfold decryptDataWithArgon2, params_of. rewrite Hp.
      destruct (argon2Loaded (this m)); reflexivity.
    - unfold decryptDataWithEnhancedPBKDF2, params_of. rewrite Hp.
      reflexivity. }
  split; [exact Hdec|].
  rewrite unlockVault_run, Hst.
  destruct (decryptVault (this m) e (Some (Text password)));
    [discriminate|reflexivity].
Qed.

Lemma undecryptable_envelopes_witness :
  let e :=
    Small.envelope_of
      (encryptData (P := Small.platform) Small.sample_vault
         (Some (Text "Secret123!")) (Small.fresh true "000")) in
  unlockVault (P := Small.platform) (Some (Text "Secret123!"))
    (Small.locked_with e)
  = (Ok (RError "Invalid password"), Small.locked_with e).
Proof.
  intros e.
  refine (proj2 (undecryptable_envelopes (P := Small.platform) e
                   "Secret123!" (Small.locked_with e) eq_refl _)).
  left. split; vm_compute; reflexivity.
Defined.

(** ** The shape of the envelopes *)

Section Shapes.
Context {P : Platform}.

Lemma Array_from_length (u : bytes) :
  List.length (Array_from u) = List.length u.
Proof. unfold Array_from. apply length_map. Qed.

Lemma Array_from_bytes (u : bytes) : Forall is_byte (Array_from u).
Proof.
  unfold Array_from. apply Forall_forall. intros z Hz.
  apply list_elem_of_fmap in Hz as (b & -> & _).
  pose proof (Byte.to_N_bounded b). unfold is_byte. lia.
Qed.

Lemma encryptDataWithEnhancedPBKDF2_tag data password m e m' :
  encryptDataWithEnhancedPBKDF2 data password m = (Ok e, m') →
  env_version e = "2.0"
  ∧ kdf e = Some "enhanced-pbkdf2"
  ∧ kdfParams e = Some (pbkdf2_params 250000).
Proof.
  unfold encryptDataWithEnhancedPBKDF2, bind, getRandomValues, lift, ret.
  simpl.
  destruct (pbkdf2_deriveKey _ _ _ _) as [key|]; [|discriminate]. simpl.
  destruct (aes_gcm_encrypt _ _ _) as [ct|]; [|discriminate].
  intros [= <- _]. repeat split.
Qed.

Lemma encryptData_tag data password m e m' :
  encryptData data password m = (Ok e, m') →
  env_version e = "2.0"
  ∧ ((kdf e = Some "argon2id"
      ∧ argon2Loaded (this m) = true
      ∧ kdfParams e = Some (argon2_params (argon2Params (this m))))
     ∨ (kdf e = Some "enhanced-pbkdf2"
        ∧ kdfParams e = Some (pbkdf2_params 250000))).
Proof.
  unfold encryptData, bind, get_this. simpl.
  destruct (argon2Loaded (this m)) eqn:Hlib.
  - unfold encryptDataWithArgon2, try_catch.
    unfold bind at 1. unfold getRandomValues at 1. simpl.
    unfold bind at 1. unfold get_this at 1. simpl.
    unfold bind at 1. unfold lift at 1. simpl.
    destruct (argon2_hash _ _ _ _ _ _) as [key|].
    + unfold bind at 1. unfold getRandomValues at 1. simpl.
      unfold bind at 1. unfold lift at 1. simpl.
      destruct (aes_gcm_encrypt _ _ _) as [ct|].
      * unfold ret. intros [= <- _]. split; [reflexivity|].
        left. repeat split.
      * intros H. apply encryptDataWithEnhancedPBKDF2_tag in H.
        destruct H as (Hv & Hk & Hp). auto.
    + intros H. apply encryptDataWithEnhancedPBKDF2_tag in H.
      destruct H as (Hv & Hk & Hp). auto.
  - intros H. destruct m as [s w]. simpl in H.
    apply encryptDataWithEnhancedPBKDF2_tag in H.
    destruct H as (Hv & Hk & Hp). auto.
Qed.

End Shapes.

(** X12.  What [encryptData] returns.  Every envelope it returns has
    version ['2.0'], a salt of 32 numbers and an IV of 12 numbers, all of
    them (and those of the ciphertext) bytes, and carries the tag of the
    derivation that was used together with its parameters: [argon2id] with
    the session's time, memory, parallelism and hash length, which happens
    only when the library is loaded, or [enhanced-pbkdf2] with 250000
    iterations, also after a failed Argon2 attempt.  No envelope leaves
    untagged. *)
Theorem encryptData_envelope {P : Platform} (data : Vault) (password : string)
    (m m' : Machine) (e : Envelope) :
  encryptData data (Some (Text password)) m = (Ok e, m') →
  env_version e = "2.0"
  ∧ List.length (salt e) = 32%nat
  ∧ List.length (iv e) = 12%nat
  ∧ Forall is_byte (salt e)
  ∧ Forall is_byte (iv e)
  ∧ Forall is_byte (encrypted e)
  ∧ ((kdf e = Some "argon2id"
      ∧ argon2Loaded (this m) = true
      ∧ kdfParams e = Some (argon2_params (argon2Params (this m))))
     ∨ (kdf e = Some "enhanced-pbkdf2"
        ∧ kdfParams e = Some (pbkdf2_params 250000))).
Proof.
  intros H. destruct (encryptData_tag _ _ _ _ _ H) as [Hver Htag].
  apply encryptData_Ok in H as (n & _ & _ & Hw).
  apply written_fields in Hw as (Hs & Hi & key & ct & _ & He).
  rewrite Hs, Hi, He, !Array_from_length.
  unfold salt_drawn, iv_drawn. rewrite !tape_window_length.
  repeat (split; [reflexivity || apply Array_from_bytes || exact Hver|]).
  exact Htag.
Qed.

Lemma encryptData_envelope_witness :
  let r :=
    encryptData (P := Small.platform) Small.sample_vault
      (Some (Text "Secret123!")) (Small.fresh true "000") in
  kdf (Small.envelope_of r) = Some "argon2id"
  ∧ List.length (salt (Small.envelope_of r)) = 32%nat.
Proof.
  intros r.
  assert (H : encryptData (P := Small.platform) Small.sample_vault
                (Some (Text "Secret123!")) (Small.fresh true "000")
              = (Ok (Small.envelope_of r), snd r))
    by (vm_compute; reflexivity).
  destruct (encryptData_envelope (P := Small.platform) _ _ _ _ _ H)
    as (_ & Hs & _).
  split; [vm_compute; reflexivity|exact Hs].
Defined.

(** X13.  Upgrade on the next save.  On an unlocked session, whatever
    envelope is in storage (a legacy one, say), a [saveCredential] that
    succeeds reports the security ['argon2id'] or ['enhanced-pbkdf2'],
    never ['legacy'], and the envelope then in storage carries that tag;
    without the Argon2 library it is ['enhanced-pbkdf2']. *)
Theorem save_upgrades_envelope {P : Platform} (credential saved : Credential)
    (security : string) (m : Machine) :
  isUnlocked (this m) = true →
  is_Some (vault (this m)) →
  fst (saveCredential credential m) = Ok (RSaved saved security) →
  (security = "argon2id" ∨ security = "enhanced-pbkdf2")
  ∧ (argon2Loaded (this m) = false → security = "enhanced-pbkdf2")
  ∧ kdf <$> st_vault (storage (world (snd (saveCredential credential m))))
    = Some (Some security).
Proof.
  intros Hu [v Hv].
  rewrite (saveCredential_run credential m v Hu Hv). cbv zeta.
  match goal with
  | |- context [persist ?x] =>
      pose proof (persist_run x) as Hrun;
      destruct (persist_effects x) as (_ & _ & _ & _ & _ & _ & Hres);
      destruct (persist x) as [[e|err] m2]
  end; simpl in *; [|discriminate].
  destruct Hres as (Hst & _).
  destruct (encryptData _ _ _) as [[e0|err] m1] eqn:He; [|discriminate].
  destruct (storage_fault (world m1)); [discriminate|].
  injection Hrun as <- _.
  apply encryptData_tag in He as (_ & Htag). simpl in Htag.
  intros [= _ <-]. rewrite Hst. simpl.
  destruct Htag as [(Hk & Hlib & _)|(Hk & _)]; rewrite Hk; simpl.
  - split; [auto|]. split; [congruence|reflexivity].
  - split; [auto|]. split; [reflexivity|reflexivity].
Qed.

Lemma save_upgrades_envelope_witness :
  ∃ saved security,
    fst (saveCredential (P := Small.platform) Scenario.github
           Scenario.unlocked_machine) = Ok (RSaved saved security)
    ∧ security = "enhanced-pbkdf2".
Proof.
  assert (H : ∃ saved,
             fst (saveCredential (P := Small.platform) Scenario.github
                    Scenario.unlocked_machine)
             = Ok (RSaved saved "enhanced-pbkdf2"))
    by (vm_compute; eauto).
  destruct H as [saved H]. exists saved, "enhanced-pbkdf2".
  split; [exact H|].
  refine (proj1 (proj2 (save_upgrades_envelope (P := Small.platform)
                          Scenario.github saved "enhanced-pbkdf2"
                          Scenario.unlocked_machine _ _ H)) _).
  - vm_compute. reflexivity.
  - vm_compute. eauto.
  - vm_compute. reflexivity.
Defined.

(** X14.  Decryption follows the recorded parameters.  An envelope tagged
    [enhanced-pbkdf2] is opened with the iteration count it records,
    whatever that count is, and one tagged [argon2id] with the time, memory,
    parallelism and hash length it records: if the key was derived with
    those parameters from the passphrase and the stored salt, and the data
    sealed under it with the stored IV, then [decryptVault] with that
    passphrase returns the vault.  (On a platform whose AES-GCM decrypts
    what it encrypted, for a vault that [JSON] serializes faithfully; the
    Argon2id case needs the library loaded.) *)
Theorem decryptVault_uses_recorded_params {P : Platform} (s : Session)
    (v : Vault) (password : string) (key : bytes) (e : Envelope)
    (params : KdfParams) :
  aes_gcm_correct →
  JSON_serializable v →
  kdfParams e = Some params →
  aes_gcm_encrypt key (Uint8Array_of (iv e))
    (TextEncoder_encode (JSON_stringify v))
  = Ok (Uint8Array_of (encrypted e)) →
  (kdf e = Some "enhanced-pbkdf2"
   ∧ pbkdf2_deriveKey SHA_256 (TextEncoder_encode password)
       (Uint8Array_of (salt e)) (kp_iterations params) = Ok key)
  ∨ (kdf e = Some "argon2id"
     ∧ argon2Loaded s = true
     ∧ argon2_hash (Some (Text password)) (Uint8Array_of (salt e))
         (kp_time params) (kp_memory params) (kp_parallelism params)
         (kp_hashLen params)
       = Ok key) →
  decryptVault s e (Some (Text password)) = Ok v.
Proof.
  intros Haes Hjson Hp Hct Hcase. unfold decryptVault.
  destruct Hcase as [(Hk & Hkey)|(Hk & Hlib & Hkey)]; rewrite Hk; simpl.
  - unfold decryptDataWithEnhancedPBKDF2, params_of. rewrite Hp. simpl.
    rewrite Hkey. simpl. rewrite (Haes _ _ _ _ Hct). simpl.
    rewrite TextDecoder_TextEncoder. exact Hjson.
  - unfold decryptDataWithArgon2, params_of. rewrite Hlib, Hp. simpl.
    rewrite Hkey. simpl. rewrite (Haes _ _ _ _ Hct). simpl.
    rewrite TextDecoder_TextEncoder, Hjson. reflexivity.
Qed.

Lemma decryptVault_uses_recorded_params_witness :
  decryptVault (P := Small.platform) (this (Small.fresh false "000"))
    Scenario.stronger_envelope (Some (Text "Secret123!"))
  = Ok Small.sample_vault.
Proof.
  refine (decryptVault_uses_recorded_params (P := Small.platform)
            (this (Small.fresh false "000")) Small.sample_vault "Secret123!"
            (TextEncoder_encode "Secret123!"
             ++ tape_window (fun _ => "007"%byte) 0 32)
            Scenario.stronger_envelope (pbkdf2_params 600000)
            SmallFacts.correct (SmallFacts.serializable _) eq_refl _ _).
  - vm_compute. reflexivity.
  - left. split; [reflexivity|]. vm_compute. reflexivity.
Defined.

(** ** The auto-lock delay *)

Section AutoLock.
Context {P : Platform}.

Local Arguments startAutoLockTimer : simpl never.

Lemma startAutoLockTimer_Ok m : fst (startAutoLockTimer m) = Ok tt.
Proof.
  destruct (startAutoLockTimer_frame m) as (_ & _ & _ & _ & u & Hu).
  rewrite Hu. destruct u. reflexivity.
Qed.

Lemma startAutoLockTimer_keeps m :
  autoLockDelay (this (snd (startAutoLockTimer m))) = autoLockDelay (this m)
  ∧ clock_tape (world (snd (startAutoLockTimer m))) = clock_tape (world m)
  ∧ argon2Loaded (this (snd (startAutoLockTimer m))) = argon2Loaded (this m).
Proof.
  unfold startAutoLockTimer, bind, get_this, clearTimeout, modify_world,
    modify_this, Date_now, setTimeout, ret.
  simpl.
  destruct (autoLockTimer (this m)); simpl;
    destruct (truthy_num (autoLockDelay (this m))); repeat split.
Qed.

(** The timer that was held is no longer pending after re-arming (the new
    one takes the next free number). *)
Lemma startAutoLockTimer_cancels m old :
  autoLockTimer (this m) = Some old →
  old ≠ next_timer (world m) →
  timers (world (snd (startAutoLockTimer m))) !! old = None.
Proof.
  unfold startAutoLockTimer, bind, get_this, clearTimeout, modify_world,
    modify_this, Date_now, setTimeout, ret.
  simpl. intros Hold Hne. rewrite Hold. simpl.
  destruct (truthy_num (autoLockDelay (this m))); simpl.
  - rewrite lookup_insert_ne by congruence. apply lookup_delete_eq.
  - apply lookup_delete_eq.
Qed.

Lemma updateAutoLock_run delay m :
  let d := delay_of delay in
  let stored :=
    {| this := set_autoLockDelay d (this m);
       world :=
         set_storage (put_autoLockDelay_item d (storage (world m)))
           (world m) |} in
  updateAutoLock delay m
  = match storage_fault (world m) with
    | Some e =>
        (Throw e, {| this := set_autoLockDelay d (this m); world := world m |})
    | None =>
        if isUnlocked (this m)
        then (Ok RSuccess, snd (startAutoLockTimer stored))
        else (Ok RSuccess, stored)
    end.
Proof.
  intros d stored. unfold updateAutoLock.
  unfold bind at 1. unfold modify_this at 1. simpl.
  unfold bind at 1. unfold get_this at 1. simpl.
  unfold bind at 1. unfold storage_local_set at 1. simpl.
  destruct (storage_fault (world m)); [reflexivity|].
  unfold bind at 1. unfold get_this at 1. simpl.
  destruct (isUnlocked (this m)); [|reflexivity].
  unfold bind, ret.
  change (startAutoLockTimer _) with (startAutoLockTimer stored).
  pose proof (startAutoLockTimer_Ok stored) as Hok.
  destruct (startAutoLockTimer stored) as [r m3]. simpl in Hok. subst r.
  reflexivity.
Qed.

End AutoLock.

(** The answer of [getRemainingTime] on an unlocked session with a delay,
    as the script computes it. *)
Lemma getRemainingTime_run (m : Machine) (t0 d : Z) :
  isUnlocked (this m) = true →
  unlockTime (this m) = Some t0 → t0 ≠ 0 →
  autoLockDelay (this m) = Some d → d ≠ 0 →
  let now := clock_tape (world m) (clock_pos (world m)) in
  let r := Z.max 0 (Number_sub d (Number_sub now t0)) in
  let tot := Math_floor_div r 1000 in
  fst (getRemainingTime m)
  = Ok (RRemaining r (Math_floor_div tot 60) (Z.rem tot 60) tot).
Proof.
  intros Hu Ht0 Hne0 Hd Hned now r tot.
  unfold getRemainingTime, bind, get_this, ret, Date_now. simpl.
  rewrite Hu, Ht0, Hd. simpl.
  replace (t0 =? 0) with false by (symmetry; apply Z.eqb_neq; exact Hne0).
  replace (d =? 0) with false by (symmetry; apply Z.eqb_neq; exact Hned).
  reflexivity.
Qed.

(** While the numbers stay within [2^53], the arithmetic of doubles is that
    of whole numbers. *)
Lemma remaining_safe (now t0 d : Z) :
  safe_integer (now - t0) →
  safe_integer (d - (now - t0)) →
  let r := Z.max 0 (d - (now - t0)) in
  let tot := r / 1000 in
  Z.max 0 (Number_sub d (Number_sub now t0)) = r
  ∧ Math_floor_div r 1000 = tot
  ∧ Math_floor_div tot 60 = tot / 60
  ∧ Z.rem tot 60 = tot mod 60
  ∧ 0 ≤ tot.
Proof.
  intros He Hr r tot.
  rewrite (Number_sub_safe now t0 He), (Number_sub_safe _ _ Hr).
  unfold safe_integer in *.
  assert (Hp : 2 ^ 53 = 9007199254740992) by reflexivity.
  assert (Hr0 : 0 ≤ r ≤ 2 ^ 53) by (unfold r; lia).
  assert (Htot : 0 ≤ tot ≤ 2 ^ 53).
  { unfold tot. split; [apply Z.div_pos; lia|].
    pose proof (Z.mul_div_le r 1000 ltac:(lia)). lia. }
  split; [reflexivity|].
  split; [apply Math_floor_div_safe; lia|].
  split; [apply Math_floor_div_safe; lia|].
  split; [apply Z.rem_mod_nonneg; lia|lia].
Qed.

(** X15.  Remaining time.  [getRemainingTime] only reads the clock: the
    session, the storage and the timers are as before.  When the session is
    not unlocked, or there is no unlock time, or the delay is [null] (or 0),
    the answer is [{remaining: null}].  Otherwise [remaining] is the delay
    minus the time since [unlockTime], cut off at zero, [totalSeconds] its
    whole seconds, and [remainingMinutes] and [remainingSeconds] the
    quotient and the remainder of [totalSeconds] by 60, all computed on
    doubles.  While the time since [unlockTime] and the difference to the
    delay stay within [2^53], as they do for times in milliseconds, this is
    the arithmetic of whole numbers: [remaining] is never negative, is zero
    once the delay has passed and is at most the delay when the clock has
    not run backwards, and [0 ≤ remainingSeconds < 60]. *)
Theorem getRemainingTime_answer (m : Machine) :
  let now := clock_tape (world m) (clock_pos (world m)) in
  let m' := snd (getRemainingTime m) in
  this m' = this m
  ∧ storage (world m') = storage (world m)
  ∧ timers (world m') = timers (world m)
  ∧ (isUnlocked (this m) = false
     ∨ truthy_num (unlockTime (this m)) = false
     ∨ truthy_num (autoLockDelay (this m)) = false →
     getRemainingTime m = (Ok RRemainingNull, m))
  ∧ (∀ t0 d,
       isUnlocked (this m) = true →
       unlockTime (this m) = Some t0 → t0 ≠ 0 →
       autoLockDelay (this m) = Some d → d ≠ 0 →
       ∃ r mi se tot,
         fst (getRemainingTime m) = Ok (RRemaining r mi se tot)
         ∧ r = Z.max 0 (Number_sub d (Number_sub now t0))
         ∧ 0 ≤ r
         ∧ tot = Math_floor_div r 1000
         ∧ mi = Math_floor_div tot 60
         ∧ se = Z.rem tot 60
         ∧ (safe_integer (now - t0) →
            safe_integer (d - (now - t0)) →
            r = Z.max 0 (d - (now - t0))
            ∧ (d ≤ now - t0 → r = 0)
            ∧ (t0 ≤ now → 0 ≤ d → r ≤ d)
            ∧ tot = r / 1000
            ∧ 1000 * tot ≤ r < 1000 * tot + 1000
            ∧ tot = 60 * mi + se
            ∧ 0 ≤ se < 60
            ∧ 0 ≤ mi)).
Proof.
  intros now m'.
  split; [|split; [|split; [|split]]].
  - unfold m', getRemainingTime, bind, get_this, ret, Date_now. simpl.
    destruct (_ || _); reflexivity.
  - unfold m', getRemainingTime, bind, get_this, ret, Date_now. simpl.
    destruct (_ || _); reflexivity.
  - unfold m', getRemainingTime, bind, get_this, ret, Date_now. simpl.
    destruct (_ || _); reflexivity.
  - intros Hcase. unfold getRemainingTime, bind, get_this, ret. simpl.
    replace (negb (isUnlocked (this m))
             || negb (truthy_num (unlockTime (this m)))
             || negb (truthy_num (autoLockDelay (this m)))) with true.
    + destruct m; reflexivity.
    + symmetry. rewrite !orb_true_iff, !negb_true_iff. tauto.
  - intros t0 d Hu Ht0 Hne0 Hd Hned.
    pose proof (getRemainingTime_run m t0 d Hu Ht0 Hne0 Hd Hned) as Hrun.
    cbv zeta in Hrun. fold now in Hrun.
    eexists _, _, _, _. split; [exact Hrun|].
    split; [reflexivity|]. split; [lia|].
    split; [reflexivity|]. split; [reflexivity|]. split; [reflexivity|].
    intros He Hr.
    destruct (remaining_safe now t0 d He Hr) as (H1 & H2 & H3 & H4 & H5).
    cbv zeta in H1, H2, H3, H4, H5. rewrite H1, H2, H3, H4.
    set (r := Z.max 0 (d - (now - t0))) in *.
    split; [reflexivity|].
    split; [unfold r; lia|]. split; [unfold r; lia|].
    split; [reflexivity|].
    split.
    { pose proof (Z.mul_div_le r 1000 ltac:(lia)).
      pose proof (Z.mul_succ_div_gt r 1000 ltac:(lia)). lia. }
    split; [apply Z.div_mod; lia|].
    split; [apply Z.mod_pos_bound; lia|].
    apply Z.div_pos; lia.
Qed.

(** Beyond [2^53] the answer is rounded as the script rounds it: with a
    delay of [2^53 + 2], one millisecond after the unlock, [remaining] is
    [2^53], not [2^53 + 1]. *)
Lemma getRemainingTime_answer_witness :
  ∃ r mi se tot,
    fst (getRemainingTime Scenario.long_delay) = Ok (RRemaining r mi se tot)
    ∧ r = 9007199254740992.
Proof.
  destruct (proj2 (proj2 (proj2 (proj2
              (getRemainingTime_answer Scenario.long_delay))))
              1000 9007199254740994)
    as (r & mi & se & tot & Hrun & Hr & _).
  - vm_compute. reflexivity.
  - vm_compute. reflexivity.
  - discriminate.
  - reflexivity.
  - discriminate.
  - exists r, mi, se, tot. split; [exact Hrun|].
    rewrite Hr. vm_compute. reflexivity.
Defined.

(** X16.  Changing the delay.  [UPDATE_AUTO_LOCK] sets [autoLockDelay] in
    memory first.  If the storage rejects the write, the answer is that
    error and nothing else happens: the new delay is in memory only and the
    timer is not re-armed.  Otherwise the delay is stored and the answer is
    [{success: true}]; on a locked session no timer is touched; on an
    unlocked one the held timer is cancelled and, when the new delay is a
    number other than 0, a new timer with that delay is armed and
    [unlockTime] restarts from the clock reading, whereas with ['never'] no
    timer is armed. *)
Theorem updateAutoLock_outcomes {P : Platform} (delay : AutoLockArg)
    (m : Machine) :
  let d := delay_of delay in
  let m' := snd (on_message (UPDATE_AUTO_LOCK delay) m) in
  autoLockDelay (this m') = d
  ∧ (∀ message,
       storage_fault (world m) = Some message →
       on_message (UPDATE_AUTO_LOCK delay) m
       = (RError message,
          {| this := set_autoLockDelay d (this m); world := world m |}))
  ∧ (storage_fault (world m) = None →
     fst (on_message (UPDATE_AUTO_LOCK delay) m) = RSuccess
     ∧ storage (world m') = put_autoLockDelay_item d (storage (world m))
     ∧ (isUnlocked (this m) = false →
        this m' = set_autoLockDelay d (this m)
        ∧ timers (world m') = timers (world m))
     ∧ (isUnlocked (this m) = true →
        (∀ old, autoLockTimer (this m) = Some old →
                old ≠ next_timer (world m) →
                timers (world m') !! old = None)
        ∧ (truthy_num d = true →
           unlockTime (this m')
           = Some (clock_tape (world m) (clock_pos (world m)))
           ∧ autoLockTimer (this m') = Some (next_timer (world m))
           ∧ timers (world m') !! next_timer (world m) = Some (default 0 d))
        ∧ (truthy_num d = false →
           autoLockTimer (this m') = None
           ∧ unlockTime (this m') = unlockTime (this m)))).
Proof.
  intros d m'. unfold m', on_message, handleMessage.
  rewrite updateAutoLock_run. cbv zeta. fold d.
  set (stored := {| this := set_autoLockDelay d (this m);
                    world := set_storage _ _ |}).
  destruct (startAutoLockTimer_keeps stored) as (Hd & _).
  destruct (startAutoLockTimer_frame stored) as (_ & _ & _ & Hsto & _).
  pose proof (startAutoLockTimer_armed stored) as Harm.
  pose proof (startAutoLockTimer_cancels stored) as Hcancel.
  cbv zeta in Harm.
  assert (Hrest :
    storage_fault (world m) = None →
    isUnlocked (this m) = true →
    (∀ old, autoLockTimer (this m) = Some old →
            old ≠ next_timer (world m) →
            timers (world (snd (startAutoLockTimer stored))) !! old = None)
    ∧ (truthy_num d = true →
       unlockTime (this (snd (startAutoLockTimer stored)))
       = Some (clock_tape (world m) (clock_pos (world m)))
       ∧ autoLockTimer (this (snd (startAutoLockTimer stored)))
         = Some (next_timer (world m))
       ∧ timers (world (snd (startAutoLockTimer stored)))
           !! next_timer (world m) = Some (default 0 d))
    ∧ (truthy_num d = false →
       autoLockTimer (this (snd (startAutoLockTimer stored))) = None
       ∧ unlockTime (this (snd (startAutoLockTimer stored)))
         = unlockTime (this m))).
  { intros _ _. split; [exact Hcancel|].
    change (autoLockDelay (this stored)) with d in Harm.
    destruct (truthy_num d).
    - destruct Harm as (Hut & Ha & Ht & _).
      split; [auto|discriminate].
    - destruct Harm as (Hut & Ha & _). split; [discriminate|auto]. }
  clear Harm Hcancel.
  destruct (storage_fault (world m)) as [msg|] eqn:Hfault.
  - simpl. split; [reflexivity|]. split; [|discriminate].
    intros message [= <-]. reflexivity.
  - destruct (isUnlocked (this m)) eqn:Hu; simpl.
    + split; [rewrite Hd; reflexivity|]. split; [discriminate|].
      intros _. split; [reflexivity|]. split; [rewrite Hsto; reflexivity|].
      split; [discriminate|]. intros _. apply Hrest; reflexivity.
    + split; [reflexivity|]. split; [discriminate|].
      intros _. split; [reflexivity|]. split; [reflexivity|].
      split; [auto|discriminate].
Qed.

Lemma updateAutoLock_stored {P : Platform} delay m :
  storage_fault (world m) = None →
  storage (world (snd (updateAutoLock delay m)))
  = put_autoLockDelay_item (delay_of delay) (storage (world m)).
Proof.
  intros Hf. rewrite updateAutoLock_run, Hf. cbv zeta.
  destruct (isUnlocked (this m)); [|reflexivity]. simpl.
  match goal with
  | |- context [startAutoLockTimer ?x] =>
      destruct (startAutoLockTimer_frame x) as (_ & _ & _ & Hsto & _)
  end.
  rewrite Hsto. reflexivity.
Qed.

(** X17.  The delay across a restart.  After [UPDATE_AUTO_LOCK] has stored
    a delay, a script started anew on that storage takes the stored delay
    when it is a number other than 0; but a stored [null], which is what
    ['never'] leaves, is replaced by the default of five minutes: ['never']
    does not survive a restart. *)
Theorem autoLockDelay_after_restart {P : Platform} (delay : AutoLockArg)
    (m : Machine) (argon2_ok : bool) :
  storage_fault (world m) = None →
  let w' := world (snd (on_message (UPDATE_AUTO_LOCK delay) m)) in
  autoLockDelay (this (initial argon2_ok w'))
  = (if truthy_num (delay_of delay) then delay_of delay else Some 300000)
  ∧ (delay = Never → autoLockDelay (this (initial argon2_ok w')) = Some 300000).
Proof.
  intros Hf w'.
  assert (Hs : storage w' = put_autoLockDelay_item (delay_of delay)
                              (storage (world m))).
  { unfold w', on_message, handleMessage.
    pose proof (updateAutoLock_stored delay m Hf) as H.
    destruct (updateAutoLock delay m) as [[r|err] m1]; exact H. }
  clearbody w'.
  assert (Hd : autoLockDelay (this (initial argon2_ok w'))
               = (if truthy_num (delay_of delay) then delay_of delay
                  else Some 300000)).
  { unfold initial. simpl. rewrite Hs. reflexivity. }
  split; [exact Hd|]. intros ->. rewrite Hd. reflexivity.
Qed.

Lemma autoLockDelay_after_restart_witness :
  let w' :=
    world (snd (on_message (P := Small.platform) (UPDATE_AUTO_LOCK Never)
                  (initial false (Small.sample_world "000")))) in
  autoLockDelay (this (initial false w'))
  = (if truthy_num (delay_of Never) then delay_of Never else Some 300000)
  ∧ (Never = Never → autoLockDelay (this (initial false w')) = Some 300000).
Proof.
  exact (autoLockDelay_after_restart (P := Small.platform) Never
           (initial false (Small.sample_world "000")) false eq_refl).
Defined.

(** *** Listings *)

(** X18.  Search.  On an unlocked session, [searchCredentials] changes
    nothing; the empty query returns no credential; any other query returns,
    in some order, exactly the credentials of the vault that have a
    non-empty name, domain, username or email whose lower-case form contains
    the lower-case form of the query, the lower-case form being that of
    [String.prototype.toLowerCase].  The password and the url are not
    searched, and two queries with the same lower-case form give the same
    answer. *)
Theorem searchCredentials_characterised {P : Platform} (query : string)
    (m : Machine) (v : Vault) :
  isUnlocked (this m) = true →
  vault (this m) = Some v →
  (query = "" → searchCredentials query m = (Ok (RCredentials []), m))
  ∧ (query ≠ "" →
     ∃ l,
       searchCredentials query m = (Ok (RCredentials l), m)
       ∧ Permutation l
           (List.filter (matches_search (toLowerCase query)) (credentials v))
       ∧ ∀ c,
           c ∈ l
           ↔ c ∈ credentials v
             ∧ ∃ s,
                 (cred_name c = Some s ∨ cred_domain c = Some s
                  ∨ cred_username c = Some s ∨ cred_email c = Some s)
                 ∧ s ≠ ""
                 ∧ includes (toLowerCase s) (toLowerCase query) = true)
  ∧ (∀ query',
       query ≠ "" → query' ≠ "" →
       toLowerCase query' = toLowerCase query →
       searchCredentials query' m = searchCredentials query m).
Proof.
  intros Hu Hv.
  assert (Hguard : locked_guard (this m) = false)
    by (apply locked_guard_false; split; [exact Hu|rewrite Hv; eauto]).
  assert (Hrun : ∀ q, q ≠ "" →
            searchCredentials q m
            = (Ok (RCredentials
                     (sort by_recency
                        (List.filter (matches_search (toLowerCase q))
                           (credentials v)))), m)).
  { intros q Hq. unfold searchCredentials, bind, get_this, ret. simpl.
    rewrite Hguard, Hv. simpl.
    replace (String.eqb q "") with false
      by (symmetry; apply String.eqb_neq; exact Hq).
    reflexivity. }
  split; [|split].
  - intros ->. unfold searchCredentials, bind, get_this, ret. simpl.
    rewrite Hguard. reflexivity.
  - intros Hq. eexists. split; [apply Hrun, Hq|].
    split; [apply sort_Permutation|].
    intros c. rewrite (sort_Permutation by_recency _).
    rewrite !list_elem_of_In, filter_In.
    apply and_iff_compat_l.
    unfold matches_search.
    rewrite !orb_true_iff, !field_matches_spec. split.
    + intros [[[H|H]|H]|H]; destruct H as (s & Hs & Hne & Hin);
        exists s; auto 10.
    + intros (s & [H|[H|[H|H]]] & Hne & Hin); eauto 10.
  - intros query' Hq Hq' Hlow. rewrite !Hrun by assumption.
    rewrite Hlow. reflexivity.
Qed.

(** Two spellings of a query, and a name with an accented capital found
    by a query in capitals. *)
Lemma searchCredentials_characterised_witness :
  searchCredentials (P := Small.platform) "GMAIL" Scenario.unlocked_machine
  = searchCredentials (P := Small.platform) "gmail" Scenario.unlocked_machine
  ∧ (∃ l,
       searchCredentials (P := Small.platform) "ÉCOLE" Small.with_ecole
       = (Ok (RCredentials l), Small.with_ecole)
       ∧ Small.ecole_saved ∈ l).
Proof.
  split.
  - refine (proj2 (proj2 (searchCredentials_characterised
                            (P := Small.platform) "gmail"
                            Scenario.unlocked_machine Scenario.gmail_vault
                            _ _)) "GMAIL" _ _ _).
    + vm_compute. reflexivity.
    + vm_compute. reflexivity.
    + discriminate.
    + discriminate.
    + reflexivity.
  - assert (Hv : vault (this Small.with_ecole)
                 = Some {| credentials := [Small.ecole_saved];
                           created := 1000; version := "2.0";
                           security := "enhanced-pbkdf2" |})
      by (vm_compute; reflexivity).
    destruct (proj1 (proj2 (searchCredentials_characterised
                              (P := Small.platform) "ÉCOLE" Small.with_ecole
                              _ eq_refl Hv)))
      as (l & Hget & _ & Hmem); [discriminate|].
    exists l. split; [exact Hget|].
    apply Hmem. split; [apply list_elem_of_singleton; reflexivity|].
    exists "École". split; [left; reflexivity|].
    split; [discriminate|]. vm_compute. reflexivity.
Defined.

Lemma by_recency_value (a b : Credential) :
  is_Some (recency a) → is_Some (recency b) →
  by_recency a b = recency_Z b - recency_Z a.
Proof.
  unfold by_recency, recency_Z. intros [x ->] [y ->]. reflexivity.
Qed.

Lemma sort_insert_elem {A} (cmp : A → A → Z) x l y :
  y ∈ sort_insert cmp x l ↔ y = x ∨ y ∈ l.
Proof.
  rewrite (sort_insert_Permutation cmp x l). apply elem_of_cons.
Qed.

Lemma sort_insert_most_recent_first x l :
  is_Some (recency x) →
  Forall (fun c => is_Some (recency c)) l →
  most_recent_first l →
  most_recent_first (sort_insert by_recency x l).
Proof.
  intros Hx. induction l as [|y l IH]; intros Hall Hsorted.
  - simpl. auto.
  - apply Forall_cons in Hall as [Hy Hall].
    destruct Hsorted as [Hhead Htail].
    cbn [sort_insert]. rewrite (by_recency_value x y Hx Hy).
    destruct (0 <? recency_Z y - recency_Z x) eqn:Hcmp.
    + apply Z.ltb_lt in Hcmp. cbn [most_recent_first]. split.
      * apply Forall_forall. intros b Hb.
        apply sort_insert_elem in Hb as [->|Hb]; [lia|].
        rewrite Forall_forall in Hhead. apply Hhead, Hb.
      * apply IH; assumption.
    + apply Z.ltb_ge in Hcmp. cbn [most_recent_first]. split.
      * apply Forall_cons. split; [lia|].
        rewrite Forall_forall in Hhead |- *. intros b Hb.
        specialize (Hhead b Hb). lia.
      * split; assumption.
Qed.

Lemma sort_most_recent_first l :
  Forall (fun c => is_Some (recency c)) l →
  most_recent_first (sort by_recency l).
Proof.
  unfold sort. induction l as [|x l IH]; intros Hall; [exact I|].
  apply Forall_cons in Hall as [Hx Hall]. cbn [foldr].
  apply sort_insert_most_recent_first; [exact Hx| |apply IH, Hall].
  apply Forall_forall. intros c Hc.
  rewrite Forall_forall in Hall. apply Hall.
  rewrite <- (sort_Permutation by_recency l). exact Hc.
Qed.

(** X19.  Most recent first.  On an unlocked session whose credentials all
    have a modification or creation time, [getAllCredentials] returns all
    the credentials of the vault, each once, and [getCredentials] and
    [searchCredentials] their matches, ordered so that every credential is
    at least as recent (by [modified], or [created] when [modified] is
    missing or 0) as all that follow it. *)
Theorem listings_most_recent_first {P : Platform} (m : Machine)
    (v : Vault) :
  isUnlocked (this m) = true →
  vault (this m) = Some v →
  Forall (fun c => is_Some (recency c)) (credentials v) →
  (∃ l, getAllCredentials m = (Ok (RCredentials l), m)
        ∧ Permutation l (credentials v)
        ∧ most_recent_first l)
  ∧ (∀ domain,
       ∃ l, getCredentials domain m = (Ok (RCredentials l), m)
            ∧ most_recent_first l)
  ∧ (∀ query,
       ∃ l, searchCredentials query m = (Ok (RCredentials l), m)
            ∧ most_recent_first l).
Proof.
  intros Hu Hv Hall.
  assert (Hguard : locked_guard (this m) = false)
    by (apply locked_guard_false; split; [exact Hu|rewrite Hv; eauto]).
  assert (Hfilter : ∀ p,
            Forall (fun c => is_Some (recency c))
              (List.filter p (credentials v))).
  { intros p. apply Forall_forall. intros c Hc.
    apply list_elem_of_In, filter_In in Hc as [Hc _].
    rewrite Forall_forall in Hall. apply Hall, list_elem_of_In, Hc. }
  split; [|split].
  - exists (sort by_recency (credentials v)). split; [|split].
    + unfold getAllCredentials, bind, get_this, ret. simpl.
      rewrite Hguard, Hv. reflexivity.
    + apply sort_Permutation.
    + apply sort_most_recent_first, Hall.
  - intros domain. eexists. split.
    + unfold getCredentials, bind, get_this, ret. simpl.
      rewrite Hguard, Hv. reflexivity.
    + apply sort_most_recent_first, Hfilter.
  - intros query. unfold searchCredentials, bind, get_this, ret. simpl.
    rewrite Hguard, Hv. simpl.
    destruct (String.eqb query ""); eexists; (split; [reflexivity|]).
    + exact I.
    + apply sort_most_recent_first, Hfilter.
Qed.

Lemma listings_most_recent_first_witness :
  ∃ l, getAllCredentials Scenario.unlocked_machine
       = (Ok (RCredentials l), Scenario.unlocked_machine)
       ∧ Permutation l (credentials Scenario.gmail_vault)
       ∧ most_recent_first l.
Proof.
  refine (proj1 (listings_most_recent_first (P := Small.platform)
                   Scenario.unlocked_machine Scenario.gmail_vault _ _ _)).
  - vm_compute. reflexivity.
  - vm_compute. reflexivity.
  - repeat constructor. vm_compute. eauto.
Defined.

(** X20.  Questions change nothing.  [GET_STATUS], [GET_SECURITY_STATUS],
    [GET_CREDENTIALS], [GET_ALL_CREDENTIALS], [SEARCH_CREDENTIALS],
    [GENERATE_PASSWORD] and [OPEN_POPUP] leave the session, the storage, the
    timers and the clock exactly as they were, in every state; so does a
    message of an unknown type, which is answered with [{error: 'Unknown
    message type: ...'}]. *)
Theorem queries_change_nothing {P : Platform} (message : Message)
    (m : Machine) :
  is_query message = true →
  snd (on_message message m) = m
  ∧ (∀ type, message = OTHER type →
       fst (on_message message m)
       = RError ("Unknown message type: " +:+ type)).
Proof.
  intros Hq. unfold on_message, handleMessage.
  destruct message; try discriminate Hq.
  - split; [destruct m; reflexivity|discriminate].
  - unfold getCredentials, bind, get_this, ret. simpl.
    split; [destruct (locked_guard (this m)); destruct m; reflexivity|].
    discriminate.
  - split; [destruct m; reflexivity|discriminate].
  - split; [destruct m; reflexivity|discriminate].
  - unfold getAllCredentials, bind, get_this, ret. simpl.
    split; [destruct (locked_guard (this m)); destruct m; reflexivity|].
    discriminate.
  - unfold searchCredentials, bind, get_this, ret. simpl.
    split; [destruct (_ || _); destruct m; reflexivity|].
    discriminate.
  - split; [destruct m; reflexivity|discriminate].
  - split; [reflexivity|]. intros type' [= <-]. reflexivity.
Qed.

Lemma queries_change_nothing_witness :
  snd (on_message (P := Small.platform) (OTHER "PING")
         Scenario.unlocked_machine)
  = Scenario.unlocked_machine
  ∧ (∀ type, OTHER "PING" = OTHER type →
       fst (on_message (P := Small.platform) (OTHER "PING")
              Scenario.unlocked_machine)
       = RError ("Unknown message type: " +:+ type)).
Proof.
  exact (queries_change_nothing (P := Small.platform) (OTHER "PING")
           Scenario.unlocked_machine eq_refl).
Defined.

(** *** After locking *)

(** The session that [lockVault] leaves. *)
Lemma lockVault_session m :
  this (snd (lockVault m))
  = {| vault := None; isUnlocked := false; masterPassword := None;
       autoLockTimer := None; autoLockDelay := autoLockDelay (this m);
       unlockTime := None; argon2Loaded := argon2Loaded (this m);
       argon2Params := argon2Params (this m) |}.
Proof.
  unfold lockVault, bind, modify_this, get_this, clearTimeout, modify_world,
    notifyContentScripts, ret.
  simpl. destruct (autoLockTimer (this m)) eqn:Ha; simpl; [reflexivity|].
  unfold set_unlockTime, set_isUnlocked, set_masterPassword, set_vault.
  simpl. rewrite Ha. reflexivity.
Qed.

Lemma locked_session_answers {P : Platform} (m1 : Machine) :
  isUnlocked (this m1) = false →
  vault (this m1) = None →
  unlockTime (this m1) = None →
  on_message GET_ALL_CREDENTIALS m1 = (RCredentials [], m1)
  ∧ (∀ domain, on_message (GET_CREDENTIALS domain) m1 = (RCredentials [], m1))
  ∧ (∀ query, on_message (SEARCH_CREDENTIALS query) m1 = (RCredentials [], m1))
  ∧ (∀ message,
       is_mutation message = true →
       on_message message m1 = (RError "Vault is locked", m1))
  ∧ on_message GET_REMAINING_TIME m1 = (RRemainingNull, m1)
  ∧ on_message GET_STATUS m1
    = (RStatus false false None (autoLockDelay (this m1)) 0
         (security_name (this m1)) (argon2Loaded (this m1)), m1).
Proof.
  intros Hu Hv Ht.
  assert (Hg : locked_guard (this m1) = true)
    by (unfold locked_guard; rewrite Hu; reflexivity).
  unfold on_message, handleMessage.
  split; [|split; [|split; [|split; [|split]]]].
  - unfold getAllCredentials, bind, get_this, ret. simpl. rewrite Hg.
    destruct m1; reflexivity.
  - intros domain. unfold getCredentials, bind, get_this, ret. simpl.
    rewrite Hg. destruct m1; reflexivity.
  - intros query. unfold searchCredentials, bind, get_this, ret. simpl.
    rewrite Hg. destruct m1; reflexivity.
  - intros message Hm. destruct message; try discriminate Hm.
    + unfold saveCredential, bind, get_this, ret. simpl. rewrite Hg.
      destruct m1; reflexivity.
    + unfold deleteCredential, bind, get_this, ret. simpl. rewrite Hg.
      destruct m1; reflexivity.
    + unfold updateCredential, bind, get_this, ret. simpl. rewrite Hg.
      destruct m1; reflexivity.
  - unfold getRemainingTime, bind, get_this, ret. simpl. rewrite Hu.
    destruct m1; reflexivity.
  - unfold getStatus, bind, get_this, ret, credential_count. simpl.
    rewrite Hu, Hv, Ht. destruct m1; reflexivity.
Qed.

(** X21.  Nothing is accessible after a lock.  Once [LOCK_VAULT] has been
    handled, or a pending auto-lock timer has fired, every listing answers
    [{credentials: []}], every mutation answers [{error: 'Vault is
    locked'}], [GET_REMAINING_TIME] answers [{remaining: null}] and
    [GET_STATUS] reports [isUnlocked] and [hasVault] false, no unlock time
    and no credentials; none of these changes the machine. *)
Theorem nothing_accessible_after_lock {P : Platform} (e : Event)
    (m : Machine) :
  e = Receive LOCK_VAULT
  ∨ (∃ id, e = Fire id ∧ is_Some (timers (world m) !! id)) →
  let m1 := step e m in
  locked (this m1)
  ∧ on_message GET_ALL_CREDENTIALS m1 = (RCredentials [], m1)
  ∧ (∀ domain, on_message (GET_CREDENTIALS domain) m1 = (RCredentials [], m1))
  ∧ (∀ query, on_message (SEARCH_CREDENTIALS query) m1 = (RCredentials [], m1))
  ∧ (∀ message,
       is_mutation message = true →
       on_message message m1 = (RError "Vault is locked", m1))
  ∧ on_message GET_REMAINING_TIME m1 = (RRemainingNull, m1)
  ∧ on_message GET_STATUS m1
    = (RStatus false false None (autoLockDelay (this m)) 0
         (security_name (this m)) (argon2Loaded (this m)), m1).
Proof.
  intros He m1.
  assert (Hs : ∃ m0, this m0 = this m ∧ this m1 = this (snd (lockVault m0))).
  { destruct He as [->|(id & -> & [d Hid])].
    - exists m. split; [reflexivity|]. unfold m1. simpl.
      unfold on_message, handleMessage.
      destruct (lockVault m) as [[r|err] m']; reflexivity.
    - eexists {| this := this m; world := _ |}. split; [reflexivity|].
      unfold m1. simpl. unfold timer_fires. rewrite Hid. reflexivity. }
  destruct Hs as (m0 & Hm0 & Hm1).
  rewrite lockVault_session, Hm0 in Hm1. clearbody m1.
  destruct (locked_session_answers m1) as (H1 & H2 & H3 & H4 & H5 & H6);
    try (rewrite Hm1; reflexivity).
  split; [rewrite Hm1; repeat split|].
  split; [exact H1|]. split; [exact H2|]. split; [exact H3|].
  split; [exact H4|]. split; [exact H5|].
  rewrite H6, Hm1. reflexivity.
Qed.

Lemma nothing_accessible_after_lock_witness :
  let m1 :=
    step (P := Small.platform) (Receive LOCK_VAULT)
      Scenario.unlocked_machine in
  locked (this m1)
  ∧ on_message (P := Small.platform) GET_ALL_CREDENTIALS m1
    = (RCredentials [], m1).
Proof.
  intros m1.
  destruct (nothing_accessible_after_lock (P := Small.platform)
              (Receive LOCK_VAULT) Scenario.unlocked_machine
              (or_introl eq_refl))
    as (Hl & Hall & _).
  split; [exact Hl|exact Hall].
Defined.

(** *** Unlock, then ask for the remaining time *)

Lemma unlockVault_times {P : Platform} password m e v d :
  st_vault (storage (world m)) = Some e →
  decryptVault (this m) e password = Ok v →
  autoLockDelay (this m) = Some d → d ≠ 0 →
  let m' := snd (unlockVault password m) in
  isUnlocked (this m') = true
  ∧ unlockTime (this m')
    = Some (clock_tape (world m) (clock_pos (world m)))
  ∧ autoLockDelay (this m') = Some d
  ∧ clock_tape (world m') = clock_tape (world m)
  ∧ clock_pos (world m') = S (clock_pos (world m)).
Proof.
  intros Hst Hdec Hd Hned m'. unfold m'.
  rewrite unlockVault_run, Hst, Hdec. cbv zeta. simpl.
  match goal with
  | |- context [startAutoLockTimer ?x] =>
      destruct (startAutoLockTimer_frame x) as (_ & Hu & _);
      destruct (startAutoLockTimer_keeps x) as (Hdl & Hct & _);
      pose proof (startAutoLockTimer_armed x) as Harm
  end.
  cbv zeta in Harm. simpl in Harm, Hdl, Hct, Hu. rewrite Hd in Harm.
  simpl in Harm.
  replace (d =? 0) with false in Harm
    by (symmetry; apply Z.eqb_neq; exact Hned).
  simpl in Harm. destruct Harm as (Hut & _ & _ & Hcp).
  rewrite Hu, Hut, Hdl, Hct, Hcp, Hd. auto.
Qed.

(** X22.  Auto-lock timing.  After a successful [unlockVault] with a delay
    [d] set, when the clock read [t0] at the unlock, [GET_REMAINING_TIME]
    asked when the clock reads [t1] answers [remaining = max(0, d - (t1 -
    t0))]: the whole delay at once, less as time passes, and zero from
    [t0 + d] on.  (For [t1 - t0] and [d - (t1 - t0)] within [2^53], where
    doubles compute as whole numbers do.) *)
Theorem remaining_time_after_unlock {P : Platform} (password : string)
    (m : Machine) (e : Envelope) (v : Vault) (d : Z) :
  st_vault (storage (world m)) = Some e →
  decryptVault (this m) e (Some (Text password)) = Ok v →
  autoLockDelay (this m) = Some d → d ≠ 0 →
  let t0 := clock_tape (world m) (clock_pos (world m)) in
  let t1 := clock_tape (world m) (S (clock_pos (world m))) in
  t0 ≠ 0 →
  safe_integer (t1 - t0) →
  safe_integer (d - (t1 - t0)) →
  let r := Z.max 0 (d - (t1 - t0)) in
  fst (getRemainingTime (snd (unlockVault (Some (Text password)) m)))
  = Ok (RRemaining r (r / 1000 / 60) ((r / 1000) mod 60) (r / 1000))
  ∧ (t1 = t0 → 0 ≤ d → r = d)
  ∧ (t0 + d ≤ t1 → r = 0).
Proof.
  intros Hst Hdec Hd Hned t0 t1 Ht0 He Hr r.
  destruct (unlockVault_times (Some (Text password)) m e v d Hst Hdec Hd
              Hned) as (Hu & Hut & Hdl & Hct & Hcp).
  split; [|split; unfold r; lia].
  pose proof (getRemainingTime_run
                (snd (unlockVault (Some (Text password)) m)) t0 d
                Hu Hut Ht0 Hdl Hned) as H.
  cbv zeta in H. rewrite Hct, Hcp in H. fold t1 in H.
  destruct (remaining_safe t1 t0 d He Hr) as (H1 & H2 & H3 & H4 & _).
  cbv zeta in H1, H2, H3, H4. rewrite H1, H2, H3, H4 in H. exact H.
Qed.

Lemma remaining_time_after_unlock_witness :
  let m := Small.locked_with Small.sample_envelope in
  let r := Z.max 0 (300000 - (1001 - 1000)) in
  fst (getRemainingTime
         (snd (unlockVault (P := Small.platform) (Some (Text "Secret123!"))
                 m)))
  = Ok (RRemaining r (r / 1000 / 60) ((r / 1000) mod 60) (r / 1000)).
Proof.
  intros m r.
  refine (proj1 (remaining_time_after_unlock (P := Small.platform)
                   "Secret123!" m Small.sample_envelope Small.sample_vault
                   300000 eq_refl _ eq_refl _ _ _ _)).
  - vm_compute. reflexivity.
  - discriminate.
  - discriminate.
  - vm_compute. split; discriminate.
  - vm_compute. split; discriminate.
Defined.

(** ** [generatePassword] and the strength meter *)

Lemma chars_append (a b : string) :
  list_ascii_of_string (a +:+ b)
  = list_ascii_of_string a ++ list_ascii_of_string b.
Proof. induction a as [|c a IH]; simpl; [reflexivity|now rewrite IH]. Qed.

Lemma chars_length (s : string) :
  List.length (list_ascii_of_string s) = String.length s.
Proof. induction s as [|c s IH]; simpl; [reflexivity|now rewrite IH]. Qed.

Lemma charAt_In (s : string) (i : nat) :
  (i < String.length s)%nat →
  ∃ c, charAt s i = String c EmptyString ∧ In c (list_ascii_of_string s).
Proof.
  revert i. induction s as [|d s IH]; intros i Hi; simpl in Hi; [lia|].
  destruct i as [|i].
  - exists d. split; [reflexivity|now left].
  - destruct (IH i ltac:(lia)) as (c & Hc & Hin).
    exists c. split; [exact Hc|now right].
Qed.

Lemma test_In (class : ascii → bool) (s : string) (c : ascii) :
  In c (list_ascii_of_string s) → class c = true → test class s = true.
Proof.
  intros Hin Hc. unfold test. apply existsb_exists. now exists c.
Qed.

Lemma charset_includes (includeSymbols : bool) (c : ascii) :
  In c (list_ascii_of_string lowercase)
  ∨ In c (list_ascii_of_string uppercase)
  ∨ In c (list_ascii_of_string numbers)
  ∨ (includeSymbols = true ∧ In c (list_ascii_of_string symbols)) →
  In c (list_ascii_of_string (charset includeSymbols)).
Proof.
  unfold charset. rewrite chars_append.
  change (list_ascii_of_string
            "abcdefghijklmnopqrstuvwxyzABCDEFGHIJKLMNOPQRSTUVWXYZ0123456789")
    with (list_ascii_of_string lowercase ++ list_ascii_of_string uppercase
          ++ list_ascii_of_string numbers).
  rewrite !in_app_iff.
  intros [H|[H|[H|[-> H]]]]; auto.
Qed.

Section GeneratePasswordLemmas.

Variable random_index : nat → nat → nat.
Variable shuffle : string → string.

Hypothesis random_index_below :
  ∀ k n, (0 < n)%nat → (random_index k n < n)%nat.

Lemma fill_chars (cs : string) (count calls : nat) (password : string) :
  (0 < String.length cs)%nat →
  ∃ drawn,
    list_ascii_of_string (fill random_index calls cs count password)
    = list_ascii_of_string password ++ drawn
    ∧ List.length drawn = count
    ∧ Forall (λ c, In c (list_ascii_of_string cs)) drawn.
Proof.
  intros Hcs. revert calls password.
  induction count as [|count IH]; intros calls password; simpl.
  - exists []. rewrite app_nil_r. repeat split. constructor.
  - destruct (charAt_In cs (random_index calls (String.length cs))
                (random_index_below calls _ Hcs)) as (c & Hc & Hin).
    destruct (IH (S calls) (password +:+ charAt cs
                (random_index calls (String.length cs))))
      as (drawn & Heq & Hlen & Hall).
    exists (c :: drawn). rewrite Heq, chars_append, Hc. simpl.
    rewrite <- app_assoc. simpl. repeat split.
    + now rewrite Hlen.
    + now constructor.
Qed.

Lemma drawn_password (length : Z) (includeSymbols : bool) :
  ∃ l u d sy drawn,
    let required :=
      [l; u; d] ++ (if includeSymbols then [sy] else []) in
    In l (list_ascii_of_string lowercase)
    ∧ In u (list_ascii_of_string uppercase)
    ∧ In d (list_ascii_of_string numbers)
    ∧ In sy (list_ascii_of_string symbols)
    ∧ Forall (λ c, In c (list_ascii_of_string (charset includeSymbols)))
        drawn
    ∧ List.length drawn
      = Z.to_nat (length - Z.of_nat (List.length required))
    ∧ generatePassword_text random_index shuffle length includeSymbols
      = shuffle (string_of_list_ascii (required ++ drawn)).
Proof.
  destruct (charAt_In lowercase (random_index 0 (String.length lowercase))
              (random_index_below 0 (String.length lowercase)
                 ltac:(simpl; lia))) as (l & Hl & Hlin).
  destruct (charAt_In uppercase (random_index 1 (String.length uppercase))
              (random_index_below 1 (String.length uppercase)
                 ltac:(simpl; lia))) as (u & Hu & Huin).
  destruct (charAt_In numbers (random_index 2 (String.length numbers))
              (random_index_below 2 (String.length numbers)
                 ltac:(simpl; lia))) as (d & Hd & Hdin).
  destruct (charAt_In symbols (random_index 3 (String.length symbols))
              (random_index_below 3 (String.length symbols) ltac:(simpl; lia)))
    as (sy & Hsy & Hsyin).
  unfold generatePassword_text. rewrite Hl, Hu, Hd.
  destruct includeSymbols; [rewrite Hsy|]; cbn [append String.length].
  - destruct (fill_chars (charset true)
                (Z.to_nat (length - Z.of_nat 4)) 4
                (String l (String u (String d (String sy EmptyString))))
                ltac:(simpl; lia)) as (drawn & Heq & Hlen & Hall).
    exists l, u, d, sy, drawn. cbn zeta. repeat split; try assumption.
    f_equal. apply (f_equal string_of_list_ascii) in Heq.
    rewrite string_of_list_ascii_of_string in Heq. exact Heq.
  - destruct (fill_chars (charset false)
                (Z.to_nat (length - Z.of_nat 3)) 3
                (String l (String u (String d EmptyString)))
                ltac:(simpl; lia)) as (drawn & Heq & Hlen & Hall).
    exists l, u, d, sy, drawn. cbn zeta. repeat split; try assumption.
    f_equal. apply (f_equal string_of_list_ascii) in Heq.
    rewrite string_of_list_ascii_of_string in Heq. exact Heq.
Qed.

End GeneratePasswordLemmas.

Lemma class_members (class : ascii → bool) (s : string) (c : ascii) :
  forallb class (list_ascii_of_string s) = true →
  In c (list_ascii_of_string s) → class c = true.
Proof. intros Hall Hin. exact (proj1 (forallb_forall _ _) Hall c Hin). Qed.

Lemma generated_chars (random_index : nat → nat → nat)
    (shuffle : string → string) (length : Z) (includeSymbols : bool) :
  (∀ k n, (0 < n)%nat → (random_index k n < n)%nat) →
  (∀ s, Permutation (list_ascii_of_string (shuffle s))
          (list_ascii_of_string s)) →
  ∃ l u d sy drawn,
    let required :=
      [l; u; d] ++ (if includeSymbols then [sy] else []) in
    In l (list_ascii_of_string lowercase)
    ∧ In u (list_ascii_of_string uppercase)
    ∧ In d (list_ascii_of_string numbers)
    ∧ In sy (list_ascii_of_string symbols)
    ∧ Forall (λ c, In c (list_ascii_of_string (charset includeSymbols)))
        drawn
    ∧ List.length drawn
      = Z.to_nat (length - Z.of_nat (List.length required))
    ∧ Permutation
        (list_ascii_of_string
           (generatePassword_text random_index shuffle length
              includeSymbols))
        (required ++ drawn).
Proof.
  intros Hbelow Hshuffle.
  destruct (drawn_password random_index shuffle Hbelow length includeSymbols)
    as (l & u & d & sy & drawn & Hl & Hu & Hd & Hsy & Hall & Hlen & Heq).
  exists l, u, d, sy, drawn. cbn zeta in *.
  repeat split; try assumption.
  rewrite Heq, Hshuffle, list_ascii_of_string_of_list_ascii. reflexivity.
Qed.

Lemma generated_length (random_index : nat → nat → nat)
    (shuffle : string → string) (length : Z) (includeSymbols : bool) :
  (∀ k n, (0 < n)%nat → (random_index k n < n)%nat) →
  (∀ s, Permutation (list_ascii_of_string (shuffle s))
          (list_ascii_of_string s)) →
  String.length
    (generatePassword_text random_index shuffle length includeSymbols)
  = Z.to_nat (Z.max length (if includeSymbols then 4 else 3)).
Proof.
  intros Hbelow Hshuffle.
  destruct (generated_chars random_index shuffle length includeSymbols
              Hbelow Hshuffle)
    as (l & u & d & sy & drawn & _ & _ & _ & _ & _ & Hlen & Hperm).
  cbn zeta in *. rewrite <- chars_length, (Permutation_length Hperm).
  rewrite length_app, Hlen. destruct includeSymbols; simpl List.length; lia.
Qed.

Lemma generated_classes (random_index : nat → nat → nat)
    (shuffle : string → string) (length : Z) (includeSymbols : bool) :
  (∀ k n, (0 < n)%nat → (random_index k n < n)%nat) →
  (∀ s, Permutation (list_ascii_of_string (shuffle s))
          (list_ascii_of_string s)) →
  let password :=
    generatePassword_text random_index shuffle length includeSymbols in
  test is_lower password = true
  ∧ test is_upper password = true
  ∧ test is_digit password = true.
Proof.
  intros Hbelow Hshuffle.
  destruct (generated_chars random_index shuffle length includeSymbols
              Hbelow Hshuffle)
    as (l & u & d & sy & drawn & Hl & Hu & Hd & _ & _ & _ & Hperm).
  cbn zeta in *. symmetry in Hperm.
  repeat split.
  - apply (test_In _ _ l).
    + apply (Permutation_in _ Hperm). simpl. auto.
    + now apply (class_members is_lower lowercase).
  - apply (test_In _ _ u).
    + apply (Permutation_in _ Hperm). simpl. auto.
    + now apply (class_members is_upper uppercase).
  - apply (test_In _ _ d).
    + apply (Permutation_in _ Hperm). simpl. auto.
    + now apply (class_members is_digit numbers).
Qed.

(** X23. Whenever every random index falls inside the text it is drawn for
    and the final sort only reorders the characters, the password that
    [generatePassword(length, includeSymbols)] builds has [length]
    characters, but never fewer than the three (with symbols: four) it
    always puts in; it holds a lowercase letter, an uppercase letter and a
    digit, and with [includeSymbols] one of [!@#$%^&*]; and each of its
    characters is taken from the character set of the call. *)
Theorem generatePassword_composition (random_index : nat → nat → nat)
    (shuffle : string → string) (length : Z) (includeSymbols : bool) :
  (∀ k n, (0 < n)%nat → (random_index k n < n)%nat) →
  (∀ s, Permutation (list_ascii_of_string (shuffle s))
          (list_ascii_of_string s)) →
  let password :=
    generatePassword_text random_index shuffle length includeSymbols in
  String.length password
  = Z.to_nat (Z.max length (if includeSymbols then 4 else 3))
  ∧ test is_lower password = true
  ∧ test is_upper password = true
  ∧ test is_digit password = true
  ∧ (includeSymbols = true →
     ∃ c, In c (list_ascii_of_string symbols)
          ∧ In c (list_ascii_of_string password))
  ∧ ∀ c, In c (list_ascii_of_string password) →
         In c (list_ascii_of_string (charset includeSymbols)).
Proof.
  intros Hbelow Hshuffle password.
  split; [apply generated_length; assumption|].
  destruct (generated_classes random_index shuffle length includeSymbols
              Hbelow Hshuffle) as (Hlow & Hup & Hdig).
  do 3 (split; [assumption|]).
  destruct (generated_chars random_index shuffle length includeSymbols
              Hbelow Hshuffle)
    as (l & u & d & sy & drawn & Hl & Hu & Hd & Hsy & Hall & _ & Hperm).
  cbn zeta in *. fold password in Hperm. split.
  - intros ->. exists sy. split; [exact Hsy|].
    apply (Permutation_in _ (Permutation_sym Hperm)). simpl. auto.
  - intros c Hc. apply (Permutation_in _ Hperm) in Hc.
    apply in_app_or in Hc. destruct Hc as [Hc|Hc].
    + apply charset_includes.
      destruct includeSymbols; simpl in Hc;
        intuition (subst; auto).
    + exact (proj1 (List.Forall_forall _ _) Hall c Hc).
Qed.

Lemma generatePassword_composition_witness :
  let password := generatePassword_text first_index keep_order 12 true in
  String.length password = Z.to_nat (Z.max 12 (if true then 4 else 3))
  ∧ test is_lower password = true
  ∧ test is_upper password = true
  ∧ test is_digit password = true
  ∧ (true = true →
     ∃ c, In c (list_ascii_of_string symbols)
          ∧ In c (list_ascii_of_string password))
  ∧ ∀ c, In c (list_ascii_of_string password) →
         In c (list_ascii_of_string (charset true)).
Proof.
  refine (generatePassword_composition first_index keep_order 12 true _ _).
  - intros k n Hn. unfold first_index. exact Hn.
  - intros s. unfold keep_order. reflexivity.
Defined.

(** X24. Under the same two conditions on the random source and the sort,
    the strength meter of the popup rates a password generated for [length]
    characters by [length] alone: strong from 12 on, medium from 8 to 11,
    weak below 8. *)
Theorem generated_password_strength (random_index : nat → nat → nat)
    (shuffle : string → string) (length : Z) (includeSymbols : bool) :
  (∀ k n, (0 < n)%nat → (random_index k n < n)%nat) →
  (∀ s, Permutation (list_ascii_of_string (shuffle s))
          (list_ascii_of_string s)) →
  updatePasswordStrength
    (generatePassword_text random_index shuffle length includeSymbols)
  = if 12 <=? length then "strong"
    else if 8 <=? length then "medium"
    else "weak".
Proof.
  intros Hbelow Hshuffle. unfold updatePasswordStrength.
  destruct (generated_classes random_index shuffle length includeSymbols
              Hbelow Hshuffle) as (-> & -> & ->).
  rewrite (generated_length random_index shuffle length includeSymbols
             Hbelow Hshuffle).
  rewrite !andb_true_r.
  destruct (12 <=? length) eqn:H12.
  - apply Z.leb_le in H12.
    replace (Nat.leb 12 _) with true; [reflexivity|].
    symmetry. apply Nat.leb_le. destruct includeSymbols; lia.
  - apply Z.leb_gt in H12.
    replace (Nat.leb 12 _) with false
      by (symmetry; apply Nat.leb_gt; destruct includeSymbols; lia).
    destruct (8 <=? length) eqn:H8.
    + apply Z.leb_le in H8.
      replace (Nat.leb 8 _) with true; [reflexivity|].
      symmetry. apply Nat.leb_le. destruct includeSymbols; lia.
    + apply Z.leb_gt in H8.
      replace (Nat.leb 8 _) with false; [reflexivity|].
      symmetry. apply Nat.leb_gt. destruct includeSymbols; lia.
Qed.

Lemma generated_password_strength_witness :
  updatePasswordStrength (generatePassword_text first_index keep_order 32 true)
  = if 12 <=? 32 then "strong"
    else if 8 <=? 32 then "medium"
    else "weak".
Proof.
  refine (generated_password_strength first_index keep_order 32 true _ _).
  - intros k n Hn. unfold first_index. exact Hn.
  - intros s. unfold keep_order. reflexivity.
Defined.
